(** * The-Method: template filling, date filters and constrained sampling

    A shallow embedding of [src/lib/search-settings.ts],
    [src/lib/randomness.ts] and [src/lib/distributionPDF.ts], with the
    parts of [src/lib/components/DistributionGraph.svelte] and
    [src/routes/+page.svelte] that call them.

    Conventions of the embedding.
    - A JavaScript string is the list of its UTF-16 code units.
    - A JavaScript number that the code uses as an integer is a [Z]; a
      number that is a fraction (slider values, raw samples, curve heights)
      is a [Q].  Arithmetic is exact: double rounding, overflow, NaN and the
      infinities are outside the model (doubles agree with it on integers
      below 2^53).
    - [Math.random()] reads the next value of an explicit random source that
      is threaded through every function that draws from it.
    - [Math.sqrt], [Math.log], [Math.cos], [Math.exp], [Math.pow] and
      [Math.PI] are implementation-approximated in ECMAScript; they are
      parameters of the model, collected in the record [MathLib]. *)

From Stdlib Require Import String Ascii ZArith QArith Qround Qminmax Bool Lia Lqa List
  Permutation Sorted.
Import ListNotations.

Local Open Scope Z_scope.

(* ================================================================== *)
(** * JavaScript strings and the string primitives the code calls       *)
(* ================================================================== *)

Module JS.

(** A string is its sequence of UTF-16 code units. *)
Definition jsstring := list Z.

(** Literals of the source are written with [str]. *)
Definition str (s : string) : jsstring :=
  map (fun a => Z.of_N (N_of_ascii a)) (list_ascii_of_string s).

Definition code_eqb (a b : Z) : bool := a =? b.

Fixpoint eqb (s t : jsstring) : bool :=
  match s, t with
  | [], [] => true
  | a :: s', b :: t' => code_eqb a b && eqb s' t'
  | _, _ => false
  end.

(** [s.startsWith(pat)] *)
Fixpoint startsWith (pat s : jsstring) : bool :=
  match pat, s with
  | [], _ => true
  | p :: pat', c :: s' => code_eqb p c && startsWith pat' s'
  | _ :: _, [] => false
  end.

(** [s.includes(pat)], also [/pat/.test(s)] for a literal pattern. *)
Fixpoint includes (pat s : jsstring) : bool :=
  startsWith pat s ||
  match s with
  | [] => false
  | _ :: s' => includes pat s'
  end.

(** [s.replace(/pat/g, rep)] for a literal, non-empty pattern: the matches
    are found left to right and do not overlap.  [skip] counts the code
    units of the current match that are still to be dropped.  The
    replacement texts of this program never hold a [$] followed by another
    character, so the substitution patterns of [replace] are not modelled. *)
Fixpoint replaceAll_from (pat rep : jsstring) (skip : nat) (s : jsstring)
  : jsstring :=
  match s with
  | [] => []
  | c :: s' =>
      match skip with
      | S k => replaceAll_from pat rep k s'
      | O =>
          if startsWith pat s
          then rep ++ replaceAll_from pat rep (length pat - 1) s'
          else c :: replaceAll_from pat rep 0 s'
      end
  end.

Definition replaceAll (pat rep s : jsstring) : jsstring :=
  replaceAll_from pat rep 0 s.

(** [s.replace(pat, rep)] with a string pattern: only the first occurrence
    is replaced. *)
Fixpoint replaceFirst (pat rep s : jsstring) : jsstring :=
  if startsWith pat s then rep ++ skipn (length pat) s
  else
    match s with
    | [] => []
    | c :: s' => c :: replaceFirst pat rep s'
    end.

(** [s.match(/X+/g)]: the maximal runs of the code unit [x], left to right.
    [run] is the length of the run being read. *)
Fixpoint matchRuns_from (x : Z) (run : nat) (s : jsstring) : list jsstring :=
  match s with
  | [] =>
      match run with
      | O => []
      | _ => [repeat x run]
      end
  | c :: s' =>
      if code_eqb c x then matchRuns_from x (S run) s'
      else
        match run with
        | O => matchRuns_from x 0 s'
        | _ => repeat x run :: matchRuns_from x 0 s'
        end
  end.

Definition matchRuns (x : Z) (s : jsstring) : list jsstring :=
  matchRuns_from x 0 s.

(** [s.padStart(n, fill)] with a one-character filler. *)
Definition padStart (s : jsstring) (n : nat) (fill : Z) : jsstring :=
  repeat fill (n - length s) ++ s.

(** Digits of a non-negative integer in base [radix], most significant
    first.  [fuel] bounds the number of digits. *)
Definition digitChar (d : Z) : Z :=
  if d <? 10 then 48 + d else 55 + d.   (* '0'..'9', 'A'..'Z' *)

Fixpoint digits_fuel (radix : Z) (fuel : nat) (n : Z) : jsstring :=
  match fuel with
  | O => []
  | S f =>
      if n <? radix then [digitChar n]
      else digits_fuel radix f (n / radix) ++ [digitChar (n mod radix)]
  end.

Definition digits (radix n : Z) : jsstring :=
  digits_fuel radix (S (Z.to_nat (Z.log2 n))) n.

(** [n.toString()] for an integer, in plain decimal digits.  The code
    prints an integer of magnitude 10^21 or more in exponent notation;
    the statements that print a number keep it below that. *)
Definition toString (n : Z) : jsstring :=
  if n <? 0 then 45 :: digits 10 (- n) else digits 10 n.

(** [n.toString(16).toUpperCase()] for an integer. *)
Definition toStringHexUpper (n : Z) : jsstring :=
  if n <? 0 then 45 :: digits 16 (- n) else digits 16 n.

(** [String.fromCharCode(n)]: one code unit, [n] modulo 2^16. *)
Definition fromCharCode (n : Z) : jsstring := [n mod 65536].

(** [s.split(sep)] for a one-character separator. *)
Fixpoint split_from (sep : Z) (cur : jsstring) (s : jsstring)
  : list jsstring :=
  match s with
  | [] => [rev cur]
  | c :: s' =>
      if code_eqb c sep then rev cur :: split_from sep [] s'
      else split_from sep (c :: cur) s'
  end.

Definition split (sep : Z) (s : jsstring) : list jsstring :=
  split_from sep [] s.

(** White space skipped by [parseInt] (WhiteSpace and LineTerminator). *)
Definition isStrWhiteSpace (c : Z) : bool :=
  ((9 <=? c) && (c <=? 13)) || (c =? 32) || (c =? 160) || (c =? 5760)
  || ((8192 <=? c) && (c <=? 8202)) || (c =? 8232) || (c =? 8233)
  || (c =? 8239) || (c =? 8287) || (c =? 12288) || (c =? 65279).

Definition isDigit (c : Z) : bool := (48 <=? c) && (c <=? 57).

Fixpoint trimStart (s : jsstring) : jsstring :=
  match s with
  | c :: s' => if isStrWhiteSpace c then trimStart s' else s
  | [] => []
  end.

(** Value of the longest prefix of decimal digits; [None] when it is
    empty.  [acc] is the value read so far, [seen] tells whether a digit
    was read. *)
Fixpoint readDigits (acc : Z) (seen : bool) (s : jsstring) : option Z :=
  match s with
  | c :: s' =>
      if isDigit c then readDigits (10 * acc + (c - 48)) true s'
      else if seen then Some acc else None
  | [] => if seen then Some acc else None
  end.

(** [parseInt(s, 10)]; [None] stands for NaN. *)
Definition parseInt (s : jsstring) : option Z :=
  match trimStart s with
  | c :: s' =>
      if c =? 45 then option_map Z.opp (readDigits 0 false s')
      else if c =? 43 then readDigits 0 false s'
      else readDigits 0 false (c :: s')
  | [] => None
  end.

(** [\w] of a regular expression without the [u] and [i] flags. *)
Definition isWordChar (c : Z) : bool :=
  ((48 <=? c) && (c <=? 57)) || ((65 <=? c) && (c <=? 90))
  || ((97 <=? c) && (c <=? 122)) || (c =? 95).

(** ** [URLSearchParams.prototype.toString] *)

Definition isHighSurrogate (c : Z) : bool := (55296 <=? c) && (c <=? 56319).
Definition isLowSurrogate (c : Z) : bool := (56320 <=? c) && (c <=? 57343).

(** Conversion to a sequence of Unicode scalar values: a surrogate pair is
    one scalar, a lone surrogate becomes U+FFFD. *)
Fixpoint toScalars (s : jsstring) : list Z :=
  match s with
  | [] => []
  | c :: s' =>
      if isHighSurrogate c then
        match s' with
        | d :: s'' =>
            if isLowSurrogate d
            then (65536 + (c - 55296) * 1024 + (d - 56320)) :: toScalars s''
            else 65533 :: toScalars s'
        | [] => [65533]
        end
      else if isLowSurrogate c then 65533 :: toScalars s'
      else c :: toScalars s'
  end.

(** A text that can follow any other without completing a surrogate
    pair. *)
Definition headNotLowSurrogate (t : jsstring) : Prop :=
  match t with
  | [] => True
  | c :: _ => isLowSurrogate c = false
  end.

Definition utf8 (u : Z) : list Z :=
  if u <? 128 then [u]
  else if u <? 2048 then [192 + u / 64; 128 + u mod 64]
  else if u <? 65536 then
    [224 + u / 4096; 128 + (u / 64) mod 64; 128 + u mod 64]
  else
    [240 + u / 262144; 128 + (u / 4096) mod 64; 128 + (u / 64) mod 64;
     128 + u mod 64].

(** Bytes left as they are by the application/x-www-form-urlencoded
    serializer: ASCII alphanumerics and [*], [-], [.], [_]. *)
Definition isFormSafe (b : Z) : bool :=
  ((48 <=? b) && (b <=? 57)) || ((65 <=? b) && (b <=? 90))
  || ((97 <=? b) && (b <=? 122))
  || (b =? 42) || (b =? 45) || (b =? 46) || (b =? 95).

Definition percentByte (b : Z) : jsstring :=
  if isFormSafe b then [b]
  else if b =? 32 then [43]
  else [37; digitChar (b / 16); digitChar (b mod 16)].

Definition formEncode (s : jsstring) : jsstring :=
  flat_map percentByte (flat_map utf8 (toScalars s)).

End JS.

(* ================================================================== *)
(** * The random source                                                 *)
(* ================================================================== *)

Module Random.

(** The successive values that [Math.random()] returns. *)
Definition source := nat -> Q.

(** One call of [Math.random()]: the value and the source that remains. *)
Definition random (r : source) : Q * source :=
  (r 0%nat, fun n => r (S n)).

(** [Math.random()] returns a number in [0, 1). *)
Definition unit_interval (r : source) : Prop :=
  forall n, (0 <= r n)%Q /\ (r n < 1)%Q.

(** At most [k] values in a row are zero, so a loop that waits for a
    non-zero value ends within [k + 1] draws. *)
Definition zero_gap (k : nat) (r : source) : Prop :=
  forall n, exists m, (m <= k)%nat /\ ~ (r (n + m)%nat == 0)%Q.

(** What the samplers need of the source: values in [0, 1), and never more
    than [k] zeros in a row. *)
Definition fair (k : nat) (r : source) : Prop :=
  unit_interval r /\ zero_gap k r.

(** A source that always returns [u]. *)
Definition constant (u : Q) : source := fun _ => u.

(** A source that returns zero every other time. *)
Definition everyOther : source :=
  fun n => if Nat.even n then 0%Q else (3 # 4)%Q.

(** A source that returns the values of [l] and then [u] forever. *)
Definition from_list (l : list Q) (u : Q) : source := fun n => nth n l u.

End Random.

(* ================================================================== *)
(** * search-settings.ts                                                *)
(* ================================================================== *)

Module SearchSettings.

Import JS.

(** Modelled from the spec: the declarations of [Constraint] and
    [SearchPattern] are in method-logic.ts, which is not among the sources.
    The fields are those of the data model; a field that may be missing from
    a catalog entry is an [option].  [cvalue] is the text that
    [String(constraint.value)] gives. *)
Record Constraint := {
  ctype : jsstring;
  cvalue : jsstring
}.

Record SearchPattern := {
  name : jsstring;
  genre : jsstring;
  age : option jsstring;
  specifiers : list jsstring;
  constraints : list Constraint;
  dateBefore : option jsstring;
  dateAfter : option jsstring;
  dateExact : option jsstring;
  isCustom : bool
}.

(** A [Date], seen through the getters the module calls (local time). *)
Record Date := {
  getFullYear : Z;
  getMonth : Z;       (* 0-based *)
  getDate : Z;
  getHours : Z;
  getMinutes : Z;
  getSeconds : Z
}.

Definition valid_date (d : Date) : Prop :=
  0 <= getMonth d <= 11 /\ 1 <= getDate d <= 31 /\ 0 <= getHours d <= 23
  /\ 0 <= getMinutes d <= 59 /\ 0 <= getSeconds d <= 59.

(** [parseRangeConstraint] *)
Definition parseRangeConstraint (value : jsstring) : option (Z * Z) :=
  match split 45 value with
  | [p0; p1] =>
      match parseInt p0, parseInt p1 with
      | Some min, Some max => Some (min, max)
      | _, _ => None
      end
  | _ => None
  end.

(** [getRandomInt].  The product is exact here and rounded to a double in
    the code, which can move it across an integer (0.7 * 10 is 7 there);
    the range of the result is the same in both. *)
Definition getRandomInt (min max : Z) (r : Random.source)
  : Z * Random.source :=
  let (u, r') := Random.random r in
  (Qfloor (u * inject_Z (max - min + 1))%Q + min, r').

Definition monthNames : list jsstring :=
  map str ["January"; "February"; "March"; "April"; "May"; "June"; "July";
           "August"; "September"; "October"; "November"; "December"]%string.

Definition shortMonthNames : list jsstring :=
  map str ["Jan"; "Feb"; "Mar"; "Apr"; "May"; "Jun"; "Jul"; "Aug"; "Sep";
           "Oct"; "Nov"; "Dec"]%string.

(** [names[i]] put into a string: outside the array it reads as
    [undefined]. *)
Definition at_index (names : list jsstring) (i : Z) : jsstring :=
  if i <? 0 then str "undefined"
  else nth (Z.to_nat i) names (str "undefined").

(** One date or time token of [fillSpecifierTemplate]:
    [if (result.includes(tok)) result = result.replace(/tok/g, rep)]. *)
Definition substitute (tok rep result : jsstring) : jsstring :=
  if includes tok result then replaceAll tok rep result else result.

Definition two (n : Z) : jsstring := padStart (toString n) 2 48.

(** The tokens in the order the function processes them, each with its
    replacement text. *)
Definition dateTokens (d : Date) : list (jsstring * jsstring) :=
  [ (str "YYYY", padStart (toString (getFullYear d)) 4 48);
    (str "Month", at_index monthNames (getMonth d));
    (str "Mon", at_index shortMonthNames (getMonth d));
    (str "MM", two (getMonth d + 1));
    (str "DD", two (getDate d));
    (str "HH", two (getHours d));
    (str "mm", two (getMinutes d));
    (str "SS", two (getSeconds d)) ].

Definition fillDateTokens (d : Date) (specifier : jsstring) : jsstring :=
  fold_left (fun result tr => substitute (fst tr) (snd tr) result)
            (dateTokens d) specifier.

Inductive ConstraintKind := number | letter | hex.

(** One iteration of [for (const constraint of pattern.constraints)]. *)
Definition applyConstraint (acc : Z * Z * ConstraintKind) (c : Constraint)
  : Z * Z * ConstraintKind :=
  if eqb (ctype c) (str "range") then
    match parseRangeConstraint (cvalue c) with
    | Some (min, max) => (min, max, number)
    | None => acc
    end
  else if eqb (ctype c) (str "letter-range") then
    match parseRangeConstraint (cvalue c) with
    | Some (min, max) => (min, max, letter)
    | None => acc
    end
  else if eqb (ctype c) (str "hex-range") then
    match parseRangeConstraint (cvalue c) with
    | Some (min, max) => (min, max, hex)
    | None => acc
    end
  else acc.

(** [min], [max] and [constraintType] for a run of [xCount] X's. *)
Definition resolveConstraints (xCount : nat) (cs : list Constraint)
  : Z * Z * ConstraintKind :=
  fold_left applyConstraint cs (0, 10 ^ Z.of_nat xCount - 1, number).

Definition render (kind : ConstraintKind) (randomNum : Z) : jsstring :=
  match kind with
  | letter => fromCharCode randomNum
  | hex => toStringHexUpper randomNum
  | number => toString randomNum
  end.

(** The body of [for (const xGroup of xMatches)]. *)
Definition fillRun (cs : list Constraint) (st : jsstring * Random.source)
  (xGroup : jsstring) : jsstring * Random.source :=
  let (result, r) := st in
  let xCount := length xGroup in
  let '(min, max, kind) := resolveConstraints xCount cs in
  let (randomNum, r') := getRandomInt min max r in
  let replacement := padStart (render kind randomNum) xCount 48 in
  (replaceFirst xGroup replacement result, r').

(** [fillSpecifierTemplate] *)
Definition fillSpecifierTemplate (specifier : jsstring)
  (pattern : SearchPattern) (formattedDate : Date) (r : Random.source)
  : jsstring * Random.source :=
  match specifier with
  | [] => ([], r)
  | _ =>
      let result := fillDateTokens formattedDate specifier in
      if includes [88] result then
        fold_left (fillRun (constraints pattern)) (matchRuns 88 result)
                  (result, r)
      else (result, r)
  end.

(** [generateSearchTerm] *)
Definition generateSearchTerm (name : jsstring) (specifier : jsstring)
  (pattern : SearchPattern) (formattedDate : Date) (r : Random.source)
  : jsstring * Random.source :=
  match specifier with
  | [] => (name, r)
  | _ =>
      let (specifierValue, r') :=
        fillSpecifierTemplate specifier pattern formattedDate r in
      match specifierValue with
      | [] => (name, r')
      | _ => (name ++ specifierValue, r')
      end
  end.

(** [\b]: the characters on the two sides differ in being word
    characters.  [prevWord] tells whether the character before the position
    is one; [s] is the text from the position on. *)
Definition wordBoundary (prevWord : bool) (s : jsstring) : bool :=
  xorb prevWord
       match s with
       | [] => false
       | c :: _ => isWordChar c
       end.

(** Does [/\b(\d{4})\b/] match at the start of [s]?  The group, if so. *)
Definition yearAt (prevWord : bool) (s : jsstring) : option jsstring :=
  match s with
  | d1 :: d2 :: d3 :: d4 :: rest =>
      if wordBoundary prevWord s
         && isDigit d1 && isDigit d2 && isDigit d3 && isDigit d4
         && wordBoundary (isWordChar d4) rest
      then Some [d1; d2; d3; d4]
      else None
  | _ => None
  end.

(** [searchTerm.match(/\b(\d{4})\b/)]: group 1 of the leftmost match. *)
Fixpoint matchYear_from (prevWord : bool) (s : jsstring) : option jsstring :=
  match yearAt prevWord s with
  | Some y => Some y
  | None =>
      match s with
      | [] => None
      | c :: s' => matchYear_from (isWordChar c) s'
      end
  end.

Definition matchYear (s : jsstring) : option jsstring :=
  matchYear_from false s.

(** A run of exactly four digits delimited by word boundaries, in the
    words of the specification: [s] is [pre], the run [year] and [post];
    the character before the run, if there is one, and the character
    after it, if there is one, are no word characters. *)
Definition yearRun (s pre year post : jsstring) : Prop :=
  s = pre ++ year ++ post
  /\ length year = 4%nat /\ forallb isDigit year = true
  /\ isWordChar (last pre 32) = false
  /\ isWordChar (hd 32 post) = false.

Definition age_is (pattern : SearchPattern) (a : string) : bool :=
  match age pattern with
  | Some v => eqb v (str a)
  | None => false
  end.

(** The text that the override branch and the 'old' branch both build:
    [`before:${year}-${month}-${day}`] with month and day padded to two
    places. *)
Definition beforeFilter (formattedDate : Date) : jsstring :=
  str "before:" ++ toString (getFullYear formattedDate) ++ [45]
  ++ two (getMonth formattedDate + 1) ++ [45]
  ++ two (getDate formattedDate).

(** [determineDateFilter] *)
Definition determineDateFilter (specifier : jsstring)
  (pattern : SearchPattern) (formattedDate : Date) (searchTerm : jsstring)
  (dateOverride : bool) : jsstring :=
  let hasYearPlaceholder := includes (str "YYYY") specifier in
  let before := beforeFilter formattedDate in
  if dateOverride then before
  else
    match (if hasYearPlaceholder then matchYear searchTerm else None) with
    | Some year =>
        str "after:" ++ year ++ [45]
        ++ toString (getMonth formattedDate + 1) ++ [45]
        ++ toString (getDate formattedDate)
    | None =>
        if age_is pattern "old" then before
        else if age_is pattern "new" then []
        else []
    end.

Definition quoted (s : jsstring) : jsstring := [34] ++ s ++ [34].

(** [formatSearchTermToURL] *)
Definition formatSearchTermToURL (pattern : SearchPattern)
  (specifier : jsstring) (formattedDate : Date) (dateOverride : bool)
  (r : Random.source) : jsstring * Random.source :=
  let (term, r') :=
    generateSearchTerm (name pattern) specifier pattern formattedDate r in
  let searchTerm := quoted term in
  let dateFilter :=
    determineDateFilter specifier pattern formattedDate searchTerm
                        dateOverride in
  let fullSearchTerm :=
    match dateFilter with
    | [] => searchTerm
    | _ => searchTerm ++ [32] ++ dateFilter
    end in
  let params :=
    str "search_query=" ++ formEncode fullSearchTerm
    ++ str "&sp=" ++ formEncode (str "CAISAhAB") in
  (str "https://www.youtube.com/results?" ++ params, r').

(** ** Sample inputs *)

Definition mkPattern (nm : jsstring) (ag : option jsstring)
  (cs : list Constraint) : SearchPattern :=
  {| name := nm; genre := []; age := ag; specifiers := [[]];
     constraints := cs; dateBefore := None; dateAfter := None;
     dateExact := None; isCustom := false |}.

Definition mkDate (y m d : Z) : Date :=
  {| getFullYear := y; getMonth := m - 1; getDate := d; getHours := 0;
     getMinutes := 0; getSeconds := 0 |}.

Definition withConstraints (p : SearchPattern) (cs : list Constraint)
  : SearchPattern :=
  {| name := name p; genre := genre p; age := age p;
     specifiers := specifiers p; constraints := cs;
     dateBefore := dateBefore p; dateAfter := dateAfter p;
     dateExact := dateExact p; isCustom := isCustom p |}.

Definition rangeOf (value : string) : Constraint :=
  {| ctype := str "range"; cvalue := str value |}.

Definition letterRangeOf (value : string) : Constraint :=
  {| ctype := str "letter-range"; cvalue := str value |}.

Definition hexRangeOf (value : string) : Constraint :=
  {| ctype := str "hex-range"; cvalue := str value |}.

(** The names of the date and time tokens, in processing order. *)
Definition dateTokenNames : list jsstring :=
  map str ["YYYY"; "Month"; "Mon"; "MM"; "DD"; "HH"; "mm"; "SS"]%string.

Definition isUpperLetter (c : Z) : bool := (65 <=? c) && (c <=? 90).

(** The part of every URL before the encoded search term. *)
Definition urlPrefix : jsstring :=
  str "https://www.youtube.com/results?search_query=".

(** ** The rest of the module *)

(** The replacement text that the loop body builds for a run of [xCount]
    X's: a number drawn in the resolved range, rendered by kind and padded
    (the part of the body before [result.replace]). *)
Definition renderRun (cs : list Constraint) (xCount : nat)
  (r : Random.source) : jsstring * Random.source :=
  let '(min, max, kind) := resolveConstraints xCount cs in
  let (randomNum, r') := getRandomInt min max r in
  (padStart (render kind randomNum) xCount 48, r').

(** Filling in place, as the comment on the loop reads ("process each X
    field separately"): the text is read once from the left, each maximal
    run of X's is replaced where it stands by its own replacement text, and
    every other character is kept.  [run] is the length of the run being
    read. *)
Fixpoint fillInPlace_from (cs : list Constraint) (run : nat) (s : jsstring)
  (r : Random.source) : jsstring * Random.source :=
  match s with
  | [] =>
      match run with
      | O => ([], r)
      | _ => renderRun cs run r
      end
  | c :: s' =>
      if code_eqb c 88 then fillInPlace_from cs (S run) s' r
      else
        match run with
        | O =>
            let (rest, r') := fillInPlace_from cs 0 s' r in (c :: rest, r')
        | _ =>
            let (text, r1) := renderRun cs run r in
            let (rest, r2) := fillInPlace_from cs 0 s' r1 in
            (text ++ c :: rest, r2)
        end
  end.

Definition fillInPlace (cs : list Constraint) (s : jsstring)
  (r : Random.source) : jsstring * Random.source :=
  fillInPlace_from cs 0 s r.

(** [letterArray[i]] and [hexArray[i]]: [None] stands for [undefined]. *)
Definition charAt (chars : string) (i : Z) : option Z :=
  if i <? 0 then None else nth_error (str chars) (Z.to_nat i).

(** [getRandomLetter]; [%] is the remainder that takes the sign of the
    dividend. *)
Definition getRandomLetter (min max : Z) (r : Random.source)
  : option Z * Random.source :=
  let letters := "ABCDEFGHIJKLMNOPQRSTUVWXYZ"%string in
  let (randomIndex, r') := getRandomInt min max r in
  (charAt letters (Z.rem randomIndex (Z.of_nat (length (str letters)))), r').

(** [getRandomHex] *)
Definition getRandomHex (min max : Z) (r : Random.source)
  : option Z * Random.source :=
  let hexChars := "0123456789ABCDEF"%string in
  let (randomIndex, r') := getRandomInt min max r in
  (charAt hexChars (Z.rem randomIndex (Z.of_nat (length (str hexChars)))), r').

Definition isHexDigitUpper (c : Z) : bool :=
  ((48 <=? c) && (c <=? 57)) || ((65 <=? c) && (c <=? 70)).

(** The value text [`${min}-${max}`] of a range constraint. *)
Definition rangeValue (min max : Z) : jsstring :=
  toString min ++ [45] ++ toString max.

(** A constraint list in which [parseRangeConstraint] accepts no value. *)
Definition allRejected (cs : list Constraint) : Prop :=
  Forall (fun c => parseRangeConstraint (cvalue c) = None) cs.

(** A constraint list in which no entry has the type "letter-range". *)
Definition noLetterRange (cs : list Constraint) : Prop :=
  Forall (fun c => eqb (ctype c) (str "letter-range") = false) cs.

End SearchSettings.

(* ================================================================== *)
(** * search-settings.ts on the objects the page passes to it           *)
(* ================================================================== *)

Module PatternObjects.

Import JS.

(** How a call ends. *)
Inductive Completion (A : Type) :=
| Returned (a : A)
| ThrewTypeError.

Arguments Returned {A} a.
Arguments ThrewTypeError {A}.

(** A pattern object as the page holds it in [allSearchTerms]: an entry of
    the catalog, or an entry that [developSearchTerm] built and the page
    stored.  A property that the object does not have is [None]. *)
Record PatternObject := {
  name : jsstring;
  genre : jsstring;
  age : option jsstring;
  specifiers : list jsstring;
  constraints : option (list SearchSettings.Constraint);
  constraint : option (jsstring * jsstring);
  dateBefore : option jsstring;
  dateAfter : option jsstring;
  dateExact : option jsstring;
  isCustom : bool
}.

(** [developSearchTerm] of +page.svelte: the object has the property
    [constraint], and no property [constraints]. *)
Definition developSearchTerm (name : jsstring) (specifiers : list jsstring)
  (genre age : jsstring) (constraint : jsstring * jsstring) : PatternObject :=
  {| name := name; genre := genre; age := Some age;
     specifiers := specifiers; constraints := None;
     constraint := Some constraint;
     dateBefore := None; dateAfter := None; dateExact := None;
     isCustom := true |}.

(** The object with the array [cs] as its [constraints], as a pattern of
    the data model. *)
Definition typed (o : PatternObject) (cs : list SearchSettings.Constraint)
  : SearchSettings.SearchPattern :=
  {| SearchSettings.name := name o;
     SearchSettings.genre := genre o;
     SearchSettings.age := age o;
     SearchSettings.specifiers := specifiers o;
     SearchSettings.constraints := cs;
     SearchSettings.dateBefore := dateBefore o;
     SearchSettings.dateAfter := dateAfter o;
     SearchSettings.dateExact := dateExact o;
     SearchSettings.isCustom := isCustom o |}.

(** [fillSpecifierTemplate].  The first round of the loop over the runs
    reaches [for (const constraint of pattern.constraints)]; iterating
    [undefined] raises a TypeError. *)
Definition fillSpecifierTemplate (specifier : jsstring)
  (pattern : PatternObject) (formattedDate : SearchSettings.Date)
  (r : Random.source) : Completion (jsstring * Random.source) :=
  match specifier with
  | [] => Returned ([], r)
  | _ =>
      let result := SearchSettings.fillDateTokens formattedDate specifier in
      if includes [88] result then
        match matchRuns 88 result with
        | [] => Returned (result, r)
        | xMatches =>
            match constraints pattern with
            | Some cs =>
                Returned (fold_left (SearchSettings.fillRun cs) xMatches
                                    (result, r))
            | None => ThrewTypeError
            end
        end
      else Returned (result, r)
  end.

(** [generateSearchTerm] *)
Definition generateSearchTerm (name : jsstring) (specifier : jsstring)
  (pattern : PatternObject) (formattedDate : SearchSettings.Date)
  (r : Random.source) : Completion (jsstring * Random.source) :=
  match specifier with
  | [] => Returned (name, r)
  | _ =>
      match fillSpecifierTemplate specifier pattern formattedDate r with
      | ThrewTypeError => ThrewTypeError
      | Returned (specifierValue, r') =>
          match specifierValue with
          | [] => Returned (name, r')
          | _ => Returned (name ++ specifierValue, r')
          end
      end
  end.

(** [formatSearchTermToURL].  [determineDateFilter] reads [pattern.age]
    and no other property of the pattern. *)
Definition formatSearchTermToURL (pattern : PatternObject)
  (specifier : jsstring) (formattedDate : SearchSettings.Date)
  (dateOverride : bool) (r : Random.source)
  : Completion (jsstring * Random.source) :=
  match generateSearchTerm (name pattern) specifier pattern formattedDate r
  with
  | ThrewTypeError => ThrewTypeError
  | Returned (term, r') =>
      let searchTerm := SearchSettings.quoted term in
      let dateFilter :=
        SearchSettings.determineDateFilter specifier (typed pattern [])
          formattedDate searchTerm dateOverride in
      let fullSearchTerm :=
        match dateFilter with
        | [] => searchTerm
        | _ => searchTerm ++ [32] ++ dateFilter
        end in
      let params :=
        str "search_query=" ++ formEncode fullSearchTerm
        ++ str "&sp=" ++ formEncode (str "CAISAhAB") in
      Returned (str "https://www.youtube.com/results?" ++ params, r')
  end.

End PatternObjects.


(* ================================================================== *)
(** * The Math library                                                  *)
(* ================================================================== *)

(** The transcendental functions of [Math] that the samplers and the
    density formulas call.  ECMAScript leaves their values to the
    implementation; the model takes them as they come. *)
Record MathLib := {
  sqrt : Q -> Q;
  log : Q -> Q;
  cos : Q -> Q;
  exp : Q -> Q;
  pow : Q -> Q -> Q;
  PI : Q
}.

(** What the density formulas need of the library: no negative square
    root or exponential, and no negative power of a non-negative base. *)
Definition nonnegMath (M : MathLib) : Prop :=
  (forall x, 0 <= sqrt M x)%Q /\ (forall x, 0 <= exp M x)%Q
  /\ (forall b p, 0 <= b -> 0 <= pow M b p)%Q.

(** A small rational library for running examples: one Newton step for
    the square root, first-order series for the others.  The theorems hold
    for every library. *)
Definition exampleMath : MathLib := {|
  sqrt := fun x => if Qle_bool 0 x then ((1 + x) / 2)%Q else 0%Q;
  log := fun x => (x - 1)%Q;
  cos := fun x => (1 - x * x / 2)%Q;
  exp := fun x => if Qle_bool 0 x then (1 + x)%Q else (1 / (1 - x))%Q;
  pow := fun b p => if Qle_bool 0 (1 + p * (b - 1)) then (1 + p * (b - 1))%Q
                    else 0%Q;
  PI := (22 # 7)%Q
|}.

(** [Math.round]: the nearest integer, halves rounded up. *)
Definition round (x : Q) : Z := Qfloor (x + (1 # 2))%Q.

(* ================================================================== *)
(** * randomness.ts                                                     *)
(* ================================================================== *)

Module Randomness.

Inductive DistributionType := uniform | bell | z_curve | t_curve.

Record DistributionConfig := {
  type : DistributionType;
  center : Q;
  spread : Q;
  degreesOfFreedom : option Z
}.

(** A computation that draws from the random source.  It returns [None]
    when one of the loops that wait for a non-zero [Math.random()] is cut
    off by the fuel. *)
Definition Gen (A : Type) : Type := Random.source -> option (A * Random.source).

Definition ret {A} (a : A) : Gen A := fun r => Some (a, r).

Definition bind {A B} (c : Gen A) (k : A -> Gen B) : Gen B :=
  fun r =>
    match c r with
    | Some (a, r') => k a r'
    | None => None
    end.

Notation "x <- c ;; k" := (bind c (fun x => k))
  (at level 61, c at next level, right associativity).

Definition random : Gen Q := fun r => Some (Random.random r).

(** [returns k c P]: on every fair source the computation [c] returns a
    value that satisfies [P], and leaves a fair source. *)
Definition returns {A} (k : nat) (c : Gen A) (P : A -> Prop) : Prop :=
  forall r, Random.fair k r ->
    exists a r', c r = Some (a, r') /\ P a /\ Random.fair k r'.

(** [uniformDistribution].  As for [getRandomInt], the product is exact
    here and rounded in the code; the range of the result is the same. *)
Definition uniformDistribution (min max : Z) : Gen Z :=
  u <- random ;;
  ret (Qfloor (u * inject_Z (max - min + 1))%Q + min).

(** [let u = 0; while (u === 0) u = Math.random();] *)
Fixpoint nonzeroRandom (fuel : nat) : Gen Q :=
  match fuel with
  | O => fun _ => None
  | S f =>
      u <- random ;;
      if Qeq_bool u 0 then nonzeroRandom f else ret u
  end.

(** [config.degreesOfFreedom || 5] *)
Definition dofOrDefault (degreesOfFreedom : option Z) : Z :=
  match degreesOfFreedom with
  | Some 0 => 5
  | Some df => df
  | None => 5
  end.

Section Samplers.

Variable M : MathLib.
Variable fuel : nat.

(** [normalDistribution] (Box-Muller) *)
Definition normalDistribution (mean stdDev : Q) : Gen Q :=
  u1 <- nonzeroRandom fuel ;;
  u2 <- nonzeroRandom fuel ;;
  let z0 := (sqrt M (- (2) * log M u1) * cos M (2 * PI M * u2))%Q in
  ret (z0 * stdDev + mean)%Q.

(** [zCurveDistribution] *)
Definition zCurveDistribution (mean stdDev : Q) : Gen Q :=
  normalDistribution mean stdDev.

(** [for (let i = 0; i < degreesOfFreedom; i++)] of [tDistribution], with
    [n] iterations left. *)
Fixpoint sumSquares (n : nat) (chiSquared : Q) : Gen Q :=
  match n with
  | O => ret chiSquared
  | S n' =>
      x <- normalDistribution 0 1 ;;
      sumSquares n' (chiSquared + x * x)%Q
  end.

(** [tDistribution] *)
Definition tDistribution (mean scale : Q) (dof : Z) : Gen Q :=
  z <- normalDistribution 0 1 ;;
  chiSquared <- sumSquares (Z.to_nat dof) 0 ;;
  let t := (z / sqrt M (chiSquared / inject_Z dof))%Q in
  ret (mean + t * scale)%Q.

(** [do { ... attempts++ } while (out of range && attempts < maxAttempts)]:
    [more] is the number of further attempts that [maxAttempts] allows. *)
Fixpoint retry {A} (draw : Gen A) (outOfRange : A -> bool) (more : nat)
  : Gen A :=
  value <- draw ;;
  if outOfRange value then
    match more with
    | O => ret value
    | S more' => retry draw outOfRange more'
    end
  else ret value.

Definition centerOf (min max : Z) (config : DistributionConfig) : Q :=
  (inject_Z min + inject_Z (max - min) * center config)%Q.

Definition stdDevOf (min max : Z) (config : DistributionConfig) : Q :=
  (inject_Z (max - min) * Qmax (spread config) (1 # 20))%Q.

(** The [switch] in the loop of [generateConstrainedInteger]: one draw,
    rounded, before any range check. *)
Definition drawInteger (min max : Z) (config : DistributionConfig) : Gen Z :=
  let centerValue := centerOf min max config in
  let stdDev := stdDevOf min max config in
  match type config with
  | bell =>
      x <- normalDistribution centerValue stdDev ;; ret (round x)
  | z_curve =>
      x <- zCurveDistribution centerValue stdDev ;; ret (round x)
  | t_curve =>
      x <- tDistribution centerValue stdDev
                         (dofOrDefault (degreesOfFreedom config)) ;;
      ret (round x)
  | uniform => uniformDistribution min max
  end.

(** [generateConstrainedInteger] *)
Definition generateConstrainedInteger (min max : Z)
  (config : DistributionConfig) (maxAttempts : Z) : Gen Z :=
  match type config with
  | uniform => uniformDistribution min max
  | _ =>
      value <- retry (drawInteger min max config)
                     (fun value => (value <? min) || (value >? max))
                     (Z.to_nat (maxAttempts - 1)) ;;
      ret (Z.max min (Z.min max value))
  end.

(** [new Date(t).getTime()]: the time value is cut to an integer. *)
Definition timeClip (t : Q) : Z :=
  if Qle_bool 0 t then Qfloor t else Qceiling t.

(** The [switch] in the loop of [generateConstrainedDate]. *)
Definition drawTime (startTime endTime : Z) (config : DistributionConfig)
  : Gen Q :=
  let centerTime := centerOf startTime endTime config in
  let stdDev := stdDevOf startTime endTime config in
  match type config with
  | bell => normalDistribution centerTime stdDev
  | z_curve => zCurveDistribution centerTime stdDev
  | t_curve =>
      tDistribution centerTime stdDev (dofOrDefault (degreesOfFreedom config))
  | uniform =>
      u <- random ;;
      ret (inject_Z startTime + u * inject_Z (endTime - startTime))%Q
  end.

(** [generateConstrainedDate]; a date is its time value. *)
Definition generateConstrainedDate (startTime endTime : Z)
  (config : DistributionConfig) (maxAttempts : Z) : Gen Z :=
  match type config with
  | uniform =>
      u <- random ;;
      ret (timeClip (inject_Z startTime + u * inject_Z (endTime - startTime)))
  | _ =>
      time <- retry (drawTime startTime endTime config)
                    (fun time => negb (Qle_bool (inject_Z startTime) time)
                                 || negb (Qle_bool time (inject_Z endTime)))
                    (Z.to_nat (maxAttempts - 1)) ;;
      ret (timeClip (Qmax (inject_Z startTime) (Qmin (inject_Z endTime) time)))
  end.

Record Validation := {
  valid : bool;
  successRate : Q
}.

(** The [for] loop of [validateDistribution], with [n] samples left. *)
Fixpoint countSuccesses (min max : Z) (config : DistributionConfig)
  (n : nat) (successCount : Z) : Gen Z :=
  match n with
  | O => ret successCount
  | S n' =>
      value <- generateConstrainedInteger min max config 1 ;;
      countSuccesses min max config n'
        (if (min <=? value) && (value <=? max)
         then successCount + 1 else successCount)
  end.

(** [validateDistribution].  For [sampleSize = 0] the source computes
    [0 / 0]; the model's rate is then [0], and [valid] is [false] in
    both. *)
Definition validateDistribution (config : DistributionConfig) (min max : Z)
  (sampleSize : Z) : Gen Validation :=
  match type config with
  | uniform => ret {| valid := true; successRate := 1 |}
  | _ =>
      successCount <- countSuccesses min max config (Z.to_nat sampleSize) 0 ;;
      let rate := (inject_Z successCount / inject_Z sampleSize)%Q in
      ret {| valid := Qle_bool (4 # 5) rate; successRate := rate |}
  end.

(** What the documentation of [validateDistribution] asks for, in the
    words of the specification: the number of the [n] single-attempt draws
    that land inside [min, max] before they are clamped. *)
Fixpoint countNaturalHits (min max : Z) (config : DistributionConfig)
  (n : nat) (hits : Z) : Gen Z :=
  match n with
  | O => ret hits
  | S n' =>
      raw <- drawInteger min max config ;;
      countNaturalHits min max config n'
        (if (min <=? raw) && (raw <=? max) then hits + 1 else hits)
  end.

Definition naturalSuccessRate (config : DistributionConfig) (min max : Z)
  (sampleSize : Z) : Gen Q :=
  hits <- countNaturalHits min max config (Z.to_nat sampleSize) 0 ;;
  ret (inject_Z hits / inject_Z sampleSize)%Q.

End Samplers.

(** ** The histogram *)

Record Histogram := {
  buckets : list Z;
  labels : list JS.jsstring;
  mean : option Q;             (* [None] is NaN, the mean of no sample *)
  median : option Z;           (* [None] is [undefined] *)
  mode : option Z;
  inRangeCount : Z;
  outOfRangeCount : Z
}.

(** [`${Math.round(start)}-${Math.round(end)}`] for bucket [i]. *)
Definition labelOf (min : Z) (bucketSize : Q) (i : Z) : JS.jsstring :=
  let start := (inject_Z min + inject_Z i * bucketSize)%Q in
  let end_ := (inject_Z min + inject_Z (i + 1) * bucketSize)%Q in
  JS.toString (round start) ++ [45] ++ JS.toString (round end_).

(** [Math.min(Math.floor((value - min) / bucketSize), bucketCount - 1)],
    as it is computed for a value with [min <= value <= max].  The bucket
    size of the model is 0 when [max = min] or [bucketCount = 0]; the
    source then divides by zero or by an infinite size and its index is
    NaN or -1, the name of a property that is no element of the array:
    [None].  The quotient is exact here and rounded to a double in the
    code; the two agree where the bucket size is an integer. *)
Definition bucketIndexOf (min : Z) (bucketSize : Q) (bucketCount value : Z)
  : option Z :=
  if Qeq_bool bucketSize 0 then None
  else Some (Z.min (Qfloor (inject_Z (value - min) / bucketSize))
                   (bucketCount - 1)).

(** [buckets[bucketIndex]++].  A negative index names a property and
    leaves the elements as they are; an index past the end does not occur,
    [bucketIndexOf] being at most [bucketCount - 1]. *)
Definition incrementAt (buckets : list Z) (bucketIndex : Z) : list Z :=
  if (0 <=? bucketIndex) && (bucketIndex <? Z.of_nat (length buckets)) then
    firstn (Z.to_nat bucketIndex) buckets
    ++ [nth (Z.to_nat bucketIndex) buckets 0 + 1]
    ++ skipn (S (Z.to_nat bucketIndex)) buckets
  else buckets.

(** What the sampling loop of [generateHistogram] writes. *)
Record Tally := {
  samples : list Z;
  tallyBuckets : list Z;
  inRange : Z;
  outOfRange : Z
}.

(** [samples.sort((a, b) => a - b)]: the numbers in ascending order. *)
Fixpoint insertSorted (x : Z) (l : list Z) : list Z :=
  match l with
  | [] => [x]
  | y :: l' => if x <=? y then x :: l else y :: insertSorted x l'
  end.

Definition sortNumbers (l : list Z) : list Z := fold_right insertSorted [] l.

(** [samples.reduce((sum, val) => sum + val, 0) / samples.length] *)
Definition meanOf (samples : list Z) : option Q :=
  match samples with
  | [] => None
  | _ => Some (inject_Z (fold_left Z.add samples 0%Z)
               / inject_Z (Z.of_nat (length samples)))%Q
  end.

(** [samples[Math.floor(samples.length / 2)]] *)
Definition medianOf (samples : list Z) : option Z :=
  nth_error samples (length samples / 2).

(** The variables of the mode loop.  A key that [frequency] does not hold
    reads as 0, as [frequency[value] || 0] does. *)
Record ModeState := {
  frequency : Z -> Z;
  maxFreq : Z;
  modeSoFar : option Z
}.

(** One round of [for (const value of samples)]. *)
Definition modeStep (s : ModeState) (value : Z) : ModeState :=
  let count := frequency s value + 1 in
  let frequency' := fun key => if key =? value then count
                               else frequency s key in
  if count >? maxFreq s then
    {| frequency := frequency'; maxFreq := count; modeSoFar := Some value |}
  else
    {| frequency := frequency'; maxFreq := maxFreq s;
       modeSoFar := modeSoFar s |}.

Definition modeOf (samples : list Z) : option Z :=
  modeSoFar (fold_left modeStep samples
               {| frequency := fun _ => 0; maxFreq := 0;
                  modeSoFar := nth_error samples 0 |}).

Section Histograms.

Variable M : MathLib.
Variable fuel : nat.

(** The sampling loop of [generateHistogram], with [n] samples left. *)
Fixpoint sampleLoop (config : DistributionConfig) (min max : Z)
  (bucketSize : Q) (bucketCount : Z) (n : nat) (t : Tally) : Gen Tally :=
  match n with
  | O => ret t
  | S n' =>
      value <- generateConstrainedInteger M fuel min max config 1 ;;
      sampleLoop config min max bucketSize bucketCount n'
        (if (min <=? value) && (value <=? max) then
           {| samples := samples t ++ [value];
              tallyBuckets :=
                match bucketIndexOf min bucketSize bucketCount value with
                | Some bucketIndex => incrementAt (tallyBuckets t) bucketIndex
                | None => tallyBuckets t
                end;
              inRange := inRange t + 1;
              outOfRange := outOfRange t |}
         else
           {| samples := samples t ++ [value];
              tallyBuckets := tallyBuckets t;
              inRange := inRange t;
              outOfRange := outOfRange t + 1 |})
  end.

(** [generateHistogram].  The result is [None] where
    [new Array(bucketCount)] raises a RangeError. *)
Definition generateHistogram (config : DistributionConfig) (min max : Z)
  (sampleSize bucketCount : Z) : Gen (option Histogram) :=
  if (bucketCount <? 0) || (4294967295 <? bucketCount) then ret None
  else
    let bucketSize := (inject_Z (max - min) / inject_Z bucketCount)%Q in
    let labels := map (fun i => labelOf min bucketSize (Z.of_nat i))
                      (seq 0 (Z.to_nat bucketCount)) in
    t <- sampleLoop config min max bucketSize bucketCount
           (Z.to_nat sampleSize)
           {| samples := []; tallyBuckets := repeat 0 (Z.to_nat bucketCount);
              inRange := 0; outOfRange := 0 |} ;;
    let sorted := sortNumbers (samples t) in
    ret (Some {| buckets := tallyBuckets t;
                 labels := labels;
                 mean := meanOf sorted;
                 median := medianOf sorted;
                 mode := modeOf sorted;
                 inRangeCount := inRange t;
                 outOfRangeCount := outOfRange t |}).

End Histograms.

End Randomness.

(* ================================================================== *)
(** * distributionPDF.ts                                                *)
(* ================================================================== *)

Module DistributionPDF.

Import Randomness.

Section Density.

Variable M : MathLib.

(** [calculateUniformPDF] *)
Definition calculateUniformPDF (x center spread : Q) : Q :=
  let halfSpread := (spread / 2)%Q in
  let lowerBound := Qmax 0 (center - halfSpread) in
  let upperBound := Qmin 1 (center + halfSpread) in
  if Qle_bool lowerBound x && Qle_bool x upperBound then 1%Q else 0%Q.

(** [calculateNormalPDF] *)
Definition calculateNormalPDF (x center spread : Q) : Q :=
  let sigma := Qmax (spread * (2 # 5)) (1 # 50) in
  let distance := (x - center)%Q in
  let exponent := (- (distance * distance) / (2 * sigma * sigma))%Q in
  let coefficient := (1 / (sigma * sqrt M (2 * PI M)))%Q in
  (coefficient * exp M exponent)%Q.

(** The table of [logGamma]; the keys of the object are 0.5, 1, 1.5, 2,
    2.5 and 3. *)
Definition gammaLookup (x : Q) : option Q :=
  if Qeq_bool x (1 # 2) then Some (5723649429247001 # 10000000000000000)%Q
  else if Qeq_bool x 1 then Some 0%Q
  else if Qeq_bool x (3 # 2)
       then Some (- (1207822376352452 # 10000000000000000))%Q
  else if Qeq_bool x 2 then Some 0%Q
  else if Qeq_bool x (5 # 2) then Some (2846828704729192 # 10000000000000000)%Q
  else if Qeq_bool x 3 then Some (6931471805599453 # 10000000000000000)%Q
  else None.

(** [logGamma] *)
Definition logGamma (x : Q) : Q :=
  if Qle_bool x 0 then 0%Q
  else
    match gammaLookup x with
    | Some v => v
    | None =>
        ((x - (1 # 2)) * log M x - x + (1 # 2) * log M (2 * PI M))%Q
    end.

(** [calculateTDistributionPDF] *)
Definition calculateTDistributionPDF (x center spread : Q)
  (degreesOfFreedom : Z) : Q :=
  let scale := Qmax (spread * (2 # 5)) (1 # 50) in
  let t := ((x - center) / scale)%Q in
  let df := inject_Z degreesOfFreedom in
  let numerator := exp M (logGamma ((df + 1) / 2)) in
  let denominator := (sqrt M (df * PI M) * exp M (logGamma (df / 2)))%Q in
  let base := (1 + (t * t) / df)%Q in
  let power := (- (df + 1) / 2)%Q in
  ((numerator / denominator) * pow M base power / scale)%Q.

(** [calculatePDF] *)
Definition calculatePDF (type : DistributionType) (x center spread : Q)
  (degreesOfFreedom : option Z) : Q :=
  match type with
  | uniform => calculateUniformPDF x center spread
  | bell | z_curve => calculateNormalPDF x center spread
  | t_curve =>
      calculateTDistributionPDF x center spread
                                (dofOrDefault degreesOfFreedom)
  end.

(** The array [data] of [generatePDFCurve] before it is rescaled: the
    heights at [x = i / (pointCount - 1)] for [i = 0 .. pointCount - 1]. *)
Definition rawCurve (config : DistributionConfig) (pointCount : Z) : list Q :=
  map (fun i =>
         let x := (inject_Z (Z.of_nat i) / inject_Z (pointCount - 1))%Q in
         calculatePDF (type config) x (center config) (spread config)
                      (degreesOfFreedom config))
      (seq 0 (Z.to_nat pointCount)).

(** [Math.max(...data, 0.0001)] *)
Definition maxValue (data : list Q) : Q :=
  fold_right Qmax (1 # 10000)%Q data.

(** [generatePDFCurve] *)
Definition generatePDFCurve (config : DistributionConfig) (pointCount : Z)
  : list Q :=
  let data := rawCurve config pointCount in
  map (fun v => (v / maxValue data)%Q) data.

(** The array [data] of [generateDatePDFCurve] before it is rescaled; a
    date is its time value. *)
Definition rawDateCurve (config : DistributionConfig)
  (startTime endTime pointCount : Z) : list (Z * Q) :=
  map (fun i =>
         let x := (inject_Z (Z.of_nat i) / inject_Z (pointCount - 1))%Q in
         let pdf := calculatePDF (type config) x (center config)
                                 (spread config) (degreesOfFreedom config) in
         let time :=
           (inject_Z startTime + x * inject_Z (endTime - startTime))%Q in
         (timeClip time, pdf))
      (seq 0 (Z.to_nat pointCount)).

(** [generateDatePDFCurve] *)
Definition generateDatePDFCurve (config : DistributionConfig)
  (startTime endTime pointCount : Z) : list (Z * Q) :=
  let data := rawDateCurve config startTime endTime pointCount in
  let maxPDF := maxValue (map snd data) in
  map (fun d => (fst d, (snd d / maxPDF)%Q)) data.

End Density.

(** The configurations of the data model that are not degenerate: center
    and spread are fractions of the range, the spread is not zero, and the
    degrees of freedom, when given, are between 1 and 30. *)
Definition nonDegenerate (config : DistributionConfig) : Prop :=
  (0 <= center config)%Q /\ (center config <= 1)%Q
  /\ (0 < spread config)%Q /\ (spread config <= 1)%Q
  /\ match degreesOfFreedom config with
     | Some df => 1 <= df <= 30
     | None => True
     end.

(** [Math.max(...curve)] of a curve that is not empty. *)
Definition curveMax (curve : list Q) : Q :=
  match curve with
  | [] => 0%Q
  | v :: rest => fold_right Qmax v rest
  end.

End DistributionPDF.

(* ================================================================== *)
(** * components/DistributionGraph.svelte                               *)
(* ================================================================== *)

Module DistributionGraph.

Inductive GraphType := integer | date.

(** [const pointCount = graphType === 'integer' ? 101 : 200] of
    [drawGraph]. *)
Definition pointCountFor (graphType : GraphType) : Z :=
  match graphType with
  | integer => 101
  | date => 200
  end.

(** [drawCurve]: the vertices of the path that the function traces on the
    canvas, in order -- the [moveTo], one [lineTo] for each height, and
    the [lineTo] that closes the area.  [width] and [height] are the
    component's canvas size. *)
Definition drawCurve (width height : Q) (data : list Q) : list (Q * Q) :=
  let pointCount := Z.of_nat (length data) in
  let padding := 20%Q in
  let graphHeight := (height - padding * 2)%Q in
  let graphWidth := (width - padding * 2)%Q in
  [(padding, (height - padding)%Q)]
  ++ map (fun id : nat * Q =>
            let (i, v) := id in
            let x :=
              (padding + (inject_Z (Z.of_nat i) / inject_Z (pointCount - 1))
                         * graphWidth)%Q in
            let y := (height - padding - (v * graphHeight))%Q in
            (x, y))
         (combine (seq 0 (length data)) data)
  ++ [((width - padding)%Q, (height - padding)%Q)].

(** The rectangle inside the padding. *)
Definition insidePlot (width height : Q) (pt : Q * Q) : Prop :=
  (20 <= fst pt)%Q /\ (fst pt <= width - 20)%Q
  /\ (20 <= snd pt)%Q /\ (snd pt <= height - 20)%Q.

End DistributionGraph.

(* ================================================================== *)
(** * routes/+page.svelte                                               *)
(* ================================================================== *)

Module Page.

Import JS SearchSettings Randomness DistributionGraph.

(** ** Dragging a graph *)

(** The variables that the three mouse handlers read and write. *)
Record DragState := {
  isDragging : bool;
  dragGraphType : option GraphType;
  lastMouseX : Q;
  lastMouseY : Q;
  integerDistConfig : DistributionConfig;
  dateDistConfig : DistributionConfig
}.

Record MouseEvent := {
  clientX : Q;
  clientY : Q
}.

(** [handleMouseDown] *)
Definition handleMouseDown (e : MouseEvent) (graphType : GraphType)
  (st : DragState) : DragState :=
  {| isDragging := true; dragGraphType := Some graphType;
     lastMouseX := clientX e; lastMouseY := clientY e;
     integerDistConfig := integerDistConfig st;
     dateDistConfig := dateDistConfig st |}.

(** The four assignments to [center] and [spread] in [handleMouseMove]. *)
Definition dragConfig (deltaX deltaY : Q) (config : DistributionConfig)
  : DistributionConfig :=
  {| type := type config;
     center := Qmax 0 (Qmin 1 (center config + deltaX * (1 # 1000)));
     spread := Qmax (1 # 20) (Qmin (1 # 2)
                                   (spread config - deltaY * (1 # 1000)));
     degreesOfFreedom := degreesOfFreedom config |}.

(** [handleMouseMove] *)
Definition handleMouseMove (e : MouseEvent) (st : DragState) : DragState :=
  match isDragging st, dragGraphType st with
  | true, Some graphType =>
      let deltaX := (clientX e - lastMouseX st)%Q in
      let deltaY := (clientY e - lastMouseY st)%Q in
      {| isDragging := isDragging st; dragGraphType := dragGraphType st;
         lastMouseX := clientX e; lastMouseY := clientY e;
         integerDistConfig :=
           match graphType with
           | integer => dragConfig deltaX deltaY (integerDistConfig st)
           | date => integerDistConfig st
           end;
         dateDistConfig :=
           match graphType with
           | integer => dateDistConfig st
           | date => dragConfig deltaX deltaY (dateDistConfig st)
           end |}
  | _, _ => st
  end.

(** [handleMouseUp] *)
Definition handleMouseUp (st : DragState) : DragState :=
  if isDragging st then
    {| isDragging := false; dragGraphType := None;
       lastMouseX := lastMouseX st; lastMouseY := lastMouseY st;
       integerDistConfig := integerDistConfig st;
       dateDistConfig := dateDistConfig st |}
  else st.

Inductive MouseAction :=
| Down (e : MouseEvent) (graphType : GraphType)
| Move (e : MouseEvent)
| Up.

Definition handle (st : DragState) (a : MouseAction) : DragState :=
  match a with
  | Down e graphType => handleMouseDown e graphType st
  | Move e => handleMouseMove e st
  | Up => handleMouseUp st
  end.

(** The state after a sequence of mouse events. *)
Definition handleAll (actions : list MouseAction) (st : DragState)
  : DragState :=
  fold_left handle actions st.

(** The bounds that dragging keeps: center in [0, 1], spread in
    [0.05, 0.5]. *)
Definition withinDragBounds (config : DistributionConfig) : Prop :=
  (0 <= center config)%Q /\ (center config <= 1)%Q
  /\ (1 # 20 <= spread config)%Q /\ (spread config <= 1 # 2)%Q.

(** The state in which the page starts. *)
Definition initialDragState : DragState :=
  {| isDragging := false; dragGraphType := None;
     lastMouseX := 0; lastMouseY := 0;
     integerDistConfig :=
       {| type := bell; center := 1 # 2; spread := 1 # 4;
          degreesOfFreedom := Some 5 |};
     dateDistConfig :=
       {| type := bell; center := 1 # 2; spread := 1 # 5;
          degreesOfFreedom := Some 5 |} |}.

(** ** Picking a search term *)

(** [arr[Math.floor(Math.random() * arr.length)]]; [None] stands for
    [undefined]. *)
Definition randomElement {A} (arr : list A) (r : Random.source)
  : option A * Random.source :=
  let (u, r') := Random.random r in
  let i := Qfloor (u * inject_Z (Z.of_nat (length arr))) in
  (if i <? 0 then None else nth_error arr (Z.to_nat i), r').

(** [selectedNames.has(key)] for the set of selected display keys. *)
Definition has (selectedNames : list jsstring) (key : jsstring) : bool :=
  existsb (eqb key) selectedNames.

(** [`${name}|||${spec}`] *)
Definition displayKey (name spec : jsstring) : jsstring :=
  name ++ str "|||" ++ spec.

Inductive Selection :=
| NoTerm                                               (* [null] *)
| Term (pattern : SearchPattern) (specifier : option jsstring)
| Raised.                       (* a property read on [undefined] *)

(** [getRandomActiveSearchTerm] *)
Definition getRandomActiveSearchTerm (activeSearchTerms : list SearchPattern)
  (selectedNames : list jsstring) (r : Random.source)
  : Selection * Random.source :=
  match activeSearchTerms with
  | [] => (NoTerm, r)
  | _ =>
      match randomElement activeSearchTerms r with
      | (None, r1) => (Raised, r1)
      | (Some randomPattern, r1) =>
          let validSpecifiers :=
            filter (fun spec =>
                      has selectedNames
                          (displayKey (name randomPattern) spec))
                   (specifiers randomPattern) in
          match validSpecifiers with
          | [] => (Term randomPattern (nth_error (specifiers randomPattern) 0),
                   r1)
          | _ =>
              let (randomSpecifier, r2) := randomElement validSpecifiers r1 in
              (Term randomPattern randomSpecifier, r2)
          end
      end
  end.

(** ** The sample preview of the integer graph *)

(** The range that the preview gives to a digit count:
    [min = digitCount === 1 ? 0 : Math.pow(10, digitCount - 1)],
    [max = Math.pow(10, digitCount) - 1]. *)
Definition previewRange (digitCount : Z) : Z * Z :=
  ((if digitCount =? 1 then 0 else 10 ^ (digitCount - 1)),
   10 ^ digitCount - 1).

(** One sample of the preview; [maxAttempts] takes its default, 100. *)
Definition previewSample (M : MathLib) (fuel : nat) (digitCount : Z)
  (integerDistConfig : DistributionConfig) : Gen Z :=
  let (min, max) := previewRange digitCount in
  generateConstrainedInteger M fuel min max integerDistConfig 100.

(** ** The "Find Videos" button *)

(** An entry of [searchHistory]. *)
Module HistoryEntry.

Record t := {
  name : jsstring;
  specifier : jsstring;
  url : jsstring;
  timestamp : Date;
  dateModifier : option jsstring
}.

End HistoryEntry.

(** What a click does. *)
Inductive Clicked :=
| Alerted                       (* no active term: the alert, no new tab *)
| Opened (formattedURL : jsstring) (searchHistory : list HistoryEntry.t)
| Threw.                        (* a property read on [undefined] *)

Section FindVideos.

(** [new Date(customDate)], [randomSpecDay] and the clock read by
    [new Date()] stay outside the model: the handler is embedded for every
    choice of them.  [randomSpecDay] may draw from the random source. *)
Variable parseDate : jsstring -> Date.
Variable randomSpecDay : SearchPattern -> Random.source -> Date * Random.source.
Variable now : Date.

(** [if (enableDateOverride && customDate) ... else ...]: the date that
    the handler passes on. *)
Definition pickDate (enableDateOverride : bool) (customDate : jsstring)
  (pattern : SearchPattern) (r : Random.source) : Date * Random.source :=
  if enableDateOverride && negb (eqb customDate []) then
    (parseDate customDate, r)
  else randomSpecDay pattern r.

(** [`${dateFilterType}:${year}${month}${day}`] *)
Definition dateModifierOf (dateFilterType : jsstring) (formattedDate : Date)
  : jsstring :=
  dateFilterType ++ [58] ++ toString (getFullYear formattedDate)
  ++ two (getMonth formattedDate + 1) ++ two (getDate formattedDate).

(** [handleFindVideos].  A specifier that is [undefined] (a pattern
    without specifiers) is treated by [formatSearchTermToURL] and
    [fillSpecifierTemplate] as the empty string is.  The fifth argument of
    the call of [formatSearchTermToURL], [integerConfig], has no parameter
    to receive it. *)
Definition handleFindVideos (activeSearchTerms : list SearchPattern)
  (selectedNames : list jsstring) (enableDateOverride : bool)
  (customDate dateFilterType : jsstring)
  (searchHistory : list HistoryEntry.t) (r : Random.source)
  : Clicked * Random.source :=
  match getRandomActiveSearchTerm activeSearchTerms selectedNames r with
  | (NoTerm, r1) => (Alerted, r1)
  | (Raised, r1) => (Threw, r1)
  | (Term pattern resultSpecifier, r1) =>
      let (formattedDate, r2) :=
        pickDate enableDateOverride customDate pattern r1 in
      let specifier :=
        match resultSpecifier with Some s => s | None => [] end in
      let (formattedURL, r3) :=
        formatSearchTermToURL pattern specifier formattedDate
                              enableDateOverride r2 in
      let (filledSpecifier, r4) :=
        fillSpecifierTemplate specifier pattern formattedDate r3 in
      let dateModifier :=
        if enableDateOverride
        then Some (dateModifierOf dateFilterType formattedDate)
        else None in
      (Opened formattedURL
              ({| HistoryEntry.name := name pattern;
                  HistoryEntry.specifier := filledSpecifier;
                  HistoryEntry.url := formattedURL;
                  HistoryEntry.timestamp := now;
                  HistoryEntry.dateModifier := dateModifier |}
               :: searchHistory),
       r4)
  end.

End FindVideos.

End Page.

(* ================================================================== *)
(** * Facts about the string primitives                                 *)
(* ================================================================== *)

Module JSFacts.

Import JS.

Lemma code_eqb_refl c : code_eqb c c = true.
Proof. apply Z.eqb_refl. Qed.

Lemma startsWith_refl s : startsWith s s = true.
Proof.
  induction s as [|c s IH]; simpl; [reflexivity|].
  now rewrite code_eqb_refl.
Qed.

Lemma skipn_whole (s : jsstring) : skipn (length s) s = [].
Proof. induction s; simpl; auto. Qed.

(** Replacing a text that is the whole string gives the replacement. *)
Lemma replaceFirst_whole pat rep :
  pat <> [] -> replaceFirst pat rep pat = rep.
Proof.
  intros Hne. destruct pat as [|c pat]; [congruence|].
  unfold replaceFirst. fold replaceFirst.
  rewrite startsWith_refl, skipn_whole. apply app_nil_r.
Qed.

(** ** [split] *)

Lemma split_from_length sep cur s :
  length (split_from sep cur s) = S (count_occ Z.eq_dec s sep).
Proof.
  revert cur. induction s as [|c s IH]; intros cur; simpl; [reflexivity|].
  unfold code_eqb. destruct (Z.eqb_spec c sep) as [->|Hne].
  - destruct (Z.eq_dec sep sep); [|congruence]. simpl. now rewrite IH.
  - destruct (Z.eq_dec c sep); [congruence|]. apply IH.
Qed.

Lemma split_length sep s :
  length (split sep s) = S (count_occ Z.eq_dec s sep).
Proof. apply split_from_length. Qed.

Lemma split_from_no_sep sep cur s part :
  ~ In sep cur -> In part (split_from sep cur s) -> ~ In sep part.
Proof.
  revert cur. induction s as [|c s IH]; intros cur Hcur; simpl.
  - intros [<-|[]]. now rewrite <- in_rev.
  - unfold code_eqb. destruct (Z.eqb_spec c sep) as [->|Hne].
    + intros [<-|Hin]; [now rewrite <- in_rev|].
      eapply IH; [|exact Hin]. intros [].
    + apply IH. intros [Heq|Hin]; [congruence|auto].
Qed.

(** No part of a split holds the separator. *)
Lemma split_no_sep sep s part : In part (split sep s) -> ~ In sep part.
Proof. apply split_from_no_sep. intros []. Qed.

(** ** [parseInt] *)

Lemma isDigit_range c : isDigit c = true -> 48 <= c <= 57.
Proof. unfold isDigit. lia. Qed.

Lemma readDigits_nonneg s : forall acc seen z,
  0 <= acc -> readDigits acc seen s = Some z -> 0 <= z.
Proof.
  induction s as [|c s IH]; intros acc seen z Hacc; cbn [readDigits].
  - destruct seen; [intros [= <-]; exact Hacc|discriminate].
  - destruct (isDigit c) eqn:Hd.
    + apply IH. apply isDigit_range in Hd. lia.
    + destruct seen; [intros [= <-]; exact Hacc|discriminate].
Qed.

Lemma trimStart_suffix s : exists ws, s = ws ++ trimStart s.
Proof.
  induction s as [|c s [ws IH]]; simpl.
  - exists []. reflexivity.
  - destruct (isStrWhiteSpace c).
    + exists (c :: ws). simpl. now rewrite <- IH.
    + exists []. reflexivity.
Qed.

(** A text without a minus sign never reads as a negative number. *)
Lemma parseInt_nonneg s z :
  ~ In 45 s -> parseInt s = Some z -> 0 <= z.
Proof.
  intros Hno. unfold parseInt.
  destruct (trimStart_suffix s) as [ws Hs].
  destruct (trimStart s) as [|c t]; [discriminate|].
  destruct (Z.eqb_spec c 45) as [->|Hc].
  - exfalso. apply Hno. rewrite Hs. apply in_or_app. right. now left.
  - destruct (c =? 43); apply readDigits_nonneg; lia.
Qed.

Lemma parseInt_negative_has_minus s z :
  parseInt s = Some z -> z < 0 -> In 45 s.
Proof.
  intros Hp Hz. destruct (in_dec Z.eq_dec 45 s) as [Hin|Hno]; [exact Hin|].
  pose proof (parseInt_nonneg s z Hno Hp). lia.
Qed.

(** ** Decimal digits *)

Lemma digitChar_decimal d : 0 <= d < 10 -> isDigit (digitChar d) = true.
Proof. unfold isDigit, digitChar. intros H. destruct (d <? 10) eqn:E; lia. Qed.

Lemma digits_fuel_decimal fuel : forall v k,
  0 <= v < 10 ^ Z.of_nat k -> v < 2 ^ Z.of_nat fuel -> (1 <= k)%nat ->
  (length (digits_fuel 10 fuel v) <= k)%nat
  /\ forallb isDigit (digits_fuel 10 fuel v) = true.
Proof.
  induction fuel as [|f IH]; intros v k Hv Hf Hk.
  - simpl. split; [lia|reflexivity].
  - cbn [digits_fuel]. destruct (Z.ltb_spec v 10) as [Hlt|Hge].
    + simpl. split; [lia|]. rewrite digitChar_decimal by lia. reflexivity.
    + destruct k as [|[|k]]; [lia| |].
      * change (10 ^ Z.of_nat 1) with 10 in Hv. lia.
      * assert (Hv' : 0 <= v / 10 < 10 ^ Z.of_nat (S k)).
        { split; [apply Z.div_pos; lia|].
          apply Z.div_lt_upper_bound; [lia|].
          replace (Z.of_nat (S (S k))) with (Z.succ (Z.of_nat (S k))) in Hv
            by lia.
          rewrite Z.pow_succ_r in Hv by lia. lia. }
        assert (Hf' : v / 10 < 2 ^ Z.of_nat f).
        { apply Z.div_lt_upper_bound; [lia|].
          replace (Z.of_nat (S f)) with (Z.succ (Z.of_nat f)) in Hf by lia.
          rewrite Z.pow_succ_r in Hf by lia.
          assert (0 < 2 ^ Z.of_nat f) by (apply Z.pow_pos_nonneg; lia). lia. }
        destruct (IH (v / 10) (S k) Hv' Hf' ltac:(lia)) as [Hlen Hdig].
        split.
        -- rewrite length_app. simpl. lia.
        -- rewrite forallb_app, Hdig. simpl.
           rewrite digitChar_decimal; [reflexivity|].
           apply Z.mod_pos_bound. lia.
Qed.

Lemma digits_decimal v k :
  0 <= v < 10 ^ Z.of_nat k -> (1 <= k)%nat ->
  (length (digits 10 v) <= k)%nat /\ forallb isDigit (digits 10 v) = true.
Proof.
  intros Hv Hk. unfold digits. apply digits_fuel_decimal; auto.
  destruct (Z.eq_dec v 0) as [->|Hnz].
  - apply Z.pow_pos_nonneg; lia.
  - replace (Z.of_nat (S (Z.to_nat (Z.log2 v)))) with (Z.succ (Z.log2 v)).
    + apply Z.log2_spec. lia.
    + pose proof (Z.log2_nonneg v). lia.
Qed.

Lemma forallb_repeat {A} (f : A -> bool) a n :
  f a = true -> forallb f (repeat a n) = true.
Proof. intros Ha. induction n; simpl; [reflexivity|]. now rewrite Ha. Qed.

(** A number below [10^k], printed and padded to [k] places, is exactly
    [k] decimal digits. *)
Lemma padded_decimal v k :
  0 <= v < 10 ^ Z.of_nat k -> (1 <= k)%nat ->
  length (padStart (toString v) k 48) = k
  /\ forallb isDigit (padStart (toString v) k 48) = true.
Proof.
  intros Hv Hk. unfold padStart, toString.
  destruct (Z.ltb_spec v 0); [lia|].
  destruct (digits_decimal v k Hv Hk) as [Hlen Hdig].
  split.
  - rewrite length_app, repeat_length. lia.
  - rewrite forallb_app, Hdig, forallb_repeat; reflexivity.
Qed.

(** ** Form encoding *)

Lemma toScalars_app_len n : forall s t,
  (length s <= n)%nat -> headNotLowSurrogate t ->
  toScalars (s ++ t) = toScalars s ++ toScalars t.
Proof.
  induction n as [|n IH]; intros s t Hlen Ht.
  - destruct s; [reflexivity|simpl in Hlen; lia].
  - destruct s as [|c s]; [reflexivity|].
    simpl in Hlen. cbn [app toScalars].
    destruct (isHighSurrogate c) eqn:Hh.
    + destruct s as [|d s].
      * cbn [app]. destruct t as [|e t]; [reflexivity|].
        simpl in Ht. rewrite Ht. reflexivity.
      * cbn [app]. destruct (isLowSurrogate d) eqn:Hl.
        -- rewrite IH; [reflexivity| simpl in Hlen; lia | exact Ht].
        -- change (d :: s ++ t) with ((d :: s) ++ t).
           rewrite IH; [reflexivity| lia | exact Ht].
    + destruct (isLowSurrogate c);
        (rewrite IH; [reflexivity| lia | exact Ht]).
Qed.

Lemma toScalars_app s t :
  headNotLowSurrogate t -> toScalars (s ++ t) = toScalars s ++ toScalars t.
Proof. apply (toScalars_app_len (length s)). lia. Qed.

(** Encoding distributes over a suffix that does not start in the middle
    of a surrogate pair. *)
Lemma formEncode_app s t :
  headNotLowSurrogate t -> formEncode (s ++ t) = formEncode s ++ formEncode t.
Proof.
  intros Ht. unfold formEncode.
  now rewrite toScalars_app, !flat_map_app.
Qed.

End JSFacts.

(* ================================================================== *)
(** * Facts about rounding                                              *)
(* ================================================================== *)

Module NumFacts.

(** [Math.floor(u * n)] for [u] in [0, 1) is one of [0 .. n - 1]. *)
Lemma floor_scaled (u : Q) (n : Z) :
  (0 <= u)%Q -> (u < 1)%Q -> 1 <= n ->
  0 <= Qfloor (u * inject_Z n) < n.
Proof.
  intros H0 H1 Hn.
  assert (Hn' : (0 < inject_Z n)%Q).
  { change 0%Q with (inject_Z 0). rewrite <- Zlt_Qlt. lia. }
  split.
  - change 0 with (Qfloor 0). apply Qfloor_resp_le.
    apply Qmult_le_0_compat; [exact H0|]. now apply Qlt_le_weak.
  - rewrite Zlt_Qlt.
    apply Qle_lt_trans with (u * inject_Z n)%Q; [apply Qfloor_le|].
    rewrite <- (Qmult_1_l (inject_Z n)) at 2.
    apply Qmult_lt_compat_r; assumption.
Qed.

Lemma floor_between (x : Q) (a b : Z) :
  (inject_Z a <= x)%Q -> (x <= inject_Z b)%Q -> a <= Qfloor x <= b.
Proof.
  intros Ha Hb. split.
  - rewrite <- (Qfloor_Z a). now apply Qfloor_resp_le.
  - rewrite <- (Qfloor_Z b). now apply Qfloor_resp_le.
Qed.

Lemma ceiling_between (x : Q) (a b : Z) :
  (inject_Z a <= x)%Q -> (x <= inject_Z b)%Q -> a <= Qceiling x <= b.
Proof.
  intros Ha Hb. split.
  - rewrite <- (Qceiling_Z a). now apply Qceiling_resp_le.
  - rewrite <- (Qceiling_Z b). now apply Qceiling_resp_le.
Qed.

End NumFacts.

(* ================================================================== *)
(** * Properties of search-settings.ts                                  *)
(* ================================================================== *)

Module SearchSettingsFacts.

Import JS JSFacts SearchSettings.

(** ** Range constraints *)

Lemma parseRangeConstraint_parts value min max :
  parseRangeConstraint value = Some (min, max) ->
  exists p0 p1,
    split 45 value = [p0; p1] /\ parseInt p0 = Some min
    /\ parseInt p1 = Some max.
Proof.
  unfold parseRangeConstraint.
  destruct (split 45 value) as [|p0 [|p1 [|p2 rest]]] eqn:Hs; try discriminate.
  destruct (parseInt p0) as [a|] eqn:H0; [|discriminate].
  destruct (parseInt p1) as [b|] eqn:H1; [|discriminate].
  intros [= <- <-]. now exists p0, p1.
Qed.

(** A parsed range has no negative bound. *)
Lemma parseRangeConstraint_nonneg value min max :
  parseRangeConstraint value = Some (min, max) -> 0 <= min /\ 0 <= max.
Proof.
  intros H. destruct (parseRangeConstraint_parts _ _ _ H)
    as (p0 & p1 & Hs & H0 & H1).
  assert (Hin0 : In p0 (split 45 value)) by (rewrite Hs; now left).
  assert (Hin1 : In p1 (split 45 value)) by (rewrite Hs; right; now left).
  split.
  - eapply parseInt_nonneg; [eapply split_no_sep; exact Hin0|exact H0].
  - eapply parseInt_nonneg; [eapply split_no_sep; exact Hin1|exact H1].
Qed.

(** A value with two or more minus signs is not a range. *)
Lemma parseRangeConstraint_two_minus value :
  (2 <= count_occ Z.eq_dec value 45%Z)%nat ->
  parseRangeConstraint value = None.
Proof.
  intros Hc. unfold parseRangeConstraint.
  pose proof (split_length 45 value) as Hl.
  destruct (split 45 value) as [|p0 [|p1 [|p2 rest]]]; simpl in Hl;
    try reflexivity; lia.
Qed.

Lemma applyConstraint_malformed acc c :
  parseRangeConstraint (cvalue c) = None -> applyConstraint acc c = acc.
Proof.
  intros H. unfold applyConstraint. rewrite H.
  destruct (eqb (ctype c) (str "range")); [reflexivity|].
  destruct (eqb (ctype c) (str "letter-range")); [reflexivity|].
  destruct (eqb (ctype c) (str "hex-range")); reflexivity.
Qed.

Lemma applyConstraint_nonneg acc c :
  0 <= fst (fst acc) /\ 0 <= snd (fst acc) ->
  0 <= fst (fst (applyConstraint acc c))
  /\ 0 <= snd (fst (applyConstraint acc c)).
Proof.
  intros Hacc. unfold applyConstraint.
  destruct (parseRangeConstraint (cvalue c)) as [[mn mx]|] eqn:Hp.
  - apply parseRangeConstraint_nonneg in Hp.
    destruct (eqb (ctype c) (str "range")); [exact Hp|].
    destruct (eqb (ctype c) (str "letter-range")); [exact Hp|].
    destruct (eqb (ctype c) (str "hex-range")); [exact Hp|exact Hacc].
  - destruct (eqb (ctype c) (str "range")); [exact Hacc|].
    destruct (eqb (ctype c) (str "letter-range")); [exact Hacc|].
    destruct (eqb (ctype c) (str "hex-range")); exact Hacc.
Qed.

Lemma fold_applyConstraint_nonneg cs : forall acc,
  0 <= fst (fst acc) /\ 0 <= snd (fst acc) ->
  0 <= fst (fst (fold_left applyConstraint cs acc))
  /\ 0 <= snd (fst (fold_left applyConstraint cs acc)).
Proof.
  induction cs as [|c cs IH]; intros acc Hacc; simpl; [exact Hacc|].
  apply IH. now apply applyConstraint_nonneg.
Qed.

Lemma resolveConstraints_nonneg xCount cs :
  0 <= fst (fst (resolveConstraints xCount cs))
  /\ 0 <= snd (fst (resolveConstraints xCount cs)).
Proof.
  apply fold_applyConstraint_nonneg. simpl.
  assert (0 < 10 ^ Z.of_nat xCount) by (apply Z.pow_pos_nonneg; lia). lia.
Qed.

Lemma resolveConstraints_app xCount cs1 cs2 :
  resolveConstraints xCount (cs1 ++ cs2)
  = fold_left applyConstraint cs2 (resolveConstraints xCount cs1).
Proof. unfold resolveConstraints. apply fold_left_app. Qed.

Lemma resolveConstraints_skip xCount cs1 c cs2 :
  parseRangeConstraint (cvalue c) = None ->
  resolveConstraints xCount (cs1 ++ c :: cs2)
  = resolveConstraints xCount (cs1 ++ cs2).
Proof.
  intros H. rewrite !resolveConstraints_app. simpl.
  now rewrite applyConstraint_malformed.
Qed.

Lemma fold_applyConstraint_malformed cs : forall acc,
  Forall (fun c => parseRangeConstraint (cvalue c) = None) cs ->
  fold_left applyConstraint cs acc = acc.
Proof.
  induction cs as [|c cs IH]; intros acc Hall; simpl; [reflexivity|].
  inversion Hall as [|? ? Hc Hcs]; subst.
  rewrite applyConstraint_malformed by exact Hc. now apply IH.
Qed.

Lemma resolveConstraints_all_malformed xCount cs :
  Forall (fun c => parseRangeConstraint (cvalue c) = None) cs ->
  resolveConstraints xCount cs = (0, 10 ^ Z.of_nat xCount - 1, number).
Proof. apply fold_applyConstraint_malformed. Qed.

(** The filling reads a pattern only through the ranges its constraints
    resolve to. *)
Lemma fillRun_ext cs cs' :
  (forall n, resolveConstraints n cs = resolveConstraints n cs') ->
  forall st xGroup, fillRun cs st xGroup = fillRun cs' st xGroup.
Proof.
  intros H [result r] xGroup. unfold fillRun. now rewrite H.
Qed.

Lemma fold_fillRun_ext cs cs' runs :
  (forall n, resolveConstraints n cs = resolveConstraints n cs') ->
  forall st, fold_left (fillRun cs) runs st = fold_left (fillRun cs') runs st.
Proof.
  intros H. induction runs as [|g runs IH]; intros st; simpl; [reflexivity|].
  rewrite (fillRun_ext cs cs' H). apply IH.
Qed.

Lemma fillSpecifierTemplate_ext specifier p p' d r :
  (forall n, resolveConstraints n (constraints p)
             = resolveConstraints n (constraints p')) ->
  fillSpecifierTemplate specifier p d r
  = fillSpecifierTemplate specifier p' d r.
Proof.
  intros H. unfold fillSpecifierTemplate.
  destruct specifier as [|c s]; [reflexivity|].
  destruct (includes [88] _); [|reflexivity].
  now apply fold_fillRun_ext.
Qed.

(** ** Random integers *)

Lemma getRandomInt_range min max r :
  Random.unit_interval r -> min <= max ->
  min <= fst (getRandomInt min max r) <= max.
Proof.
  intros Hr Hm. unfold getRandomInt, Random.random. cbn [fst].
  destruct (Hr 0%nat) as [H0 H1].
  pose proof (NumFacts.floor_scaled (r 0%nat) (max - min + 1) H0 H1
                ltac:(lia)).
  lia.
Qed.

Lemma constant_unit_interval u :
  (0 <= u)%Q -> (u < 1)%Q -> Random.unit_interval (Random.constant u).
Proof. intros H0 H1 n. now split. Qed.

(** ** Date and time tokens *)

(** The tokens are processed in the order YYYY, Month, Mon, MM, DD, HH,
    mm, SS. *)
Lemma dateTokens_order d : map fst (dateTokens d) = dateTokenNames.
Proof. reflexivity. Qed.

(** A text without any token comes back unchanged. *)
Lemma fillDateTokens_plain d s :
  forallb (fun tok => negb (includes tok s)) dateTokenNames = true ->
  fillDateTokens d s = s.
Proof.
  intros H. cbn [forallb dateTokenNames map] in H.
  repeat (apply andb_prop in H; destruct H as [?H H]).
  unfold fillDateTokens, dateTokens, substitute. cbn [fold_left fst snd].
  repeat match goal with
         | Hi : negb (includes ?t s) = true |- _ =>
             apply negb_true_iff in Hi; rewrite Hi; clear Hi
         end.
  reflexivity.
Qed.

Lemma fill_XX p d r :
  fillSpecifierTemplate (str "XX") p d r
  = fillRun (constraints p) (str "XX", r) (str "XX").
Proof.
  unfold fillSpecifierTemplate. change (str "XX") with [88; 88].
  rewrite fillDateTokens_plain by reflexivity. reflexivity.
Qed.

Lemma fill_XXXX p d r :
  fillSpecifierTemplate (str "XXXX") p d r
  = fillRun (constraints p) (str "XXXX", r) (str "XXXX").
Proof.
  unfold fillSpecifierTemplate. change (str "XXXX") with [88; 88; 88; 88].
  rewrite fillDateTokens_plain by reflexivity. reflexivity.
Qed.

(** ** The year in the filled term *)

Lemma yearAt_digits prevWord s y :
  yearAt prevWord s = Some y ->
  length y = 4%nat /\ forallb isDigit y = true
  /\ exists post, s = y ++ post.
Proof.
  unfold yearAt.
  destruct s as [|d1 [|d2 [|d3 [|d4 rest]]]]; try discriminate.
  destruct (wordBoundary prevWord _); [|discriminate]. cbn [andb].
  destruct (isDigit d1) eqn:H1; [|discriminate].
  destruct (isDigit d2) eqn:H2; [|discriminate].
  destruct (isDigit d3) eqn:H3; [|discriminate].
  destruct (isDigit d4) eqn:H4; [|discriminate]. cbn [andb].
  destruct (wordBoundary _ rest); [|discriminate].
  intros [= <-]. split; [reflexivity|]. split.
  - cbn [forallb]. now rewrite H1, H2, H3, H4.
  - now exists rest.
Qed.

Lemma matchYear_from_digits s : forall prevWord y,
  matchYear_from prevWord s = Some y ->
  length y = 4%nat /\ forallb isDigit y = true
  /\ exists pre post, s = pre ++ y ++ post.
Proof.
  induction s as [|c s IH]; intros prevWord y; cbn [matchYear_from].
  - destruct (yearAt prevWord []) eqn:Hy; [|discriminate].
    intros [= <-]. destruct (yearAt_digits _ _ _ Hy) as (Hl & Hd & post & E).
    repeat split; auto. now exists [], post.
  - destruct (yearAt prevWord (c :: s)) eqn:Hy.
    + intros [= <-].
      destruct (yearAt_digits _ _ _ Hy) as (Hl & Hd & post & E).
      repeat split; auto. now exists [], post.
    + intros H. destruct (IH _ _ H) as (Hl & Hd & pre & post & E).
      repeat split; auto. exists (c :: pre), post. simpl. now rewrite <- E.
Qed.

(** ** The date filter *)

Lemma determineDateFilter_override specifier p d searchTerm :
  determineDateFilter specifier p d searchTerm true = beforeFilter d.
Proof. reflexivity. Qed.

Lemma determineDateFilter_old specifier p d searchTerm :
  includes (str "YYYY") specifier = false -> age p = Some (str "old") ->
  determineDateFilter specifier p d searchTerm false = beforeFilter d.
Proof.
  intros Hy Ha. unfold determineDateFilter, age_is. rewrite Hy, Ha.
  reflexivity.
Qed.

Lemma determineDateFilter_year specifier p d searchTerm year :
  includes (str "YYYY") specifier = true ->
  matchYear searchTerm = Some year ->
  determineDateFilter specifier p d searchTerm false
  = str "after:" ++ year ++ [45] ++ toString (getMonth d + 1) ++ [45]
    ++ toString (getDate d).
Proof.
  intros Hy Hm. unfold determineDateFilter. now rewrite Hy, Hm.
Qed.

(** ** The URL *)

Lemma formatSearchTermToURL_shape p specifier d dateOverride r :
  let term := fst (generateSearchTerm (name p) specifier p d r) in
  let filter :=
    determineDateFilter specifier p d (quoted term) dateOverride in
  fst (formatSearchTermToURL p specifier d dateOverride r)
  = urlPrefix
    ++ formEncode match filter with
                  | [] => quoted term
                  | _ => quoted term ++ [32] ++ filter
                  end
    ++ str "&sp=CAISAhAB".
Proof.
  unfold formatSearchTermToURL.
  destruct (generateSearchTerm (name p) specifier p d r) as [term r'].
  cbn [fst]. cbv zeta.
  change (formEncode (str "CAISAhAB")) with (str "CAISAhAB").
  unfold urlPrefix.
  change (str "https://www.youtube.com/results?search_query=")
    with (str "https://www.youtube.com/results?" ++ str "search_query=").
  change (str "&sp=CAISAhAB") with (str "&sp=" ++ str "CAISAhAB").
  now rewrite <- !app_assoc.
Qed.

Lemma formEncode_with_filter term filter :
  headNotLowSurrogate filter ->
  formEncode (quoted term ++ [32] ++ filter)
  = formEncode (quoted term) ++ [43] ++ formEncode filter.
Proof.
  intros H.
  rewrite formEncode_app by reflexivity.
  change ([32] ++ filter) with ([32] ++ filter).
  rewrite (formEncode_app [32] filter H). reflexivity.
Qed.

(** ** C2: the date filter of an 'old' pattern *)

(** C2, as the code has it.  For a pattern with age "old", the specifier
    "XXXX", no date override and the reference date 2024-03-15, the URL is
    the fixed prefix, the form-encoded quoted term, and the form-encoded
    filter [before:2024-03-15] -- month and day padded to two places, the
    colon percent-encoded, the separating space a plus sign.  Without
    constraints the filled part of the term is exactly four decimal
    digits after the pattern's name. *)
Theorem old_pattern_before_filter (p : SearchPattern) (d : Date)
  (r : Random.source) :
  age p = Some (str "old") ->
  getFullYear d = 2024 -> getMonth d = 2 -> getDate d = 15 ->
  let term := fst (generateSearchTerm (name p) (str "XXXX") p d r) in
  fst (formatSearchTermToURL p (str "XXXX") d false r)
  = urlPrefix ++ formEncode (quoted term)
    ++ str "+before%3A2024-03-15&sp=CAISAhAB"
  /\ (constraints p = [] -> Random.unit_interval r ->
      exists filled,
        term = name p ++ filled /\ length filled = 4%nat
        /\ forallb isDigit filled = true).
Proof.
  intros Hage Hy Hm Hd term. split.
  - rewrite formatSearchTermToURL_shape. fold term.
    rewrite determineDateFilter_old by (reflexivity || exact Hage).
    unfold beforeFilter. rewrite Hy, Hm, Hd.
    change (str "before:" ++ toString 2024 ++ [45] ++ two (2 + 1) ++ [45]
            ++ two 15) with (str "before:2024-03-15").
    change (str "before:2024-03-15") with (98 :: str "efore:2024-03-15").
    cbv iota.
    change (98 :: str "efore:2024-03-15") with (str "before:2024-03-15").
    rewrite formEncode_with_filter by reflexivity.
    change (formEncode (str "before:2024-03-15"))
      with (str "before%3A2024-03-15").
    rewrite <- !app_assoc. reflexivity.
  - intros Hcs Hr. subst term. unfold generateSearchTerm.
    change (str "XXXX") with [88; 88; 88; 88] at 1. cbv iota.
    rewrite fill_XXXX, Hcs. unfold fillRun.
    change (length (str "XXXX")) with 4%nat.
    change (resolveConstraints 4 []) with (0, 9999, number).
    cbv beta iota zeta.
    pose proof (getRandomInt_range 0 9999 r Hr ltac:(lia)) as Hv.
    destruct (getRandomInt 0 9999 r) as [v r']. cbn [fst] in Hv.
    cbn [render]. rewrite replaceFirst_whole by discriminate.
    destruct (padded_decimal v 4 ltac:(simpl; lia) ltac:(lia)) as [Hlen Hdig].
    destruct (padStart (toString v) 4 48) as [|c0 rest] eqn:E;
      [simpl in Hlen; lia|].
    cbn [fst]. exists (c0 :: rest). auto.
Qed.

Lemma old_pattern_before_filter_witness :
  fst (formatSearchTermToURL (mkPattern (str "IMG ") (Some (str "old")) [])
         (str "XXXX") (mkDate 2024 3 15) false (Random.constant (1 # 2)))
  = str "https://www.youtube.com/results?search_query=%22IMG+5000%22+before%3A2024-03-15&sp=CAISAhAB".
Proof.
  pose proof (old_pattern_before_filter
                (mkPattern (str "IMG ") (Some (str "old")) [])
                (mkDate 2024 3 15) (Random.constant (1 # 2))
                eq_refl eq_refl eq_refl eq_refl) as [H _].
  rewrite H. vm_compute. reflexivity.
Defined.

(** C2, as stated, fails: at a pattern with age "old" and an empty name,
    with [Math.random()] returning 0.5, the URL holds neither
    [before:2024-3-15] nor its encoded form; the month is padded. *)
Lemma old_pattern_unpadded_counterexample :
  let url :=
    fst (formatSearchTermToURL (mkPattern [] (Some (str "old")) [])
           (str "XXXX") (mkDate 2024 3 15) false (Random.constant (1 # 2))) in
  url = str "https://www.youtube.com/results?search_query=%225000%22+before%3A2024-03-15&sp=CAISAhAB"
  /\ includes (str "before:2024-3-15") url = false
  /\ includes (str "before%3A2024-3-15") url = false.
Proof. vm_compute. repeat split. Qed.

(** ** C3: a letter range on the template "XX" *)

Lemma applyConstraint_letter_65_90 acc :
  applyConstraint acc (letterRangeOf "65-90") = (65, 90, letter).
Proof. reflexivity. Qed.

(** C3, as the code has it.  For the template "XX" under a pattern whose
    constraints contain the letter range "65-90", followed by nothing but
    constraints that are ignored, the substituted text is two characters:
    the pad character "0" followed by one upper-case letter.  The code
    draws one character code for the whole run and pads it with "0" to
    the length of the run. *)
Theorem letter_range_fill_is_padded_letter (cs cs' : list Constraint)
  (p : SearchPattern) (d : Date) (r : Random.source) :
  Random.unit_interval r ->
  constraints p = cs ++ letterRangeOf "65-90" :: cs' ->
  Forall (fun c' => parseRangeConstraint (cvalue c') = None) cs' ->
  exists c,
    fst (fillSpecifierTemplate (str "XX") p d r) = [48; c]
    /\ isUpperLetter c = true.
Proof.
  intros Hr Hcs Hcs'. rewrite fill_XX, Hcs. unfold fillRun.
  change (length (str "XX")) with 2%nat.
  rewrite resolveConstraints_app. cbn [fold_left].
  rewrite applyConstraint_letter_65_90.
  rewrite fold_applyConstraint_malformed by exact Hcs'.
  cbv beta iota zeta.
  pose proof (getRandomInt_range 65 90 r Hr ltac:(lia)) as Hv.
  destruct (getRandomInt 65 90 r) as [v r']. cbn [fst] in Hv.
  cbn [render fst]. rewrite replaceFirst_whole by discriminate.
  exists v. split.
  - unfold fromCharCode. rewrite Z.mod_small by lia. reflexivity.
  - unfold isUpperLetter. lia.
Qed.

Lemma letter_range_fill_is_padded_letter_witness :
  exists c,
    fst (fillSpecifierTemplate (str "XX")
           (mkPattern [] None
              [rangeOf "1-5"; letterRangeOf "65-90"; hexRangeOf "-1-F"])
           (mkDate 2024 3 15) (Random.constant (1 # 2))) = [48; c]
    /\ isUpperLetter c = true.
Proof.
  apply (letter_range_fill_is_padded_letter
           [rangeOf "1-5"] [hexRangeOf "-1-F"]).
  - apply constant_unit_interval; [discriminate|reflexivity].
  - reflexivity.
  - repeat constructor.
Defined.

(** C3, as stated, fails: with [Math.random()] returning 0 the template
    "XX" under the letter range "65-90" is filled with "0A", whose first
    character is not a letter. *)
Lemma letter_range_two_letters_counterexample :
  let out :=
    fst (fillSpecifierTemplate (str "XX")
           (mkPattern [] None [letterRangeOf "65-90"])
           (mkDate 2024 3 15) (Random.constant 0)) in
  out = str "0A" /\ forallb isUpperLetter out = false.
Proof. vm_compute. split; reflexivity. Qed.

(** ** C4: malformed range constraints *)

(** C4, as the code has it.  A constraint whose value [parseRangeConstraint]
    rejects -- it does not split on "-" into exactly two parts, or one of
    the parts does not start with a decimal integer -- is ignored: the
    range of every filler run, and so the filled text, is the one of the
    pattern without that constraint; when every constraint is rejected the
    range of a run of length [n] is [0, 10^n - 1], drawn as a number.  The
    code has no check of min <= max. *)
Theorem malformed_constraint_ignored (c : Constraint) :
  parseRangeConstraint (cvalue c) = None ->
  (forall acc, applyConstraint acc c = acc)
  /\ (forall n cs1 cs2,
        resolveConstraints n (cs1 ++ c :: cs2)
        = resolveConstraints n (cs1 ++ cs2))
  /\ (forall specifier p d r cs1 cs2,
        constraints p = cs1 ++ c :: cs2 ->
        fillSpecifierTemplate specifier p d r
        = fillSpecifierTemplate specifier (withConstraints p (cs1 ++ cs2))
                                d r)
  /\ (forall n cs,
        Forall (fun c' => parseRangeConstraint (cvalue c') = None) cs ->
        resolveConstraints n (c :: cs) = (0, 10 ^ Z.of_nat n - 1, number)).
Proof.
  intros Hc. repeat split.
  - intros acc. now apply applyConstraint_malformed.
  - intros n cs1 cs2. now apply resolveConstraints_skip.
  - intros specifier p d r cs1 cs2 Hp.
    apply fillSpecifierTemplate_ext. intros n. rewrite Hp. cbn [constraints withConstraints].
    now apply resolveConstraints_skip.
  - intros n cs Hcs. apply resolveConstraints_all_malformed.
    now constructor.
Qed.

Lemma malformed_constraint_ignored_witness :
  fillSpecifierTemplate (str "XXX")
    (mkPattern [] None [rangeOf "abc"; rangeOf "5-7"]) (mkDate 2024 3 15)
    (Random.constant (1 # 2))
  = fillSpecifierTemplate (str "XXX")
      (mkPattern [] None [rangeOf "5-7"]) (mkDate 2024 3 15)
      (Random.constant (1 # 2)).
Proof.
  exact (proj1 (proj2 (proj2
           (malformed_constraint_ignored (rangeOf "abc") eq_refl)))
           (str "XXX") (mkPattern [] None [rangeOf "abc"; rangeOf "5-7"])
           (mkDate 2024 3 15) (Random.constant (1 # 2))
           [] [rangeOf "5-7"] eq_refl).
Defined.

(** C4, as stated, fails: the value "50-30" has min > max, yet the
    constraint is applied; with [Math.random()] returning 0 the run "X" is
    filled with "50", which the default range [0, 9] cannot give. *)
Lemma reversed_range_applied_counterexample :
  parseRangeConstraint (str "50-30") = Some (50, 30)
  /\ resolveConstraints 1 [rangeOf "50-30"] = (50, 30, number)
  /\ resolveConstraints 1 [] = (0, 9, number)
  /\ fst (fillSpecifierTemplate (str "X") (mkPattern [] None [rangeOf "50-30"])
            (mkDate 2024 3 15) (Random.constant 0)) = str "50".
Proof. vm_compute. repeat split. Qed.

(** ** C5: the year placeholder *)

Lemma isDigit_isWordChar c : isDigit c = true -> isWordChar c = true.
Proof. unfold isDigit, isWordChar. lia. Qed.

(** [yearAt] accepts exactly a run that starts here. *)
Lemma yearAt_iff prevWord s y :
  yearAt prevWord s = Some y
  <-> prevWord = false
      /\ exists post, s = y ++ post /\ length y = 4%nat
                      /\ forallb isDigit y = true
                      /\ isWordChar (hd 32 post) = false.
Proof.
  unfold yearAt. split.
  - destruct s as [|d1 [|d2 [|d3 [|d4 rest]]]]; try discriminate.
    unfold wordBoundary.
    destruct (isDigit d1) eqn:H1; [|now rewrite andb_false_r].
    destruct (isDigit d2) eqn:H2; [|now rewrite andb_false_r].
    destruct (isDigit d3) eqn:H3; [|now rewrite andb_false_r].
    destruct (isDigit d4) eqn:H4; [|now rewrite andb_false_r].
    rewrite (isDigit_isWordChar d1 H1), (isDigit_isWordChar d4 H4).
    destruct prevWord; [discriminate|]. cbn [xorb andb].
    destruct rest as [|c rest]; cbn [negb].
    + intros [= <-]. split; [reflexivity|]. exists [].
      repeat split. cbn [forallb]. now rewrite H1, H2, H3, H4.
    + destruct (isWordChar c) eqn:Hc; [discriminate|].
      intros [= <-]. split; [reflexivity|]. exists (c :: rest).
      repeat split; [|exact Hc]. cbn [forallb]. now rewrite H1, H2, H3, H4.
  - intros (-> & post & -> & Hl & Hd & Hp).
    destruct y as [|d1 [|d2 [|d3 [|d4 [|]]]]]; try discriminate.
    cbn [forallb] in Hd.
    apply andb_prop in Hd. destruct Hd as [H1 Hd].
    apply andb_prop in Hd. destruct Hd as [H2 Hd].
    apply andb_prop in Hd. destruct Hd as [H3 Hd].
    apply andb_prop in Hd. destruct Hd as [H4 _].
    cbn [app]. unfold wordBoundary.
    rewrite (isDigit_isWordChar d1 H1), (isDigit_isWordChar d4 H4).
    rewrite H1, H2, H3, H4. cbn [xorb andb].
    destruct post as [|c post]; [reflexivity|].
    cbn [hd] in Hp. now rewrite Hp.
Qed.

(** [matchYear_from] returns the leftmost run, and [None] only when there
    is none.  [before] is the text already passed. *)
Lemma matchYear_from_leftmost s : forall before prevWord,
  prevWord = isWordChar (last before 32) ->
  match matchYear_from prevWord s with
  | Some y =>
      exists pre post,
        yearRun (before ++ s) (before ++ pre) y post
        /\ forall pre' y' post',
             yearRun (before ++ s) (before ++ pre') y' post' ->
             (length pre <= length pre')%nat
  | None =>
      forall pre' y' post',
        ~ yearRun (before ++ s) (before ++ pre') y' post'
  end.
Proof.
  induction s as [|c s IH]; intros before prevWord Hprev.
  - assert (Hno : yearAt prevWord [] = None) by reflexivity.
    cbn [matchYear_from]. rewrite Hno.
    intros pre' y' post' (E & Hl & _).
    rewrite <- app_assoc in E. apply app_inv_head in E.
    symmetry in E. apply app_eq_nil in E. destruct E as [_ E].
    apply app_eq_nil in E. destruct E as [-> _]. discriminate.
  - cbn [matchYear_from]. destruct (yearAt prevWord (c :: s)) as [y|] eqn:Hy.
    + apply yearAt_iff in Hy. destruct Hy as (Hp & post & E & Hl & Hd & Hpost).
      exists [], post. split.
      * unfold yearRun. rewrite app_nil_r, E.
        repeat split; try assumption. now rewrite <- Hprev.
      * intros. cbn [length]. lia.
    + specialize (IH (before ++ [c]) (isWordChar c)).
      rewrite last_last in IH. specialize (IH eq_refl).
      assert (Hhere : forall y' post',
                ~ yearRun (before ++ c :: s) (before ++ []) y' post').
      { intros y' post' (E & Hl & Hd & Hb & Hpost).
        rewrite app_nil_r in E, Hb. apply app_inv_head in E.
        assert (Hsome : yearAt prevWord (c :: s) = Some y').
        { apply yearAt_iff. split; [now rewrite Hprev|]. now exists post'. }
        congruence. }
      assert (Hshift : forall pre' y' post',
                yearRun (before ++ c :: s) (before ++ pre') y' post' ->
                pre' <> [] ->
                exists pre'', pre' = c :: pre''
                  /\ yearRun ((before ++ [c]) ++ s)
                             ((before ++ [c]) ++ pre'') y' post').
      { intros pre' y' post' (E & Hl & Hd & Hb & Hpost) Hne.
        destruct pre' as [|c' pre'']; [congruence|].
        rewrite <- app_assoc in E. apply app_inv_head in E.
        cbn [app] in E. injection E as -> E.
        exists pre''. split; [reflexivity|].
        unfold yearRun. rewrite <- !app_assoc. cbn [app].
        repeat split; try assumption. congruence. }
      destruct (matchYear_from (isWordChar c) s) as [y|].
      * destruct IH as (pre & post & Hrun & Hmin).
        exists (c :: pre), post. split.
        -- destruct Hrun as (E & Hl & Hd & Hb & Hpost).
           unfold yearRun. rewrite <- !app_assoc in E.
           rewrite <- !app_assoc in Hb. cbn [app] in E, Hb.
           rewrite <- app_assoc. cbn [app].
           repeat split; assumption.
        -- intros pre' y' post' Hrun'.
           destruct pre' as [|c' pre''].
           ++ exfalso. exact (Hhere _ _ Hrun').
           ++ destruct (Hshift _ _ _ Hrun' ltac:(discriminate))
                as (p2 & [= <- <-] & Hrun2).
              specialize (Hmin _ _ _ Hrun2). cbn [length]. lia.
      * intros pre' y' post' Hrun'.
        destruct pre' as [|c' pre''].
        -- exact (Hhere _ _ Hrun').
        -- destruct (Hshift _ _ _ Hrun' ltac:(discriminate))
             as (p2 & [= <- <-] & Hrun2).
           exact (IH _ _ _ Hrun2).
Qed.

Lemma matchYear_leftmost s :
  match matchYear s with
  | Some y =>
      exists pre post,
        yearRun s pre y post
        /\ forall pre' y' post',
             yearRun s pre' y' post' -> (length pre <= length pre')%nat
  | None => forall pre' y' post', ~ yearRun s pre' y' post'
  end.
Proof.
  exact (matchYear_from_leftmost s [] false eq_refl).
Qed.

Lemma same_run (s pre1 y1 post1 pre2 y2 post2 : jsstring) :
  s = pre1 ++ y1 ++ post1 -> s = pre2 ++ y2 ++ post2 ->
  length pre1 = length pre2 -> length y1 = length y2 ->
  y1 = y2.
Proof.
  intros E1 E2 Hp Hy. rewrite E1 in E2.
  apply (f_equal (skipn (length pre1))) in E2.
  rewrite skipn_app, skipn_all, Nat.sub_diag in E2. cbn [skipn app] in E2.
  rewrite Hp, skipn_app, skipn_all, Nat.sub_diag in E2.
  cbn [skipn app] in E2.
  apply (f_equal (firstn (length y1))) in E2.
  rewrite firstn_app, firstn_all, Nat.sub_diag in E2.
  rewrite Hy, firstn_app, firstn_all, Nat.sub_diag in E2.
  cbn [firstn] in E2. now rewrite !app_nil_r in E2.
Qed.

(** C5, as the code has it.  Without date override, when the specifier
    contains YYYY and the quoted filled term contains a run of exactly
    four digits between word boundaries, the filter is
    [after:<year>-<month>-<day>] with the first such run as the year and
    the unpadded month and day of the reference date.  When no such run
    exists the function goes on to the age rules.  For the specifier
    "YYYY", the reference date 2024-06-01 and a pattern with an empty
    name the filter is [after:2024-6-1]. *)
Theorem year_placeholder_after_filter (specifier : jsstring)
  (p : SearchPattern) (d : Date) (r : Random.source) :
  includes (str "YYYY") specifier = true ->
  let term := fst (generateSearchTerm (name p) specifier p d r) in
  (forall pre year post,
     yearRun (quoted term) pre year post ->
     (forall pre' year' post',
        yearRun (quoted term) pre' year' post' ->
        (length pre <= length pre')%nat) ->
     determineDateFilter specifier p d (quoted term) false
     = str "after:" ++ year ++ [45] ++ toString (getMonth d + 1) ++ [45]
       ++ toString (getDate d))
  /\ ((forall pre year post, ~ yearRun (quoted term) pre year post) ->
      determineDateFilter specifier p d (quoted term) false
      = if age_is p "old" then beforeFilter d else [])
  /\ (specifier = str "YYYY" -> name p = [] ->
      getFullYear d = 2024 -> getMonth d = 5 -> getDate d = 1 ->
      quoted term = [34] ++ str "2024" ++ [34]
      /\ determineDateFilter specifier p d (quoted term) false
         = str "after:2024-6-1"
      /\ fst (formatSearchTermToURL p specifier d false r)
         = urlPrefix ++ str "%222024%22+after%3A2024-6-1&sp=CAISAhAB").
Proof.
  intros Hy term. pose proof (matchYear_leftmost (quoted term)) as Hm.
  split; [|split].
  - intros pre year post Hrun Hfirst.
    destruct (matchYear (quoted term)) as [y|] eqn:Ey.
    + destruct Hm as (pre0 & post0 & Hrun0 & Hfirst0).
      pose proof (Hfirst _ _ _ Hrun0) as H1.
      pose proof (Hfirst0 _ _ _ Hrun) as H2.
      destruct Hrun as (E & Hl & _). destruct Hrun0 as (E0 & Hl0 & _).
      assert (year = y).
      { apply (same_run (quoted term) pre year post pre0 y post0);
          [assumption|assumption|lia|congruence]. }
      subst y. now apply determineDateFilter_year.
    + exfalso. exact (Hm _ _ _ Hrun).
  - intros Hnone. destruct (matchYear (quoted term)) as [y|] eqn:Ey.
    + destruct Hm as (pre0 & post0 & Hrun0 & _).
      exfalso. exact (Hnone _ _ _ Hrun0).
    + unfold determineDateFilter. rewrite Hy, Ey.
      destruct (age_is p "old"); [reflexivity|].
      destruct (age_is p "new"); reflexivity.
  - clear Hm. intros Hs Hn Hfy Hmo Hda. subst term.
    unfold formatSearchTermToURL. rewrite Hs, Hn.
    destruct d as [fy mo da hh mi ss].
    cbn [getFullYear getMonth getDate] in *. subst fy mo da.
    vm_compute. repeat split.
Qed.

Lemma year_placeholder_after_filter_witness :
  determineDateFilter (str "YYYY") (mkPattern [] None []) (mkDate 2024 6 1)
    (quoted (fst (generateSearchTerm [] (str "YYYY") (mkPattern [] None [])
                    (mkDate 2024 6 1) (Random.constant 0)))) false
  = str "after:2024-6-1"
  /\ determineDateFilter (str "YYYY") (mkPattern [] None []) (mkDate 2024 6 1)
       (quoted (fst (generateSearchTerm [] (str "YYYY") (mkPattern [] None [])
                       (mkDate 2024 6 1) (Random.constant 0)))) false
     = str "after:" ++ str "2024" ++ [45] ++ toString 6 ++ [45] ++ toString 1.
Proof.
  split.
  - exact (proj1 (proj2 (proj2 (proj2
             (year_placeholder_after_filter (str "YYYY")
                (mkPattern [] None []) (mkDate 2024 6 1) (Random.constant 0)
                eq_refl))
             eq_refl eq_refl eq_refl eq_refl eq_refl))).
  - apply (proj1 (year_placeholder_after_filter (str "YYYY")
                    (mkPattern [] None []) (mkDate 2024 6 1)
                    (Random.constant 0) eq_refl)
                 [34] (str "2024") [34]).
    + repeat split.
    + intros [|c pre'] year' post' (E & Hl & Hd & _); [|cbn [length]; lia].
      destruct year' as [|d1 year']; [discriminate|].
      injection E as <- _. discriminate.
Defined.

(** C5, as stated, fails.  The specifier "YYYYMMDD" contains YYYY, but the
    filled term "20240601" has no four-digit run between word boundaries,
    so no [after:] filter is produced; and for the specifier "YYYY" itself
    a pattern named "IMG_" gives the term "IMG_2024", in which the year
    does not start at a word boundary. *)
Lemma year_placeholder_no_filter_counterexample :
  includes (str "YYYY") (str "YYYYMMDD") = true
  /\ fst (formatSearchTermToURL (mkPattern [] None []) (str "YYYYMMDD")
            (mkDate 2024 6 1) false (Random.constant 0))
     = str "https://www.youtube.com/results?search_query=%2220240601%22&sp=CAISAhAB"
  /\ fst (formatSearchTermToURL (mkPattern (str "IMG_") None []) (str "YYYY")
            (mkDate 2024 6 1) false (Random.constant 0))
     = str "https://www.youtube.com/results?search_query=%22IMG_2024%22&sp=CAISAhAB".
Proof. vm_compute. repeat split. Qed.

(** ** C6: a replacement that is matched again *)

(** C6, evaluated where the code breaks it.  The template "X X" has two
    runs; under the letter range "65-90", with [Math.random()] returning
    0.9 and then 0, the first draw gives the code 88, the letter X, and
    the second gives 65, the letter A.  The replacement
    of the first run is itself found by the search for the second run's
    text and is replaced; the second run is left as it was.  Filling each
    run with its own draw would give "X A". *)
Theorem letter_X_is_replaced_again :
  let p := mkPattern [] None [letterRangeOf "65-90"] in
  let r := Random.from_list [9 # 10]%Q 0%Q in
  let (first, r1) := getRandomInt 65 90 r in
  let (second, _) := getRandomInt 65 90 r1 in
  fromCharCode first = str "X" /\ fromCharCode second = str "A"
  /\ matchRuns 88 (str "X X") = [str "X"; str "X"]
  /\ fst (fillSpecifierTemplate (str "X X") p (mkDate 2024 3 15) r)
     = str "A X".
Proof. vm_compute. repeat split. Qed.

(** The same happens between date tokens and their neighbours: in March
    the template "MMonth" becomes "MMarch" when Month is replaced, and the
    MM pass then takes the first letter of the month name. *)
Lemma month_name_is_matched_by_MM :
  fst (fillSpecifierTemplate (str "MMonth") (mkPattern [] None [])
         (mkDate 2024 3 15) (Random.constant 0)) = str "03arch".
Proof. vm_compute. reflexivity. Qed.

(** ** Patterns of the data model: examples *)

(** Conflicting constraints, a missing age, an empty specifier, an
    invalid month and a name with a lone surrogate all give a URL. *)
Lemma never_throw_examples :
  fst (formatSearchTermToURL
         (mkPattern (str "DSC ") None
            [rangeOf "1-5"; hexRangeOf "10-255"; letterRangeOf "x"])
         (str "XXXX") (mkDate 2024 3 15) false (Random.constant (1 # 2)))
  = urlPrefix ++ str "%22DSC+0085%22&sp=CAISAhAB"
  /\ fst (formatSearchTermToURL (mkPattern (str "MVI") None []) []
            (mkDate 2024 3 15) false (Random.constant 0))
     = urlPrefix ++ str "%22MVI%22&sp=CAISAhAB"
  /\ fst (formatSearchTermToURL (mkPattern [55357] None []) (str "Month")
            (mkDate 2024 13 1) true (Random.constant 0))
     = urlPrefix
       ++ str "%22%EF%BF%BDundefined%22+before%3A2024-13-01&sp=CAISAhAB".
Proof. vm_compute. repeat split. Qed.

(** ** C10: negative bounds *)

(** C10.  A value [lo-hi] in which [lo] or [hi] reads as a negative
    integer holds a second minus sign, so splitting it on "-" gives more
    than two parts and [parseRangeConstraint] returns null; a constraint
    with such a value leaves the range of a filler run as it was.  No
    parsed range, and no range resolved for a filler run, has a negative
    bound. *)
Theorem negative_bound_never_applied (lo hi : jsstring) (z : Z) :
  parseInt lo = Some z \/ parseInt hi = Some z -> z < 0 ->
  length (split 45 (lo ++ [45] ++ hi)) <> 2%nat
  /\ parseRangeConstraint (lo ++ [45] ++ hi) = None
  /\ (forall acc c, cvalue c = lo ++ [45] ++ hi -> applyConstraint acc c = acc)
  /\ (forall value min max,
        parseRangeConstraint value = Some (min, max) -> 0 <= min /\ 0 <= max)
  /\ (forall xCount cs,
        0 <= fst (fst (resolveConstraints xCount cs))
        /\ 0 <= snd (fst (resolveConstraints xCount cs))).
Proof.
  intros Hp Hz.
  assert (Hin : In 45 lo \/ In 45 hi).
  { destruct Hp as [Hp|Hp]; [left|right];
      eapply parseInt_negative_has_minus; eauto. }
  assert (Hc : (2 <= count_occ Z.eq_dec (lo ++ [45%Z] ++ hi) 45%Z)%nat).
  { rewrite !count_occ_app. cbn [count_occ].
    destruct (Z.eq_dec 45 45); [|congruence].
    destruct Hin as [Hin|Hin];
      apply (count_occ_In Z.eq_dec) in Hin; lia. }
  assert (Hnone : parseRangeConstraint (lo ++ [45] ++ hi) = None)
    by now apply parseRangeConstraint_two_minus.
  split; [|split; [|split; [|split]]].
  - rewrite split_length. lia.
  - exact Hnone.
  - intros acc c Hv. apply applyConstraint_malformed. now rewrite Hv.
  - apply parseRangeConstraint_nonneg.
  - apply resolveConstraints_nonneg.
Qed.

Lemma negative_bound_never_applied_witness :
  parseRangeConstraint (str "-5-10") = None
  /\ parseRangeConstraint (str "5--3") = None.
Proof.
  split.
  - exact (proj1 (proj2 (negative_bound_never_applied (str "-5") (str "10")
                           (-5) (or_introl eq_refl) eq_refl))).
  - exact (proj1 (proj2 (negative_bound_never_applied (str "5") (str "-3")
                           (-3) (or_intror eq_refl) eq_refl))).
Defined.

End SearchSettingsFacts.

(* ================================================================== *)
(** * Properties of randomness.ts                                       *)
(* ================================================================== *)

Module RandomnessFacts.

Import Randomness.

(** ** Sources *)

Lemma fair_tail k r : Random.fair k r -> Random.fair k (fun n => r (S n)).
Proof.
  intros [Hu Hz]. split.
  - intros n. apply Hu.
  - intros n. destruct (Hz (S n)) as (m & Hm & Hnz). now exists m.
Qed.

Lemma constant_fair u :
  (0 < u)%Q -> (u < 1)%Q -> Random.fair 0 (Random.constant u).
Proof.
  intros H0 H1. split.
  - intros n. split; [now apply Qlt_le_weak|exact H1].
  - intros n. exists 0%nat. split; [lia|].
    unfold Random.constant. intros E. rewrite E in H0.
    now apply Qlt_irrefl in H0.
Qed.

(** ** Computations that return *)

Lemma returns_ret {A} k (a : A) (P : A -> Prop) : P a -> returns k (ret a) P.
Proof. intros Ha r Hr. now exists a, r. Qed.

Lemma returns_bind {A B} k (c : Gen A) (f : A -> Gen B)
  (P : A -> Prop) (Q : B -> Prop) :
  returns k c P -> (forall a, P a -> returns k (f a) Q) ->
  returns k (bind c f) Q.
Proof.
  intros Hc Hf r Hr. destruct (Hc r Hr) as (a & r1 & E & Ha & Hr1).
  unfold bind. rewrite E. now apply Hf.
Qed.

Lemma returns_weaken {A} k (c : Gen A) (P Q : A -> Prop) :
  returns k c P -> (forall a, P a -> Q a) -> returns k c Q.
Proof.
  intros Hc HPQ r Hr. destruct (Hc r Hr) as (a & r1 & E & Ha & Hr1).
  exists a, r1. auto.
Qed.

Lemma returns_random k :
  returns k random (fun u => (0 <= u)%Q /\ (u < 1)%Q).
Proof.
  intros r Hr. exists (r 0%nat), (fun n => r (S n)).
  split; [reflexivity|]. split; [apply Hr|now apply fair_tail].
Qed.

Lemma nonzeroRandom_finds k fuel : forall r m,
  Random.fair k r -> (m < fuel)%nat -> ~ (r m == 0)%Q ->
  exists u r', nonzeroRandom fuel r = Some (u, r') /\ Random.fair k r'.
Proof.
  induction fuel as [|f IH]; intros r m Hr Hm Hnz; [lia|].
  cbn [nonzeroRandom]. unfold bind, random, Random.random.
  destruct (Qeq_bool (r 0%nat) 0) eqn:E.
  - destruct m as [|m].
    + apply Qeq_bool_iff in E. contradiction.
    + apply (IH (fun n => r (S n)) m); [now apply fair_tail|lia|exact Hnz].
  - exists (r 0%nat), (fun n => r (S n)). split; [reflexivity|].
    now apply fair_tail.
Qed.

Section Termination.

Variable M : MathLib.
Variables fuel k : nat.
Hypothesis enough : (k < fuel)%nat.

Let anything {A} : A -> Prop := fun _ => True.

Lemma returns_nonzeroRandom : returns k (nonzeroRandom fuel) anything.
Proof.
  intros r Hr. destruct (proj2 Hr 0%nat) as (m & Hm & Hnz).
  destruct (nonzeroRandom_finds k fuel r m Hr ltac:(lia) Hnz)
    as (u & r' & E & Hr').
  exists u, r'. unfold anything. auto.
Qed.

Lemma returns_normalDistribution mean stdDev :
  returns k (normalDistribution M fuel mean stdDev) anything.
Proof.
  unfold normalDistribution.
  eapply returns_bind; [apply returns_nonzeroRandom|]. intros u1 _.
  eapply returns_bind; [apply returns_nonzeroRandom|]. intros u2 _.
  now apply returns_ret.
Qed.

Lemma returns_sumSquares n : forall chiSquared,
  returns k (sumSquares M fuel n chiSquared) anything.
Proof.
  induction n as [|n IH]; intros chiSquared; cbn [sumSquares].
  - now apply returns_ret.
  - eapply returns_bind; [apply returns_normalDistribution|].
    intros x _. apply IH.
Qed.

Lemma returns_tDistribution mean scale dof :
  returns k (tDistribution M fuel mean scale dof) anything.
Proof.
  unfold tDistribution.
  eapply returns_bind; [apply returns_normalDistribution|]. intros z _.
  eapply returns_bind; [apply returns_sumSquares|]. intros chi _.
  now apply returns_ret.
Qed.

Lemma returns_uniformDistribution min max :
  min <= max ->
  returns k (uniformDistribution min max) (fun v => min <= v <= max).
Proof.
  intros Hm. unfold uniformDistribution.
  eapply returns_bind; [apply returns_random|]. intros u [H0 H1].
  apply returns_ret.
  pose proof (NumFacts.floor_scaled u (max - min + 1) H0 H1 ltac:(lia)).
  lia.
Qed.

Lemma returns_drawInteger min max config :
  min <= max -> returns k (drawInteger M fuel min max config) anything.
Proof.
  intros Hm. unfold drawInteger, zCurveDistribution.
  destruct (type config).
  - eapply returns_weaken; [now apply returns_uniformDistribution|].
    now unfold anything.
  - eapply returns_bind; [apply returns_normalDistribution|].
    intros x _. now apply returns_ret.
  - eapply returns_bind; [apply returns_normalDistribution|].
    intros x _. now apply returns_ret.
  - eapply returns_bind; [apply returns_tDistribution|].
    intros x _. now apply returns_ret.
Qed.

Lemma returns_retry {A} (draw : Gen A) (outOfRange : A -> bool) more :
  returns k draw anything -> returns k (retry draw outOfRange more) anything.
Proof.
  intros Hd. induction more as [|more IH]; cbn [retry].
  - eapply returns_bind; [exact Hd|]. intros v _.
    destruct (outOfRange v); now apply returns_ret.
  - eapply returns_bind; [exact Hd|]. intros v _.
    destruct (outOfRange v); [exact IH|now apply returns_ret].
Qed.

(** [generateConstrainedInteger] returns, and what it returns is in the
    range. *)
Lemma returns_generateConstrainedInteger min max config maxAttempts :
  min <= max ->
  returns k (generateConstrainedInteger M fuel min max config maxAttempts)
          (fun v => min <= v <= max).
Proof.
  intros Hm. unfold generateConstrainedInteger.
  assert (Hclamp :
    returns k
      (value <- retry (drawInteger M fuel min max config)
                      (fun value => (value <? min) || (value >? max))
                      (Z.to_nat (maxAttempts - 1)) ;;
       ret (Z.max min (Z.min max value)))
      (fun v => min <= v <= max)).
  { eapply returns_bind.
    - apply returns_retry. now apply returns_drawInteger.
    - intros v _. apply returns_ret. lia. }
  destruct (type config);
    [now apply returns_uniformDistribution|exact Hclamp..].
Qed.

End Termination.

(** ** Dates *)

Lemma timeClip_between (x : Q) (a b : Z) :
  (inject_Z a <= x)%Q -> (x <= inject_Z b)%Q -> a <= timeClip x <= b.
Proof.
  intros Ha Hb. unfold timeClip. destruct (Qle_bool 0 x).
  - now apply NumFacts.floor_between.
  - now apply NumFacts.ceiling_between.
Qed.

Lemma uniform_time_between (u : Q) (startTime endTime : Z) :
  (0 <= u)%Q -> (u < 1)%Q -> startTime <= endTime ->
  (inject_Z startTime <= inject_Z startTime + u * inject_Z (endTime - startTime))%Q
  /\ (inject_Z startTime + u * inject_Z (endTime - startTime)
      <= inject_Z endTime)%Q.
Proof.
  intros H0 H1 Hse.
  assert (Hr : (0 <= inject_Z (endTime - startTime))%Q).
  { change 0%Q with (inject_Z 0). rewrite <- Zle_Qle. lia. }
  assert (He : (inject_Z endTime
                == inject_Z startTime + inject_Z (endTime - startTime))%Q).
  { rewrite <- inject_Z_plus. apply inject_Z_injective. lia. }
  split.
  - rewrite <- (Qplus_0_r (inject_Z startTime)) at 1.
    apply Qplus_le_r. now apply Qmult_le_0_compat.
  - rewrite He. apply Qplus_le_r.
    rewrite <- (Qmult_1_l (inject_Z (endTime - startTime))) at 2.
    apply Qmult_le_compat_r; [now apply Qlt_le_weak|exact Hr].
Qed.

Section DateTermination.

Variable M : MathLib.
Variables fuel k : nat.
Hypothesis enough : (k < fuel)%nat.

Lemma returns_drawTime startTime endTime config :
  returns k (drawTime M fuel startTime endTime config) (fun _ => True).
Proof.
  unfold drawTime, zCurveDistribution. destruct (type config).
  - eapply returns_bind; [apply returns_random|].
    intros u _. now apply returns_ret.
  - now apply returns_normalDistribution.
  - now apply returns_normalDistribution.
  - now apply returns_tDistribution.
Qed.

(** [generateConstrainedDate] returns, and the date it returns is in the
    range. *)
Lemma returns_generateConstrainedDate startTime endTime config maxAttempts :
  startTime <= endTime ->
  returns k
    (generateConstrainedDate M fuel startTime endTime config maxAttempts)
    (fun t => startTime <= t <= endTime).
Proof.
  intros Hse. unfold generateConstrainedDate.
  assert (Hse' : (inject_Z startTime <= inject_Z endTime)%Q)
    by now rewrite <- Zle_Qle.
  assert (Hclamp :
    returns k
      (time <- retry (drawTime M fuel startTime endTime config)
                 (fun time => negb (Qle_bool (inject_Z startTime) time)
                              || negb (Qle_bool time (inject_Z endTime)))
                 (Z.to_nat (maxAttempts - 1)) ;;
       ret (timeClip
              (Qmax (inject_Z startTime) (Qmin (inject_Z endTime) time))))
      (fun t => startTime <= t <= endTime)).
  { eapply returns_bind.
    - apply returns_retry. apply returns_drawTime; exact enough.
    - intros time _. apply returns_ret. apply timeClip_between.
      + apply Q.le_max_l.
      + apply Q.max_lub; [exact Hse'|apply Q.le_min_l]. }
  destruct (type config); [|exact Hclamp..].
  eapply returns_bind; [apply returns_random|]. intros u [H0 H1].
  apply returns_ret.
  destruct (uniform_time_between u startTime endTime H0 H1 Hse).
  now apply timeClip_between.
Qed.

End DateTermination.

(** ** C7: the clamp guarantee *)

(** C7.  On a source of values in [0, 1) that never returns more than [k]
    zeros in a row, and with the waiting loops of the Box-Muller sampler
    allowed more than [k] rounds, [generateConstrainedInteger] returns an
    integer in [min, max] for every config and every [maxAttempts], and
    [generateConstrainedDate] returns a date whose time value is in
    [startTime, endTime]. *)
Theorem constrained_generators_stay_in_range (M : MathLib) (fuel k : nat)
  (r : Random.source) (config : DistributionConfig) (maxAttempts : Z) :
  Random.unit_interval r -> Random.zero_gap k r -> (k < fuel)%nat ->
  1 <= maxAttempts ->
  (forall min max, min <= max ->
     exists v r',
       generateConstrainedInteger M fuel min max config maxAttempts r
       = Some (v, r') /\ min <= v <= max)
  /\ (forall startTime endTime, startTime <= endTime ->
        exists t r',
          generateConstrainedDate M fuel startTime endTime config
                                  maxAttempts r = Some (t, r')
          /\ startTime <= t <= endTime).
Proof.
  intros Hu Hz Hk _. split.
  - intros min max Hm.
    destruct (returns_generateConstrainedInteger M fuel k Hk min max config
                maxAttempts Hm r (conj Hu Hz)) as (v & r' & E & Hv & _).
    now exists v, r'.
  - intros startTime endTime Hse.
    destruct (returns_generateConstrainedDate M fuel k Hk startTime endTime
                config maxAttempts Hse r (conj Hu Hz)) as (t & r' & E & Ht & _).
    now exists t, r'.
Qed.

Lemma everyOther_fair : Random.fair 1 Random.everyOther.
Proof.
  split.
  - intros n. unfold Random.everyOther. destruct (Nat.even n); split; easy.
  - intros n. unfold Random.everyOther. destruct (Nat.even n) eqn:E.
    + exists 1%nat. split; [lia|].
      replace (n + 1)%nat with (S n) by lia.
      rewrite Nat.even_succ, <- Nat.negb_even, E. easy.
    + exists 0%nat. split; [lia|]. rewrite Nat.add_0_r, E. easy.
Qed.

Lemma constrained_generators_stay_in_range_witness :
  (exists v r',
     generateConstrainedInteger exampleMath 2 1000 9999
       {| type := t_curve; center := 1 # 2; spread := 1 # 4;
          degreesOfFreedom := Some 3 |} 100 Random.everyOther = Some (v, r')
     /\ 1000 <= v <= 9999)
  /\ (exists t r',
        generateConstrainedDate exampleMath 2 0 86400000
          {| type := bell; center := 1 # 2; spread := 1 # 4;
             degreesOfFreedom := None |} 100 Random.everyOther = Some (t, r')
        /\ 0 <= t <= 86400000).
Proof.
  split.
  - exact (proj1 (constrained_generators_stay_in_range exampleMath 2 1
                    Random.everyOther
                    {| type := t_curve; center := 1 # 2; spread := 1 # 4;
                       degreesOfFreedom := Some 3 |} 100
                    (proj1 everyOther_fair) (proj2 everyOther_fair)
                    ltac:(lia) ltac:(lia))
                 1000 9999 ltac:(lia)).
  - exact (proj2 (constrained_generators_stay_in_range exampleMath 2 1
                    Random.everyOther
                    {| type := bell; center := 1 # 2; spread := 1 # 4;
                       degreesOfFreedom := None |} 100
                    (proj1 everyOther_fair) (proj2 everyOther_fair)
                    ltac:(lia) ltac:(lia))
                 0 86400000 ltac:(lia)).
Defined.

(** ** C1: what [validateDistribution] counts *)

Section Validation.

Variable M : MathLib.
Variables fuel k : nat.
Hypothesis enough : (k < fuel)%nat.

(** Every sample passes the range check, because it was clamped. *)
Lemma returns_countSuccesses min max config n : forall successCount,
  min <= max ->
  returns k (countSuccesses M fuel min max config n successCount)
          (fun c => c = successCount + Z.of_nat n).
Proof.
  induction n as [|n IH]; intros successCount Hm; cbn [countSuccesses].
  - apply returns_ret. lia.
  - eapply returns_bind.
    + now apply (returns_generateConstrainedInteger M fuel k enough).
    + cbv beta. intros v Hv.
      replace ((min <=? v) && (v <=? max)) with true
        by (symmetry; apply andb_true_intro; split; lia).
      eapply returns_weaken; [now apply IH|]. cbv beta. lia.
Qed.

(** For every config that is not uniform, [validateDistribution] reports
    the rate 1 and [valid = true], whatever was drawn. *)
Lemma validateDistribution_always_full config min max sampleSize :
  type config <> uniform -> min <= max -> 1 <= sampleSize ->
  returns k (validateDistribution M fuel config min max sampleSize)
          (fun res => valid res = true /\ (successRate res == 1)%Q).
Proof.
  intros Ht Hm Hs. unfold validateDistribution.
  assert (Hall :
    returns k
      (successCount <- countSuccesses M fuel min max config
                         (Z.to_nat sampleSize) 0 ;;
       ret {| valid :=
                Qle_bool (4 # 5)
                  (inject_Z successCount / inject_Z sampleSize);
              successRate := inject_Z successCount / inject_Z sampleSize |})
      (fun res => valid res = true /\ (successRate res == 1)%Q)).
  { eapply returns_bind; [now apply returns_countSuccesses|].
    cbv beta. intros c ->. apply returns_ret. cbn [valid successRate].
    replace (0 + Z.of_nat (Z.to_nat sampleSize)) with sampleSize by lia.
    assert (E : (inject_Z sampleSize / inject_Z sampleSize == 1)%Q).
    { unfold Qdiv. apply Qmult_inv_r. intros Hz.
      apply (inject_Z_injective sampleSize 0) in Hz. lia. }
    split; [|exact E]. apply Qle_bool_iff. rewrite E. discriminate. }
  destruct (type config); [congruence|exact Hall..].
Qed.

End Validation.

(** C1, evaluated where the code breaks it.  The config is a bell curve
    centred on the lower bound with spread 1, the range is [0, 10], one
    sample is taken and [Math.random()] returns 0.5.  For every library
    whose Box-Muller deviate at (0.5, 0.5) is at most -1 (it is about
    -1.18) the single draw lands below the range, so the fraction of
    natural hits is 0; [generateConstrainedInteger] clamps the draw to 0
    before [validateDistribution] tests it, and the reported rate is 1
    with [valid = true]. *)
Theorem validation_counts_clamped_draws (M : MathLib) :
  let config :=
    {| type := bell; center := 0; spread := 1; degreesOfFreedom := None |} in
  let r := Random.constant (1 # 2) in
  (sqrt M (- (2) * log M (1 # 2)) * cos M (2 * PI M * (1 # 2)) <= - (1))%Q ->
  exists raw natural res r1 r2 r3,
    drawInteger M 1 0 10 config r = Some (raw, r1) /\ raw < 0
    /\ generateConstrainedInteger M 1 0 10 config 1 r = Some (0, r1)
    /\ naturalSuccessRate M 1 config 0 10 1 r = Some (natural, r2)
    /\ (natural == 0)%Q
    /\ validateDistribution M 1 config 0 10 1 r = Some (res, r3)
    /\ valid res = true /\ (successRate res == 1)%Q.
Proof.
  intros config r Hz0.
  set (z0 := (sqrt M (- (2) * log M (1 # 2))
              * cos M (2 * PI M * (1 # 2)))%Q) in *.
  set (raw := round (z0 * stdDevOf 0 10 config + centerOf 0 10 config)).
  set (r1 := fun n : nat => r (S (S n))).
  assert (Hdraw : drawInteger M 1 0 10 config r = Some (raw, r1))
    by reflexivity.
  assert (Hraw : raw < 0).
  { unfold raw, round.
    apply Z.le_lt_trans with (Qfloor (- (19 # 2))); [|reflexivity].
    apply Qfloor_resp_le.
    assert (Hs : (stdDevOf 0 10 config == 10)%Q) by reflexivity.
    assert (Hc : (centerOf 0 10 config == 0)%Q) by reflexivity.
    rewrite Hs, Hc. lra. }
  assert (Hfair : Random.fair 0 r)
    by (apply constant_fair; reflexivity).
  destruct (validateDistribution_always_full M 1 0 ltac:(lia) config 0 10 1
              ltac:(discriminate) ltac:(lia) ltac:(lia) r Hfair)
    as (res & r3 & Hval & [Hvalid Hrate] & _).
  exists raw, (inject_Z 0 / inject_Z 1)%Q, res, r1, r1, r3.
  split; [exact Hdraw|]. split; [exact Hraw|]. split.
  - unfold generateConstrainedInteger. cbn [type config Z.to_nat Z.sub].
    change (Z.to_nat (1 - 1)) with 0%nat. cbn [retry]. unfold bind at 1 2.
    rewrite Hdraw.
    replace ((raw <? 0) || (raw >? 10)) with true
      by (symmetry; apply orb_true_intro; left; lia).
    unfold ret. f_equal. f_equal. lia.
  - split; [|split; [reflexivity|auto]].
    unfold naturalSuccessRate. change (Z.to_nat 1) with 1%nat.
    cbn [countNaturalHits]. unfold bind at 1 2. rewrite Hdraw.
    replace ((0 <=? raw) && (raw <=? 10)) with false
      by (symmetry; apply andb_false_intro1; lia).
    reflexivity.
Qed.

Lemma validation_counts_clamped_draws_witness :
  exists raw natural res r1 r2 r3,
    drawInteger exampleMath 1 0 10
      {| type := bell; center := 0; spread := 1; degreesOfFreedom := None |}
      (Random.constant (1 # 2)) = Some (raw, r1) /\ raw < 0
    /\ generateConstrainedInteger exampleMath 1 0 10
         {| type := bell; center := 0; spread := 1;
            degreesOfFreedom := None |} 1 (Random.constant (1 # 2))
       = Some (0, r1)
    /\ naturalSuccessRate exampleMath 1
         {| type := bell; center := 0; spread := 1;
            degreesOfFreedom := None |} 0 10 1 (Random.constant (1 # 2))
       = Some (natural, r2)
    /\ (natural == 0)%Q
    /\ validateDistribution exampleMath 1
         {| type := bell; center := 0; spread := 1;
            degreesOfFreedom := None |} 0 10 1 (Random.constant (1 # 2))
       = Some (res, r3)
    /\ valid res = true /\ (successRate res == 1)%Q.
Proof.
  apply (validation_counts_clamped_draws exampleMath).
  vm_compute. discriminate.
Defined.

End RandomnessFacts.

(* ================================================================== *)
(** * Properties of distributionPDF.ts                                  *)
(* ================================================================== *)

Module DistributionPDFFacts.

Import Randomness DistributionPDF.

(** ** The scaling factor *)

Lemma maxValue_floor data : (1 # 10000 <= maxValue data)%Q.
Proof.
  induction data as [|a data IH]; cbn [maxValue fold_right].
  - apply Qle_refl.
  - eapply Qle_trans; [exact IH|apply Q.le_max_r].
Qed.

Lemma maxValue_pos data : (0 < maxValue data)%Q.
Proof.
  eapply Qlt_le_trans; [|apply maxValue_floor]. reflexivity.
Qed.

Lemma maxValue_upper data v : In v data -> (v <= maxValue data)%Q.
Proof.
  induction data as [|a data IH]; intros Hin; [destruct Hin|].
  cbn [maxValue fold_right]. destruct Hin as [->|Hin].
  - apply Q.le_max_l.
  - eapply Qle_trans; [now apply IH|apply Q.le_max_r].
Qed.

Lemma maxValue_cases data :
  (maxValue data == 1 # 10000)%Q
  \/ exists w, In w data /\ (maxValue data == w)%Q.
Proof.
  induction data as [|a data IH]; [left; reflexivity|].
  cbn [maxValue fold_right]. fold (maxValue data).
  destruct (Q.max_spec a (maxValue data)) as [[Hlt E]|[Hle E]].
  - destruct IH as [IH|(w & Hw & IH)].
    + left. now rewrite E.
    + right. exists w. split; [now right|]. now rewrite E.
  - right. exists a. split; [now left|exact E].
Qed.

(** When some height reaches 0.0001 the scaling factor is one of the
    heights. *)
Lemma maxValue_attained data :
  (exists v, In v data /\ (1 # 10000 <= v)%Q) ->
  exists w, In w data /\ (maxValue data == w)%Q.
Proof.
  intros (v & Hin & Hv). destruct (maxValue_cases data) as [E|H]; [|exact H].
  exists v. split; [exact Hin|]. apply Qle_antisym.
  - now rewrite E.
  - now apply maxValue_upper.
Qed.

Lemma maxValue_small data :
  Forall (fun v => (v < 1 # 10000)%Q) data -> (maxValue data == 1 # 10000)%Q.
Proof.
  intros Hall. destruct (maxValue_cases data) as [E|(w & Hin & E)]; [exact E|].
  rewrite Forall_forall in Hall. specialize (Hall w Hin).
  pose proof (maxValue_floor data) as Hf. rewrite E in Hf.
  exfalso. apply (Qlt_irrefl w). eapply Qlt_le_trans; eauto.
Qed.

(** ** The maximum of a curve *)

Lemma fold_max_lub v rest m :
  (v <= m)%Q -> Forall (fun x => (x <= m)%Q) rest ->
  (fold_right Qmax v rest <= m)%Q.
Proof.
  intros Hv Hall. induction Hall as [|a rest Ha Hall IH]; [exact Hv|].
  cbn [fold_right]. now apply Q.max_lub.
Qed.

Lemma fold_max_lub_lt v rest m :
  (v < m)%Q -> Forall (fun x => (x < m)%Q) rest ->
  (fold_right Qmax v rest < m)%Q.
Proof.
  intros Hv Hall. induction Hall as [|a rest Ha Hall IH]; [exact Hv|].
  cbn [fold_right]. now apply Q.max_lub_lt.
Qed.

Lemma fold_max_upper v rest x :
  In x (v :: rest) -> (x <= fold_right Qmax v rest)%Q.
Proof.
  induction rest as [|a rest IH]; intros Hin; cbn [fold_right].
  - destruct Hin as [->|[]]. apply Qle_refl.
  - destruct Hin as [->|[->|Hin]].
    + eapply Qle_trans; [apply IH; now left|apply Q.le_max_r].
    + apply Q.le_max_l.
    + eapply Qle_trans; [apply IH; now right|apply Q.le_max_r].
Qed.

Lemma curveMax_is curve m :
  Forall (fun x => (x <= m)%Q) curve ->
  (exists x, In x curve /\ (x == m)%Q) -> (curveMax curve == m)%Q.
Proof.
  intros Hall (x & Hin & E). destruct curve as [|v rest]; [destruct Hin|].
  cbn [curveMax]. inversion Hall as [|? ? Hv Hrest]; subst.
  apply Qle_antisym.
  - now apply fold_max_lub.
  - rewrite <- E. now apply fold_max_upper.
Qed.

Lemma curveMax_below curve m :
  curve <> [] -> Forall (fun x => (x < m)%Q) curve -> (curveMax curve < m)%Q.
Proof.
  intros Hne Hall. destruct curve as [|v rest]; [congruence|].
  inversion Hall; subst. cbn [curveMax]. now apply fold_max_lub_lt.
Qed.

(** ** Heights are not negative *)

Lemma Qdiv_nonneg a b : (0 <= a)%Q -> (0 <= b)%Q -> (0 <= a / b)%Q.
Proof.
  intros Ha Hb. unfold Qdiv. apply Qmult_le_0_compat; [exact Ha|].
  now apply Qinv_le_0_compat.
Qed.

Lemma scale_nonneg spread : (0 <= Qmax (spread * (2 # 5)) (1 # 50))%Q.
Proof. eapply Qle_trans; [|apply Q.le_max_r]. discriminate. Qed.

Lemma dofOrDefault_pos config :
  nonDegenerate config -> 0 < dofOrDefault (degreesOfFreedom config).
Proof.
  intros (_ & _ & _ & _ & Hd). unfold dofOrDefault.
  destruct (degreesOfFreedom config) as [[|df|df]|]; lia.
Qed.

Section Heights.

Variable M : MathLib.
Hypothesis HM : nonnegMath M.

Lemma calculateUniformPDF_nonneg x center spread :
  (0 <= calculateUniformPDF x center spread)%Q.
Proof. unfold calculateUniformPDF. destruct (_ && _); discriminate. Qed.

Lemma calculateNormalPDF_nonneg x center spread :
  (0 <= calculateNormalPDF M x center spread)%Q.
Proof.
  destruct HM as (Hsqrt & Hexp & _). unfold calculateNormalPDF.
  apply Qmult_le_0_compat; [|apply Hexp].
  apply Qdiv_nonneg; [discriminate|].
  apply Qmult_le_0_compat; [apply scale_nonneg|apply Hsqrt].
Qed.

Lemma calculateTDistributionPDF_nonneg x center spread dof :
  0 < dof -> (0 <= calculateTDistributionPDF M x center spread dof)%Q.
Proof.
  intros Hdof. destruct HM as (Hsqrt & Hexp & Hpow).
  unfold calculateTDistributionPDF.
  apply Qdiv_nonneg; [|apply scale_nonneg].
  apply Qmult_le_0_compat.
  - apply Qdiv_nonneg; [apply Hexp|].
    apply Qmult_le_0_compat; [apply Hsqrt|apply Hexp].
  - apply Hpow.
    assert (Hdf : (0 <= inject_Z dof)%Q).
    { change 0%Q with (inject_Z 0). rewrite <- Zle_Qle. lia. }
    set (t := ((x - center) / Qmax (spread * (2 # 5)) (1 # 50))%Q).
    assert (Ht : (0 <= t * t)%Q) by nra.
    pose proof (Qdiv_nonneg _ _ Ht Hdf) as Hq.
    rewrite <- (Qplus_0_r 0). apply Qplus_le_compat; [discriminate|exact Hq].
Qed.

Lemma calculatePDF_nonneg type x center spread dof :
  0 < dofOrDefault dof -> (0 <= calculatePDF M type x center spread dof)%Q.
Proof.
  intros Hdof. unfold calculatePDF. destruct type.
  - apply calculateUniformPDF_nonneg.
  - apply calculateNormalPDF_nonneg.
  - apply calculateNormalPDF_nonneg.
  - now apply calculateTDistributionPDF_nonneg.
Qed.

Lemma rawCurve_nonneg config pointCount :
  nonDegenerate config ->
  Forall (fun v => (0 <= v)%Q) (rawCurve M config pointCount).
Proof.
  intros Hc. unfold rawCurve. apply Forall_forall. intros v Hin.
  apply in_map_iff in Hin. destruct Hin as (i & <- & _).
  apply calculatePDF_nonneg. now apply dofOrDefault_pos.
Qed.

End Heights.

Lemma rawCurve_length M config pointCount :
  length (rawCurve M config pointCount) = Z.to_nat pointCount.
Proof. unfold rawCurve. now rewrite length_map, length_seq. Qed.

(** ** C8: the rescaled curve *)

(** C8, as the code has it.  For a library without negative square roots,
    exponentials and powers, every non-degenerate config and every
    [pointCount >= 2], all values of [generatePDFCurve] are between 0 and
    1.  The maximum is 1 when one of the sampled heights is at least
    0.0001, the floor of the divisor; when all of them are below it the
    curve is divided by 0.0001 and its maximum stays below 1. *)
Theorem curve_rescaled_to_unit_maximum (M : MathLib)
  (config : DistributionConfig) (pointCount : Z) :
  nonnegMath M -> nonDegenerate config -> 2 <= pointCount ->
  let raw := rawCurve M config pointCount in
  let curve := generatePDFCurve M config pointCount in
  Forall (fun v => (0 <= v)%Q) curve
  /\ Forall (fun v => (v <= 1)%Q) curve
  /\ ((exists v, In v raw /\ (1 # 10000 <= v)%Q) -> (curveMax curve == 1)%Q)
  /\ (Forall (fun v => (v < 1 # 10000)%Q) raw -> (curveMax curve < 1)%Q).
Proof.
  intros HM Hc Hpc raw curve.
  pose proof (maxValue_pos raw) as Hpos.
  assert (Hle1 : Forall (fun v => (v <= 1)%Q) curve).
  { apply Forall_forall. intros y Hin. apply in_map_iff in Hin.
    destruct Hin as (v & <- & Hin). apply Qle_shift_div_r; [exact Hpos|].
    rewrite Qmult_1_l. now apply maxValue_upper. }
  split; [|split; [exact Hle1|split]].
  - apply Forall_forall. intros y Hin. apply in_map_iff in Hin.
    destruct Hin as (v & <- & Hin). apply Qle_shift_div_l; [exact Hpos|].
    rewrite Qmult_0_l.
    pose proof (rawCurve_nonneg M HM config pointCount Hc) as Hnn.
    rewrite Forall_forall in Hnn. now apply Hnn.
  - intros Hex. apply curveMax_is; [exact Hle1|].
    destruct (maxValue_attained raw Hex) as (w & Hin & E).
    exists (w / maxValue raw)%Q. split.
    + unfold curve, generatePDFCurve. fold raw.
      apply (in_map (fun v => (v / maxValue raw)%Q)). exact Hin.
    + assert (Hw : (0 < w)%Q) by (rewrite <- E; exact Hpos).
      rewrite E. unfold Qdiv. apply Qmult_inv_r.
      intros Hz. rewrite Hz in Hw. now apply Qlt_irrefl in Hw.
  - intros Hsmall. apply curveMax_below.
    + intros Hnil. apply (f_equal (@length Q)) in Hnil.
      unfold curve, generatePDFCurve in Hnil.
      rewrite length_map, rawCurve_length in Hnil. simpl in Hnil. lia.
    + apply Forall_forall. intros y Hin. apply in_map_iff in Hin.
      destruct Hin as (v & <- & Hin). fold raw.
      apply Qlt_shift_div_r; [exact Hpos|]. rewrite Qmult_1_l.
      rewrite Forall_forall in Hsmall.
      eapply Qlt_le_trans; [now apply Hsmall|apply maxValue_floor].
Qed.

Lemma exampleMath_nonneg : nonnegMath exampleMath.
Proof.
  split; [|split].
  - intros x. cbn [sqrt exampleMath].
    destruct (Qle_bool 0 x) eqn:E; [|apply Qle_refl].
    apply Qle_bool_iff in E. apply Qdiv_nonneg; [lra|discriminate].
  - intros x. cbn [exp exampleMath].
    destruct (Qle_bool 0 x) eqn:E.
    + apply Qle_bool_iff in E. lra.
    + apply Qdiv_nonneg; [discriminate|].
      destruct (Qlt_le_dec x 0) as [Hlt|Hle]; [lra|].
      apply Qle_bool_iff in Hle. congruence.
  - intros b p _. cbn [pow exampleMath].
    destruct (Qle_bool 0 (1 + p * (b - 1))) eqn:E; [|apply Qle_refl].
    now apply Qle_bool_iff in E.
Qed.

Lemma curve_rescaled_to_unit_maximum_witness :
  (curveMax
     (generatePDFCurve exampleMath
        {| type := bell; center := 1 # 2; spread := 1 # 2;
           degreesOfFreedom := None |} 3) == 1)%Q.
Proof.
  refine (proj1 (proj2 (proj2
            (curve_rescaled_to_unit_maximum exampleMath
               {| type := bell; center := 1 # 2; spread := 1 # 2;
                  degreesOfFreedom := None |} 3
               exampleMath_nonneg _ _))) _).
  - repeat split; discriminate.
  - lia.
  - eexists. split; [right; left; reflexivity|]. vm_compute. discriminate.
Defined.

(** C8, as stated, fails.  A uniform config with center 0.5 and spread 0.1
    is not degenerate, but with two points the curve is sampled at 0 and 1
    only, both outside [0.45, 0.55]: every height is 0, for any library,
    and so is the maximum.  The same happens at the default 101 points for
    center 0.555 and spread 0.005, which falls between two sample
    points. *)
Lemma uniform_curve_all_zero_counterexample :
  let narrow :=
    {| type := uniform; center := 1 # 2; spread := 1 # 10;
       degreesOfFreedom := None |} in
  let between :=
    {| type := uniform; center := 111 # 200; spread := 1 # 200;
       degreesOfFreedom := None |} in
  nonDegenerate narrow /\ nonDegenerate between
  /\ forall M,
       (curveMax (generatePDFCurve M narrow 2) == 0)%Q
       /\ (curveMax (generatePDFCurve M between 101) == 0)%Q
       /\ ~ (curveMax (generatePDFCurve M narrow 2) == 1)%Q.
Proof.
  split; [|split].
  - repeat split; discriminate.
  - repeat split; discriminate.
  - intros M. split; [|split]; vm_compute; congruence.
Qed.

End DistributionPDFFacts.


(* ================================================================== *)
(** * More facts about the string primitives                            *)
(* ================================================================== *)

Module JSMore.

Import JS JSFacts.

Lemma code_eqb_eq a b : code_eqb a b = true <-> a = b.
Proof. apply Z.eqb_eq. Qed.

Lemma eqb_eq s : forall t, eqb s t = true <-> s = t.
Proof.
  induction s as [|a s IH]; intros [|b t]; simpl; split; try easy.
  - intros H. apply andb_prop in H. destruct H as [Ha Hs].
    apply code_eqb_eq in Ha. apply IH in Hs. congruence.
  - intros [= -> ->]. rewrite code_eqb_refl. now apply IH.
Qed.

(** ** Searching *)

Lemma startsWith_head_differs p pat c s :
  p <> c -> startsWith (p :: pat) (c :: s) = false.
Proof.
  intros Hne. simpl. unfold code_eqb.
  destruct (Z.eqb_spec p c); [contradiction|reflexivity].
Qed.

(** A text that lacks the first character of the pattern does not
    include it. *)
Lemma includes_head_absent p pat s :
  ~ In p s -> includes (p :: pat) s = false.
Proof.
  induction s as [|c s IH]; intros Hno; [reflexivity|].
  cbn [includes]. rewrite startsWith_head_differs.
  - apply IH. intros Hin. apply Hno. now right.
  - intros ->. apply Hno. now left.
Qed.

Lemma includes_single c s : includes [c] s = true <-> In c s.
Proof.
  induction s as [|a s IH]; [simpl; split; [discriminate|intros []]|].
  cbn [includes startsWith]. rewrite andb_true_r, orb_true_iff, IH.
  rewrite code_eqb_eq. cbn [In]. split; intros [H|H]; auto.
Qed.

Lemma includes_single_false c s : includes [c] s = false <-> ~ In c s.
Proof.
  rewrite <- includes_single. destruct (includes [c] s); split; congruence.
Qed.

Lemma startsWith_app pat post : startsWith pat (pat ++ post) = true.
Proof.
  induction pat as [|c pat IH]; [reflexivity|].
  simpl. now rewrite code_eqb_refl.
Qed.

(** The first occurrence of a run of [x] after a text without [x] is
    where the text ends. *)
Lemma replaceFirst_run x n rep pre post :
  ~ In x pre ->
  replaceFirst (repeat x (S n)) rep (pre ++ repeat x (S n) ++ post)
  = pre ++ rep ++ post.
Proof.
  induction pre as [|c pre IH]; intros Hno.
  - cbn [app]. unfold replaceFirst.
    destruct (repeat x (S n) ++ post) as [|a l] eqn:E; [discriminate|].
    rewrite <- E, startsWith_app.
    rewrite skipn_app, skipn_whole, Nat.sub_diag. reflexivity.
  - change ((c :: pre) ++ repeat x (S n) ++ post)
      with (c :: (pre ++ repeat x (S n) ++ post)).
    cbn [replaceFirst]. cbn [repeat].
    rewrite startsWith_head_differs.
    + cbn [app]. f_equal. apply IH. intros Hin. apply Hno. now right.
    + intros ->. apply Hno. now left.
Qed.

(** ** Runs *)

Lemma matchRuns_from_repeat x n : forall run,
  (1 <= run + n)%nat ->
  matchRuns_from x run (repeat x n) = [repeat x (run + n)].
Proof.
  induction n as [|n IH]; intros run Hn; cbn [repeat matchRuns_from].
  - rewrite Nat.add_0_r. destruct run; [lia|reflexivity].
  - rewrite code_eqb_refl, IH by lia. do 2 f_equal. lia.
Qed.

(** ** Digits *)

Lemma digits_fuel_chars radix fuel : forall n c,
  1 < radix -> 0 <= n -> In c (digits_fuel radix fuel n) ->
  exists d, 0 <= d < radix /\ c = digitChar d.
Proof.
  induction fuel as [|f IH]; intros n c Hr Hn; cbn [digits_fuel]; [easy|].
  destruct (Z.ltb_spec n radix) as [Hlt|Hge].
  - intros [<-|[]]. exists n. split; [lia|reflexivity].
  - intros Hin. apply in_app_or in Hin. destruct Hin as [Hin|[<-|[]]].
    + apply (IH (n / radix) c Hr); [apply Z.div_pos; lia|exact Hin].
    + exists (n mod radix). split; [apply Z.mod_pos_bound; lia|reflexivity].
Qed.

Lemma digitChar_not_X d : 0 <= d < 16 -> digitChar d <> 88.
Proof. unfold digitChar. intros H. destruct (d <? 10) eqn:E; lia. Qed.

Lemma digitChar_hex d : 0 <= d < 16 -> isFormSafe (digitChar d) = true.
Proof.
  unfold digitChar, isFormSafe. intros H. destruct (d <? 10) eqn:E; lia.
Qed.

(** The decimal and the hexadecimal form of an integer hold no X. *)
Lemma toString_no_X v : ~ In 88 (toString v).
Proof.
  unfold toString, digits. intros Hin.
  destruct (v <? 0) eqn:E.
  - destruct Hin as [Hin|Hin]; [discriminate|].
    apply digits_fuel_chars in Hin; [|lia|lia].
    destruct Hin as (d & Hd & Hc).
    symmetry in Hc. revert Hc. apply digitChar_not_X. lia.
  - apply digits_fuel_chars in Hin; [|lia|lia].
    destruct Hin as (d & Hd & Hc).
    symmetry in Hc. revert Hc. apply digitChar_not_X. lia.
Qed.

Lemma toStringHexUpper_no_X v : ~ In 88 (toStringHexUpper v).
Proof.
  unfold toStringHexUpper, digits. intros Hin.
  destruct (v <? 0) eqn:E.
  - destruct Hin as [Hin|Hin]; [discriminate|].
    apply digits_fuel_chars in Hin; [|lia|lia].
    destruct Hin as (d & Hd & Hc).
    symmetry in Hc. revert Hc. now apply digitChar_not_X.
  - apply digits_fuel_chars in Hin; [|lia|lia].
    destruct Hin as (d & Hd & Hc).
    symmetry in Hc. revert Hc. now apply digitChar_not_X.
Qed.

Lemma padStart_in c s n fill :
  In c (padStart s n fill) -> c = fill \/ In c s.
Proof.
  unfold padStart. intros Hin. apply in_app_or in Hin.
  destruct Hin as [Hin|Hin]; [left; now apply repeat_spec in Hin|now right].
Qed.

Lemma padStart_length s n fill :
  length (padStart s n fill) = Nat.max n (length s).
Proof. unfold padStart. rewrite length_app, repeat_length. lia. Qed.

(** ** Reading a number back *)

Lemma readDigits_zeros k : forall seen s,
  readDigits 0 seen (repeat 48 k ++ s)
  = readDigits 0 (seen || (0 <? k)%nat) s.
Proof.
  induction k as [|k IH]; intros seen s.
  - simpl. now rewrite orb_false_r.
  - cbn [repeat app readDigits]. change (isDigit 48) with true. cbv iota.
    change (10 * 0 + (48 - 48)) with 0. rewrite IH.
    now rewrite orb_true_r.
Qed.

Lemma digitChar_value d : 0 <= d < 10 -> digitChar d - 48 = d.
Proof. unfold digitChar. intros H. destruct (d <? 10) eqn:E; lia. Qed.

Lemma digits_fuel_S radix f n :
  digits_fuel radix (S f) n
  = if n <? radix then [digitChar n]
    else digits_fuel radix f (n / radix) ++ [digitChar (n mod radix)].
Proof. reflexivity. Qed.

Lemma readDigits_digits f : forall v acc seen s,
  0 <= v < 2 ^ Z.of_nat (S f) ->
  exists k,
    readDigits acc seen (digits_fuel 10 (S f) v ++ s)
    = readDigits (acc * 10 ^ Z.of_nat k + v) true s.
Proof.
  assert (Hone : forall v acc seen s, 0 <= v < 10 ->
            readDigits acc seen ([digitChar v] ++ s)
            = readDigits (acc * 10 ^ Z.of_nat 1 + v) true s).
  { intros v acc seen s Hv. cbn [app readDigits].
    rewrite (JSFacts.digitChar_decimal v) by lia.
    rewrite digitChar_value by lia. f_equal.
    change (10 ^ Z.of_nat 1) with 10. lia. }
  induction f as [|f IH]; intros v acc seen s Hv;
    rewrite digits_fuel_S; destruct (Z.ltb_spec v 10) as [Hlt|Hge].
  - exists 1%nat. apply Hone. lia.
  - change (2 ^ Z.of_nat 1) with 2 in Hv. lia.
  - exists 1%nat. apply Hone. lia.
  - assert (Hv' : 0 <= v / 10 < 2 ^ Z.of_nat (S f)).
    { split; [apply Z.div_pos; lia|].
      apply Z.div_lt_upper_bound; [lia|].
      replace (Z.of_nat (S (S f))) with (Z.succ (Z.of_nat (S f))) in Hv
        by lia.
      rewrite Z.pow_succ_r in Hv by lia.
      assert (0 < 2 ^ Z.of_nat (S f)) by (apply Z.pow_pos_nonneg; lia).
      lia. }
    destruct (IH (v / 10) acc seen ([digitChar (v mod 10)] ++ s) Hv')
      as (k & Hk).
    exists (S k). rewrite <- app_assoc, Hk.
    assert (Hm : 0 <= v mod 10 < 10) by (apply Z.mod_pos_bound; lia).
    rewrite Hone by exact Hm. f_equal.
    replace (Z.of_nat (S k)) with (Z.succ (Z.of_nat k)) by lia.
    rewrite Z.pow_succ_r by lia. change (10 ^ Z.of_nat 1) with 10.
    pose proof (Z.div_mod v 10 ltac:(lia)). lia.
Qed.

Lemma digits_in_fuel v : 0 <= v -> v < 2 ^ Z.of_nat (S (Z.to_nat (Z.log2 v))).
Proof.
  intros Hv. destruct (Z.eq_dec v 0) as [->|Hnz].
  - apply Z.pow_pos_nonneg; lia.
  - replace (Z.of_nat (S (Z.to_nat (Z.log2 v)))) with (Z.succ (Z.log2 v)).
    + apply Z.log2_spec. lia.
    + pose proof (Z.log2_nonneg v). lia.
Qed.

Lemma readDigits_toString v seen :
  0 <= v -> readDigits 0 seen (digits 10 v) = Some v.
Proof.
  intros Hv. unfold digits.
  destruct (readDigits_digits _ v 0 seen [] (conj Hv (digits_in_fuel v Hv)))
    as (k & Hk).
  rewrite app_nil_r in Hk. rewrite Hk. reflexivity.
Qed.

Lemma digits_head_not_space v :
  0 <= v -> exists c rest, digits 10 v = c :: rest /\ isDigit c = true.
Proof.
  intros Hv.
  destruct (digits_decimal v (S (Z.to_nat v))) as [_ Hd].
  - split; [lia|].
    apply Z.lt_le_trans with (2 ^ Z.of_nat (S (Z.to_nat v))).
    + replace (Z.of_nat (S (Z.to_nat v))) with (Z.succ v) by lia.
      rewrite Z.pow_succ_r by lia.
      pose proof (Z.pow_gt_lin_r 2 v ltac:(lia) Hv). lia.
    + apply Z.pow_le_mono_l. lia.
  - lia.
  - pose proof (readDigits_toString v false Hv) as Hr.
    destruct (digits 10 v) as [|c rest]; [discriminate|].
    exists c, rest. split; [reflexivity|].
    cbn [forallb] in Hd. now apply andb_prop in Hd.
Qed.

Lemma isDigit_not_space c : isDigit c = true -> isStrWhiteSpace c = false.
Proof. unfold isDigit, isStrWhiteSpace. lia. Qed.

(** [parseInt] reads back what [toString] printed, also behind a pad of
    zeros. *)
Lemma parseInt_padded v n :
  0 <= v -> parseInt (padStart (toString v) n 48) = Some v.
Proof.
  intros Hv. unfold toString. destruct (Z.ltb_spec v 0); [lia|].
  unfold padStart.
  destruct (digits_head_not_space v Hv) as (c & rest & E & Hc).
  unfold parseInt.
  assert (Ht : forall s, (exists a l, s = a :: l /\ isDigit a = true) ->
               match trimStart s with
               | [] => None
               | c0 :: s' =>
                   if c0 =? 45 then option_map Z.opp (readDigits 0 false s')
                   else if c0 =? 43 then readDigits 0 false s'
                   else readDigits 0 false (c0 :: s')
               end = readDigits 0 false s).
  { intros s (a & l & -> & Ha). cbn [trimStart].
    rewrite (isDigit_not_space a Ha).
    apply isDigit_range in Ha.
    destruct (Z.eqb_spec a 45); [lia|]. destruct (Z.eqb_spec a 43); [lia|].
    reflexivity. }
  rewrite Ht.
  - rewrite readDigits_zeros. now apply readDigits_toString.
  - destruct (n - length (digits 10 v))%nat as [|k].
    + exists c, rest. now rewrite E.
    + exists 48, (repeat 48 k ++ digits 10 v). now split.
Qed.

Lemma parseInt_toString v : parseInt (toString v) = Some v.
Proof.
  destruct (Z.ltb_spec v 0) as [Hneg|Hpos].
  - unfold toString. destruct (Z.ltb_spec v 0); [|lia].
    unfold parseInt. cbn [trimStart].
    change (isStrWhiteSpace 45) with false. cbv iota.
    change (45 =? 45) with true. cbv iota.
    rewrite readDigits_toString by lia. simpl. f_equal. lia.
  - pose proof (parseInt_padded v 0 Hpos) as H.
    unfold padStart in H. now rewrite Nat.sub_0_l in H.
Qed.

(** ** Splitting *)

Lemma split_from_no_sep_whole sep s : forall cur,
  ~ In sep s -> split_from sep cur s = [rev cur ++ s].
Proof.
  induction s as [|c s IH]; intros cur Hno; cbn [split_from].
  - now rewrite app_nil_r.
  - unfold code_eqb. destruct (Z.eqb_spec c sep) as [->|Hne].
    + exfalso. apply Hno. now left.
    + rewrite IH by (intros Hin; apply Hno; now right).
      cbn [rev]. now rewrite <- app_assoc.
Qed.

Lemma split_from_app sep a b : forall cur,
  ~ In sep a ->
  split_from sep cur (a ++ sep :: b) = (rev cur ++ a) :: split_from sep [] b.
Proof.
  induction a as [|c a IH]; intros cur Hno; cbn [app split_from].
  - rewrite code_eqb_refl. now rewrite app_nil_r.
  - unfold code_eqb. destruct (Z.eqb_spec c sep) as [->|Hne].
    + exfalso. apply Hno. now left.
    + rewrite IH by (intros Hin; apply Hno; now right).
      cbn [rev]. now rewrite <- app_assoc.
Qed.

(** Two texts without the separator, joined by it, split into the two. *)
Lemma split_pair sep a b :
  ~ In sep a -> ~ In sep b -> split sep (a ++ sep :: b) = [a; b].
Proof.
  intros Ha Hb. unfold split.
  rewrite split_from_app by exact Ha.
  now rewrite split_from_no_sep_whole by exact Hb.
Qed.

Lemma digits_no_minus v : 0 <= v -> ~ In 45 (toString v).
Proof.
  intros Hv Hin. unfold toString in Hin.
  destruct (Z.ltb_spec v 0); [lia|].
  apply digits_fuel_chars in Hin; [|lia|lia].
  destruct Hin as (d & Hd & Hc). unfold digitChar in Hc.
  destruct (d <? 10); lia.
Qed.

(** ** The number of digits *)

Lemma digits_fuel_length_lower f : forall v k,
  0 <= v < 2 ^ Z.of_nat (S f) -> 10 ^ Z.of_nat k <= v ->
  (k < length (digits_fuel 10 (S f) v))%nat.
Proof.
  induction f as [|f IH]; intros v k Hv Hk;
    rewrite digits_fuel_S; destruct (Z.ltb_spec v 10) as [Hlt|Hge].
  - destruct k as [|k]; [simpl; lia|].
    replace (Z.of_nat (S k)) with (Z.succ (Z.of_nat k)) in Hk by lia.
    rewrite Z.pow_succ_r in Hk by lia.
    assert (0 < 10 ^ Z.of_nat k) by (apply Z.pow_pos_nonneg; lia). lia.
  - change (2 ^ Z.of_nat 1) with 2 in Hv. lia.
  - destruct k as [|k]; [simpl; lia|].
    replace (Z.of_nat (S k)) with (Z.succ (Z.of_nat k)) in Hk by lia.
    rewrite Z.pow_succ_r in Hk by lia.
    assert (0 < 10 ^ Z.of_nat k) by (apply Z.pow_pos_nonneg; lia). lia.
  - rewrite length_app. cbn [length]. destruct k as [|k]; [lia|].
    assert (Hv' : 0 <= v / 10 < 2 ^ Z.of_nat (S f)).
    { split; [apply Z.div_pos; lia|].
      apply Z.div_lt_upper_bound; [lia|].
      replace (Z.of_nat (S (S f))) with (Z.succ (Z.of_nat (S f))) in Hv
        by lia.
      rewrite Z.pow_succ_r in Hv by lia.
      assert (0 < 2 ^ Z.of_nat (S f)) by (apply Z.pow_pos_nonneg; lia).
      lia. }
    assert (Hk' : 10 ^ Z.of_nat k <= v / 10).
    { apply Z.div_le_lower_bound; [lia|].
      replace (Z.of_nat (S k)) with (Z.succ (Z.of_nat k)) in Hk by lia.
      now rewrite Z.pow_succ_r in Hk by lia. }
    pose proof (IH (v / 10) k Hv' Hk'). lia.
Qed.

(** A number from [10^k] to [10^(k+1) - 1] prints with [k + 1] digits. *)
Lemma toString_length v k :
  10 ^ Z.of_nat k <= v < 10 ^ Z.of_nat (S k) ->
  length (toString v) = S k.
Proof.
  intros Hv.
  assert (H0 : 0 < 10 ^ Z.of_nat k) by (apply Z.pow_pos_nonneg; lia).
  unfold toString. destruct (Z.ltb_spec v 0); [lia|].
  destruct (digits_decimal v (S k)) as [Hup _]; [lia|lia|].
  assert (Hv0 : 0 <= v) by lia.
  pose proof (digits_fuel_length_lower (Z.to_nat (Z.log2 v)) v k
                (conj Hv0 (digits_in_fuel v Hv0)) (proj1 Hv)) as Hlow.
  unfold digits in *. lia.
Qed.

Lemma toString_length_one v : 0 <= v < 10 -> length (toString v) = 1%nat.
Proof.
  intros Hv. unfold toString, digits. destruct (Z.ltb_spec v 0); [lia|].
  rewrite digits_fuel_S. now destruct (Z.ltb_spec v 10); [|lia].
Qed.

End JSMore.

(* ================================================================== *)
(** * More properties of search-settings.ts                             *)
(* ================================================================== *)

Module SearchSettingsMore.

Import JS JSFacts JSMore SearchSettings SearchSettingsFacts.

(** ** The replacement text of a run *)

Lemma fillRun_renderRun cs result r xGroup :
  fillRun cs (result, r) xGroup
  = (replaceFirst xGroup (fst (renderRun cs (length xGroup) r)) result,
     snd (renderRun cs (length xGroup) r)).
Proof.
  unfold fillRun, renderRun.
  destruct (resolveConstraints (length xGroup) cs) as [[min max] kind].
  now destruct (getRandomInt min max r).
Qed.

Lemma renderRun_source cs n r :
  snd (renderRun cs n r) = fun k => r (S k).
Proof.
  unfold renderRun. now destruct (resolveConstraints n cs) as [[min max] kind].
Qed.

Lemma unit_interval_tail r :
  Random.unit_interval r -> Random.unit_interval (fun k => r (S k)).
Proof. intros H n. apply H. Qed.

Lemma applyConstraint_kind acc c :
  eqb (ctype c) (str "letter-range") = false ->
  snd acc <> letter -> snd (applyConstraint acc c) <> letter.
Proof.
  intros Hc Hacc. unfold applyConstraint. rewrite Hc.
  destruct (eqb (ctype c) (str "range"));
    [destruct (parseRangeConstraint (cvalue c)) as [[? ?]|]; easy|].
  destruct (eqb (ctype c) (str "hex-range"));
    [destruct (parseRangeConstraint (cvalue c)) as [[? ?]|]; easy|easy].
Qed.

Lemma resolveConstraints_kind n cs :
  noLetterRange cs -> snd (resolveConstraints n cs) <> letter.
Proof.
  unfold resolveConstraints.
  assert (H0 : snd (0, 10 ^ Z.of_nat n - 1, number) <> letter) by easy.
  revert H0. generalize (0, 10 ^ Z.of_nat n - 1, number).
  induction cs as [|c cs IH]; intros acc Hacc Hcs; [exact Hacc|].
  inversion Hcs; subst. cbn [fold_left].
  apply IH; [now apply applyConstraint_kind|assumption].
Qed.

(** Without a letter range no replacement text holds an X. *)
Lemma renderRun_no_X cs n r :
  noLetterRange cs -> ~ In 88 (fst (renderRun cs n r)).
Proof.
  intros Hcs. pose proof (resolveConstraints_kind n cs Hcs) as Hk.
  unfold renderRun.
  destruct (resolveConstraints n cs) as [[min max] kind]. cbn [snd] in Hk.
  destruct (getRandomInt min max r) as [v r']. cbn [fst].
  intros Hin. apply padStart_in in Hin. destruct Hin as [Hin|Hin]; [lia|].
  destruct kind; cbn [render] in Hin.
  - now apply toString_no_X in Hin.
  - congruence.
  - now apply toStringHexUpper_no_X in Hin.
Qed.

(** ** The loop over the runs fills each run in place *)

Lemma repeat_shift (x : Z) n s : repeat x n ++ x :: s = repeat x (S n) ++ s.
Proof. induction n as [|n IH]; simpl; [reflexivity|]. now rewrite IH. Qed.

Lemma fold_fillRun_in_place cs :
  (forall n r, ~ In 88 (fst (renderRun cs n r))) ->
  forall s pre run r,
    ~ In 88 pre ->
    fold_left (fillRun cs) (matchRuns_from 88 run s)
              (pre ++ repeat 88 run ++ s, r)
    = (pre ++ fst (fillInPlace_from cs run s r),
       snd (fillInPlace_from cs run s r)).
Proof.
  intros Hno. induction s as [|c s IH]; intros pre run r Hpre.
  - cbn [matchRuns_from fillInPlace_from]. destruct run as [|run].
    + reflexivity.
    + cbn [fold_left]. rewrite fillRun_renderRun, repeat_length.
      rewrite replaceFirst_run by exact Hpre. now rewrite app_nil_r.
  - cbn [matchRuns_from fillInPlace_from].
    destruct (code_eqb c 88) eqn:Ec.
    + apply code_eqb_eq in Ec. subst c.
      rewrite repeat_shift. now apply IH.
    + assert (Hc : c <> 88).
      { intros ->. now rewrite code_eqb_refl in Ec. }
      destruct run as [|run].
      * cbn [repeat app].
        specialize (IH (pre ++ [c]) 0%nat r). cbn [repeat app] in IH.
        rewrite <- !app_assoc in IH. cbn [app] in IH.
        rewrite IH.
        -- now destruct (fillInPlace_from cs 0 s r).
        -- intros Hin. apply in_app_or in Hin.
           destruct Hin as [Hin|[Hin|[]]]; [auto|congruence].
      * cbn [fold_left]. rewrite fillRun_renderRun, repeat_length.
        rewrite replaceFirst_run by exact Hpre.
        destruct (renderRun cs (S run) r) as [text r1] eqn:Er.
        cbn [fst snd].
        specialize (IH (pre ++ text ++ [c]) 0%nat r1).
        cbn [repeat app] in IH. rewrite <- !app_assoc in IH.
        cbn [app] in IH. etransitivity; [apply IH|].
        -- intros Hin. apply in_app_or in Hin. destruct Hin as [Hin|Hin];
             [auto|].
           apply in_app_or in Hin. destruct Hin as [Hin|[Hin|[]]];
             [|congruence].
           apply (Hno (S run) r). now rewrite Er.
        -- now destruct (fillInPlace_from cs 0 s r1).
Qed.

Lemma fillInPlace_from_plain cs s r :
  ~ In 88 s -> fillInPlace_from cs 0 s r = (s, r).
Proof.
  induction s as [|c s IH]; intros Hno; [reflexivity|].
  cbn [fillInPlace_from].
  destruct (code_eqb c 88) eqn:Ec.
  - apply code_eqb_eq in Ec. exfalso. apply Hno. now left.
  - rewrite IH; [reflexivity|]. intros Hin. apply Hno. now right.
Qed.

Lemma fillDateTokens_nil d : fillDateTokens d [] = [].
Proof. reflexivity. Qed.

Lemma fill_in_place_when cs specifier p d r :
  constraints p = cs ->
  (forall n r0, ~ In 88 (fst (renderRun cs n r0))) ->
  fillSpecifierTemplate specifier p d r
  = fillInPlace cs (fillDateTokens d specifier) r.
Proof.
  intros Hp Hno. unfold fillSpecifierTemplate, fillInPlace. rewrite Hp.
  destruct specifier as [|c0 s0]; [reflexivity|].
  set (result := fillDateTokens d (c0 :: s0)).
  destruct (includes [88] result) eqn:Ex.
  - pose proof (fold_fillRun_in_place cs Hno result [] 0%nat r
                  (fun H => H)) as H.
    cbn [repeat app] in H. unfold matchRuns.
    etransitivity; [exact H|].
    now destruct (fillInPlace_from cs 0 result r).
  - apply includes_single_false in Ex.
    now rewrite fillInPlace_from_plain.
Qed.

(** X1.  For a pattern without a letter range, [fillSpecifierTemplate] is
    the in-place filling of the text that the date and time passes leave:
    every run of X's is replaced where it stands by the replacement text
    drawn for it, in order from the left, and nothing else changes. *)
Theorem fill_is_in_place (specifier : jsstring) (p : SearchPattern)
  (d : Date) (r : Random.source) :
  noLetterRange (constraints p) ->
  fillSpecifierTemplate specifier p d r
  = fillInPlace (constraints p) (fillDateTokens d specifier) r.
Proof.
  intros Hcs. unfold fillSpecifierTemplate, fillInPlace.
  destruct specifier as [|c0 s0]; [reflexivity|].
  set (result := fillDateTokens d (c0 :: s0)).
  destruct (includes [88] result) eqn:Ex.
  - pose proof (fold_fillRun_in_place (constraints p)
                  (fun n r0 => renderRun_no_X _ n r0 Hcs)
                  result [] 0%nat r (fun H => H)) as H.
    cbn [repeat app] in H. unfold matchRuns.
    etransitivity; [exact H|].
    now destruct (fillInPlace_from (constraints p) 0 result r).
  - apply includes_single_false in Ex.
    now rewrite fillInPlace_from_plain.
Qed.

Lemma fill_is_in_place_witness :
  fillSpecifierTemplate (str "IMG_XXXX-XX")
    (mkPattern [] None [hexRangeOf "10-255"]) (mkDate 2024 3 15)
    (Random.from_list [(1 # 2)%Q] (1 # 4)%Q)
  = fillInPlace [hexRangeOf "10-255"]
      (fillDateTokens (mkDate 2024 3 15) (str "IMG_XXXX-XX"))
      (Random.from_list [(1 # 2)%Q] (1 # 4)%Q).
Proof.
  apply (fill_is_in_place (str "IMG_XXXX-XX")
           (mkPattern [] None [hexRangeOf "10-255"])).
  repeat constructor.
Defined.

Lemma fillInPlace_from_no_X cs :
  (forall n r, ~ In 88 (fst (renderRun cs n r))) ->
  forall s run r, ~ In 88 (fst (fillInPlace_from cs run s r)).
Proof.
  intros Hno. induction s as [|c s IH]; intros run r;
    cbn [fillInPlace_from].
  - destruct run; [intros []|apply Hno].
  - destruct (code_eqb c 88) eqn:Ec; [apply IH|].
    assert (Hc : c <> 88).
    { intros ->. now rewrite code_eqb_refl in Ec. }
    destruct run as [|run].
    + specialize (IH 0%nat r).
      destruct (fillInPlace_from cs 0 s r) as [rest r']. cbn [fst] in *.
      intros [Hin|Hin]; [congruence|auto].
    + pose proof (Hno (S run) r) as Ht.
      destruct (renderRun cs (S run) r) as [text r1]. cbn [fst] in Ht.
      specialize (IH 0%nat r1).
      destruct (fillInPlace_from cs 0 s r1) as [rest r2]. cbn [fst] in *.
      intros Hin. apply in_app_or in Hin.
      destruct Hin as [Hin|[Hin|Hin]]; [auto|congruence|auto].
Qed.

(** X2.  For a pattern without a letter range, no X is left in the filled
    text, whatever the specifier, the date and the random source. *)
Theorem filled_text_has_no_X (specifier : jsstring) (p : SearchPattern)
  (d : Date) (r : Random.source) :
  noLetterRange (constraints p) ->
  ~ In 88 (fst (fillSpecifierTemplate specifier p d r)).
Proof.
  intros Hcs.
  assert (Hno : forall n r0, ~ In 88 (fst (renderRun (constraints p) n r0)))
    by (intros n r0; now apply renderRun_no_X).
  rewrite (fill_in_place_when (constraints p) specifier p d r eq_refl Hno).
  now apply fillInPlace_from_no_X.
Qed.

Lemma filled_text_has_no_X_witness :
  ~ In 88 (fst (fillSpecifierTemplate (str "XX Month XXXX")
                  (mkPattern [] None [rangeOf "5-7"; hexRangeOf "x"])
                  (mkDate 2024 3 15) (Random.constant (1 # 2)))).
Proof.
  apply filled_text_has_no_X. repeat constructor.
Defined.

(** ** Filling with the default range *)

Lemma renderRun_default cs n r :
  allRejected cs ->
  renderRun cs n r
  = (padStart (toString (fst (getRandomInt 0 (10 ^ Z.of_nat n - 1) r))) n 48,
     fun k => r (S k)).
Proof.
  intros Hcs. unfold renderRun.
  rewrite resolveConstraints_all_malformed by exact Hcs.
  reflexivity.
Qed.

Lemma renderRun_default_digits cs n r :
  allRejected cs -> Random.unit_interval r ->
  length (fst (renderRun cs (S n) r)) = S n
  /\ forallb isDigit (fst (renderRun cs (S n) r)) = true.
Proof.
  intros Hcs Hr. rewrite renderRun_default by exact Hcs. cbn [fst].
  assert (Hp : 0 < 10 ^ Z.of_nat (S n)) by (apply Z.pow_pos_nonneg; lia).
  pose proof (getRandomInt_range 0 (10 ^ Z.of_nat (S n) - 1) r Hr
                ltac:(lia)) as Hv.
  apply padded_decimal; lia.
Qed.

Lemma renderRun_default_no_X cs n r :
  allRejected cs -> ~ In 88 (fst (renderRun cs n r)).
Proof.
  intros Hcs. rewrite renderRun_default by exact Hcs. cbn [fst].
  intros Hin. apply padStart_in in Hin. destruct Hin as [Hin|Hin]; [lia|].
  now apply toString_no_X in Hin.
Qed.

Lemma digits_for_run n : forall text,
  length text = n -> forallb isDigit text = true ->
  Forall2 (fun a b => if a =? 88 then isDigit b = true else b = a)
          (repeat 88 n) text.
Proof.
  induction n as [|n IH]; intros [|c text] Hl Hd; try discriminate.
  - constructor.
  - cbn [forallb] in Hd. apply andb_prop in Hd. destruct Hd as [Hc Hd].
    cbn [repeat]. constructor; [exact Hc|].
    apply IH; [now injection Hl|exact Hd].
Qed.

Lemma fillInPlace_from_shape cs :
  allRejected cs ->
  forall s run r,
    Random.unit_interval r ->
    Forall2 (fun a b => if a =? 88 then isDigit b = true else b = a)
            (repeat 88 run ++ s) (fst (fillInPlace_from cs run s r)).
Proof.
  intros Hcs. induction s as [|c s IH]; intros run r Hr;
    cbn [fillInPlace_from].
  - rewrite app_nil_r. destruct run as [|run]; [constructor|].
    destruct (renderRun_default_digits cs run r Hcs Hr).
    now apply digits_for_run.
  - destruct (code_eqb c 88) eqn:Ec.
    + apply code_eqb_eq in Ec. subst c. rewrite repeat_shift. now apply IH.
    + destruct run as [|run].
      * specialize (IH 0%nat r Hr).
        destruct (fillInPlace_from cs 0 s r) as [rest r']. cbn [fst] in *.
        cbn [repeat app]. constructor; [|exact IH].
        unfold code_eqb in Ec. now rewrite Ec.
      * destruct (renderRun_default_digits cs run r Hcs Hr) as [Hl Hd].
        pose proof (renderRun_source cs (S run) r) as Hs.
        destruct (renderRun cs (S run) r) as [text r1]. cbn [fst snd] in *.
        subst r1.
        specialize (IH 0%nat _ (unit_interval_tail r Hr)).
        destruct (fillInPlace_from cs 0 s (fun k => r (S k))) as [rest r2].
        cbn [fst] in *. apply Forall2_app; [now apply digits_for_run|].
        constructor; [|exact IH].
        unfold code_eqb in Ec. now rewrite Ec.
Qed.

(** X3.  When no constraint of the pattern is accepted and no run of X's
    is longer than 15 (up to there [Math.pow(10, xCount) - 1] is exact and
    prints in plain digits), the filled text has the shape of the text
    that the date and time passes leave: the same length, a decimal digit
    in place of every X, and every other character unchanged. *)
Theorem default_fill_keeps_shape (specifier : jsstring) (p : SearchPattern)
  (d : Date) (r : Random.source) :
  allRejected (constraints p) ->
  includes (repeat 88 16) (fillDateTokens d specifier) = false ->
  Random.unit_interval r ->
  Forall2 (fun a b => if a =? 88 then isDigit b = true else b = a)
          (fillDateTokens d specifier)
          (fst (fillSpecifierTemplate specifier p d r)).
Proof.
  intros Hcs _ Hr.
  rewrite (fill_in_place_when (constraints p)); [|reflexivity|].
  - now apply (fillInPlace_from_shape _ Hcs _ 0%nat r).
  - intros n r0. now apply renderRun_default_no_X.
Qed.

Lemma default_fill_keeps_shape_witness :
  Forall2 (fun a b => if a =? 88 then isDigit b = true else b = a)
          (fillDateTokens (mkDate 2024 3 15) (str "DSC_XXXX (XX) YYYY"))
          (fst (fillSpecifierTemplate (str "DSC_XXXX (XX) YYYY")
                  (mkPattern [] None [rangeOf "7"]) (mkDate 2024 3 15)
                  (Random.constant (1 # 3)))).
Proof.
  apply default_fill_keeps_shape.
  - repeat constructor.
  - reflexivity.
  - apply constant_unit_interval; [discriminate|reflexivity].
Defined.

(** ** A specifier that is one run *)

Lemma fillDateTokens_run d n : fillDateTokens d (repeat 88 n) = repeat 88 n.
Proof.
  apply fillDateTokens_plain.
  assert (Hno : forall c, c <> 88 -> ~ In c (repeat 88 n)).
  { intros c Hc Hin. apply repeat_spec in Hin. congruence. }
  cbn [forallb dateTokenNames map].
  change (str "YYYY") with (89 :: str "YYY").
  change (str "Month") with (77 :: str "onth").
  change (str "Mon") with (77 :: str "on").
  change (str "MM") with (77 :: str "M").
  change (str "DD") with (68 :: str "D").
  change (str "HH") with (72 :: str "H").
  change (str "mm") with (109 :: str "m").
  change (str "SS") with (83 :: str "S").
  rewrite !includes_head_absent by (apply Hno; lia). reflexivity.
Qed.

(** A specifier of [n >= 1] X's and nothing else is filled with the
    replacement text of its one run. *)
Lemma fill_single_run n p d r :
  fillSpecifierTemplate (repeat 88 (S n)) p d r
  = renderRun (constraints p) (S n) r.
Proof.
  unfold fillSpecifierTemplate. cbn [repeat].
  change (88 :: repeat 88 n) with (repeat 88 (S n)).
  rewrite fillDateTokens_run.
  assert (Hx : includes [88] (repeat 88 (S n)) = true)
    by (apply includes_single; now left).
  rewrite Hx. unfold matchRuns. rewrite matchRuns_from_repeat by lia.
  cbn [fold_left Nat.add]. rewrite fillRun_renderRun, repeat_length.
  rewrite replaceFirst_whole by discriminate.
  now destruct (renderRun (constraints p) (S n) r).
Qed.

(** ** Range constraints, written and read *)

Lemma parseRangeConstraint_rangeValue (min max : Z) :
  0 <= min -> 0 <= max ->
  parseRangeConstraint (rangeValue min max) = Some (min, max).
Proof.
  intros Hmin Hmax. unfold parseRangeConstraint, rangeValue.
  cbn [app]. rewrite split_pair by now apply digits_no_minus.
  now rewrite !parseInt_toString.
Qed.

(** X4.  [parseRangeConstraint] reads back the two bounds of a value
    written as [`${min}-${max}`] with bounds that are not negative and not
    above 2^53 - 1, the largest integer that the code holds and prints
    exactly. *)
Theorem parseRangeConstraint_reads_bounds (min max : Z) :
  0 <= min <= 9007199254740991 -> 0 <= max <= 9007199254740991 ->
  parseRangeConstraint (rangeValue min max) = Some (min, max).
Proof.
  intros [Hmin _] [Hmax _]. unfold parseRangeConstraint, rangeValue.
  cbn [app]. rewrite split_pair by now apply digits_no_minus.
  now rewrite !parseInt_toString.
Qed.

Lemma parseRangeConstraint_reads_bounds_witness :
  parseRangeConstraint (rangeValue 1000 9999) = Some (1000, 9999).
Proof. apply parseRangeConstraint_reads_bounds; lia. Defined.

Lemma resolveConstraints_last (xCount : nat) (cs : list Constraint)
  (c : Constraint) (min max : Z) :
  parseRangeConstraint (cvalue c) = Some (min, max) ->
  (ctype c = str "range" ->
   resolveConstraints xCount (cs ++ [c]) = (min, max, number))
  /\ (ctype c = str "letter-range" ->
      resolveConstraints xCount (cs ++ [c]) = (min, max, letter))
  /\ (ctype c = str "hex-range" ->
      resolveConstraints xCount (cs ++ [c]) = (min, max, hex)).
Proof.
  intros Hp. rewrite resolveConstraints_app. cbn [fold_left].
  unfold applyConstraint. rewrite Hp.
  repeat split; intros ->; reflexivity.
Qed.

(** X5.  The last accepted constraint decides: when the value of the last
    constraint parses, the range of every run is that of this constraint
    and the kind is the one of its type, whatever stands before it. *)
Theorem last_constraint_wins (xCount : nat) (cs : list Constraint)
  (c : Constraint) (min max : Z) :
  parseRangeConstraint (cvalue c) = Some (min, max) ->
  (ctype c = str "range" ->
   resolveConstraints xCount (cs ++ [c]) = (min, max, number))
  /\ (ctype c = str "letter-range" ->
      resolveConstraints xCount (cs ++ [c]) = (min, max, letter))
  /\ (ctype c = str "hex-range" ->
      resolveConstraints xCount (cs ++ [c]) = (min, max, hex)).
Proof.
  intros Hp. rewrite resolveConstraints_app. cbn [fold_left].
  unfold applyConstraint. rewrite Hp.
  repeat split; intros ->; reflexivity.
Qed.

Lemma last_constraint_wins_witness :
  resolveConstraints 4 [rangeOf "1-5"; letterRangeOf "65-90";
                        hexRangeOf "10-255"] = (10, 255, hex).
Proof.
  exact (proj2 (proj2 (last_constraint_wins 4
                         [rangeOf "1-5"; letterRangeOf "65-90"]
                         (hexRangeOf "10-255") 10 255 eq_refl)) eq_refl).
Defined.

(** X6.  Under a number range [min-max] with
    [0 <= min <= max <= 2^53 - 1] as the last constraint, a specifier of
    [n >= 1] X's is filled with a text that [parseInt] reads as a number
    in [min, max]. *)
Theorem range_fill_reads_in_range (n : nat) (cs : list Constraint)
  (p : SearchPattern) (d : Date) (r : Random.source) (min max : Z) :
  0 <= min <= max -> max <= 9007199254740991 -> Random.unit_interval r ->
  constraints p
  = cs ++ [{| ctype := str "range"; cvalue := rangeValue min max |}] ->
  exists v,
    parseInt (fst (fillSpecifierTemplate (repeat 88 (S n)) p d r)) = Some v
    /\ min <= v <= max.
Proof.
  intros Hm _ Hr Hcs. rewrite fill_single_run, Hcs. unfold renderRun.
  destruct (resolveConstraints_last (S n) cs
              {| ctype := str "range"; cvalue := rangeValue min max |}
              min max) as [Hn _].
  { apply parseRangeConstraint_rangeValue; lia. }
  rewrite (Hn eq_refl).
  pose proof (getRandomInt_range min max r Hr ltac:(lia)) as Hv.
  destruct (getRandomInt min max r) as [v r']. cbn [fst render] in *.
  exists v. split; [|exact Hv]. apply parseInt_padded. lia.
Qed.

Lemma range_fill_reads_in_range_witness :
  exists v,
    parseInt (fst (fillSpecifierTemplate (repeat 88 6)
                     (mkPattern [] None
                        [{| ctype := str "range";
                            cvalue := rangeValue 1000 9999 |}])
                     (mkDate 2024 3 15) (Random.constant (1 # 3)))) = Some v
    /\ 1000 <= v <= 9999.
Proof.
  apply (range_fill_reads_in_range 5 []
           (mkPattern [] None
              [{| ctype := str "range"; cvalue := rangeValue 1000 9999 |}])
           (mkDate 2024 3 15) (Random.constant (1 # 3)) 1000 9999).
  - lia.
  - lia.
  - apply constant_unit_interval; [discriminate|reflexivity].
  - reflexivity.
Defined.

(** X7.  Under a hex range [min-max] with [0 <= min <= max] as the last
    constraint, a specifier of [n >= 1] X's is filled with at least [n]
    characters, each one of 0-9 and A-F. *)
Theorem hex_fill_is_upper_hex (n : nat) (cs : list Constraint)
  (p : SearchPattern) (d : Date) (r : Random.source) (min max : Z) :
  0 <= min <= max -> Random.unit_interval r ->
  constraints p
  = cs ++ [{| ctype := str "hex-range"; cvalue := rangeValue min max |}] ->
  let out := fst (fillSpecifierTemplate (repeat 88 (S n)) p d r) in
  (S n <= length out)%nat /\ forallb isHexDigitUpper out = true.
Proof.
  intros Hm Hr Hcs. rewrite fill_single_run, Hcs. unfold renderRun.
  destruct (resolveConstraints_last (S n) cs
              {| ctype := str "hex-range"; cvalue := rangeValue min max |}
              min max) as (_ & _ & Hh).
  { apply parseRangeConstraint_rangeValue; lia. }
  rewrite (Hh eq_refl).
  pose proof (getRandomInt_range min max r Hr ltac:(lia)) as Hv.
  destruct (getRandomInt min max r) as [v r']. cbn [fst render] in *.
  split; [rewrite padStart_length; lia|].
  apply forallb_forall. intros c Hin. apply padStart_in in Hin.
  destruct Hin as [->|Hin]; [reflexivity|].
  unfold toStringHexUpper in Hin. destruct (Z.ltb_spec v 0); [lia|].
  apply digits_fuel_chars in Hin; [|lia|lia].
  destruct Hin as (k & Hk & ->). unfold isHexDigitUpper, digitChar.
  destruct (k <? 10) eqn:E; lia.
Qed.

Lemma hex_fill_is_upper_hex_witness :
  let out :=
    fst (fillSpecifierTemplate (repeat 88 4)
           (mkPattern [] None
              [{| ctype := str "hex-range"; cvalue := rangeValue 0 65535 |}])
           (mkDate 2024 3 15) (Random.constant (2 # 3))) in
  (4 <= length out)%nat /\ forallb isHexDigitUpper out = true.
Proof.
  apply (hex_fill_is_upper_hex 3 []
           (mkPattern [] None
              [{| ctype := str "hex-range"; cvalue := rangeValue 0 65535 |}])
           (mkDate 2024 3 15) (Random.constant (2 # 3)) 0 65535).
  - lia.
  - apply constant_unit_interval; [discriminate|reflexivity].
  - reflexivity.
Defined.

(** X8.  Under a letter range [min-max] of character codes with
    [0 <= min <= max < 65536] as the last constraint, a specifier of
    [n >= 1] X's is filled with [n - 1] pad characters "0" followed by one
    character whose code is in [min, max]. *)
Theorem letter_fill_is_one_character (n : nat) (cs : list Constraint)
  (p : SearchPattern) (d : Date) (r : Random.source) (min max : Z) :
  0 <= min <= max -> max < 65536 -> Random.unit_interval r ->
  constraints p
  = cs ++ [{| ctype := str "letter-range"; cvalue := rangeValue min max |}] ->
  exists c,
    fst (fillSpecifierTemplate (repeat 88 (S n)) p d r) = repeat 48 n ++ [c]
    /\ min <= c <= max.
Proof.
  intros Hm Hmax Hr Hcs. rewrite fill_single_run, Hcs. unfold renderRun.
  destruct (resolveConstraints_last (S n) cs
              {| ctype := str "letter-range"; cvalue := rangeValue min max |}
              min max) as (_ & Hl & _).
  { apply parseRangeConstraint_rangeValue; lia. }
  rewrite (Hl eq_refl).
  pose proof (getRandomInt_range min max r Hr ltac:(lia)) as Hv.
  destruct (getRandomInt min max r) as [v r']. cbn [fst render] in *.
  exists v. split; [|exact Hv].
  unfold fromCharCode, padStart. rewrite Z.mod_small by lia.
  cbn [length]. now replace (S n - 1)%nat with n by lia.
Qed.

Lemma letter_fill_is_one_character_witness :
  exists c,
    fst (fillSpecifierTemplate (repeat 88 3)
           (mkPattern [] None
              [{| ctype := str "letter-range"; cvalue := rangeValue 97 122 |}])
           (mkDate 2024 3 15) (Random.constant (1 # 2)))
    = repeat 48 2 ++ [c]
    /\ 97 <= c <= 122.
Proof.
  apply (letter_fill_is_one_character 2 []
           (mkPattern [] None
              [{| ctype := str "letter-range"; cvalue := rangeValue 97 122 |}])
           (mkDate 2024 3 15) (Random.constant (1 # 2)) 97 122).
  - lia.
  - lia.
  - apply constant_unit_interval; [discriminate|reflexivity].
  - reflexivity.
Defined.

(** ** Text without placeholders *)

(** X9.  A specifier that holds none of the date and time tokens and no X
    passes through unchanged, without a draw from the random source, and
    the search term is the name followed by the specifier. *)
Theorem plain_specifier_passes_through (specifier : jsstring)
  (p : SearchPattern) (d : Date) (r : Random.source) :
  forallb (fun tok => negb (includes tok specifier)) dateTokenNames = true ->
  ~ In 88 specifier ->
  fillSpecifierTemplate specifier p d r = (specifier, r)
  /\ generateSearchTerm (name p) specifier p d r = (name p ++ specifier, r).
Proof.
  intros Htok Hx.
  assert (Hfill : fillSpecifierTemplate specifier p d r = (specifier, r)).
  { unfold fillSpecifierTemplate. destruct specifier as [|c s]; [easy|].
    rewrite fillDateTokens_plain by exact Htok.
    apply includes_single_false in Hx. now rewrite Hx. }
  split; [exact Hfill|]. unfold generateSearchTerm.
  destruct specifier as [|c s]; [now rewrite app_nil_r|].
  now rewrite Hfill.
Qed.

Lemma plain_specifier_passes_through_witness :
  generateSearchTerm (str "GoPro ") (str "clip #7 (yyyy)")
    (mkPattern (str "GoPro ") None [rangeOf "1-5"]) (mkDate 2024 3 15)
    (Random.constant 0)
  = (str "GoPro clip #7 (yyyy)", Random.constant 0).
Proof.
  exact (proj2 (plain_specifier_passes_through (str "clip #7 (yyyy)")
                  (mkPattern (str "GoPro ") None [rangeOf "1-5"])
                  (mkDate 2024 3 15) (Random.constant 0) eq_refl
                  ltac:(vm_compute; intuition discriminate))).
Defined.

(** ** The date filter in the URL *)

Lemma beforeFilter_head d : exists rest, beforeFilter d = 98 :: rest.
Proof. unfold beforeFilter. now eexists. Qed.

Lemma url_with_before p specifier d dateOverride r :
  determineDateFilter specifier p d
    (quoted (fst (generateSearchTerm (name p) specifier p d r))) dateOverride
  = beforeFilter d ->
  fst (formatSearchTermToURL p specifier d dateOverride r)
  = urlPrefix
    ++ formEncode (quoted (fst (generateSearchTerm (name p) specifier p d r)))
    ++ [43] ++ formEncode (beforeFilter d) ++ str "&sp=CAISAhAB".
Proof.
  intros Hf. rewrite formatSearchTermToURL_shape. cbv zeta. rewrite Hf.
  destruct (beforeFilter_head d) as (rest & E). rewrite E.
  rewrite formEncode_with_filter by reflexivity.
  now rewrite <- !app_assoc.
Qed.

(** X10.  The date filter in the URL when no year is looked for.  With
    the date override set, the URL carries the filter
    [before:<year>-<month>-<day>] of the supplied date after the quoted
    term, whatever the pattern, its age and the specifier are.  Without
    the override and without YYYY in the specifier, the filter depends on
    the age alone: a pattern of age 'old' gets [before:<date>], every
    other pattern gets a URL with the quoted term and no filter. *)
Theorem date_filter_follows_override_and_age (p : SearchPattern)
  (specifier : jsstring) (d : Date) (r : Random.source) :
  let term := fst (generateSearchTerm (name p) specifier p d r) in
  fst (formatSearchTermToURL p specifier d true r)
  = urlPrefix ++ formEncode (quoted term) ++ [43]
    ++ formEncode (beforeFilter d) ++ str "&sp=CAISAhAB"
  /\ (includes (str "YYYY") specifier = false ->
      age p = Some (str "old") ->
      fst (formatSearchTermToURL p specifier d false r)
      = urlPrefix ++ formEncode (quoted term) ++ [43]
        ++ formEncode (beforeFilter d) ++ str "&sp=CAISAhAB")
  /\ (includes (str "YYYY") specifier = false ->
      age p <> Some (str "old") ->
      fst (formatSearchTermToURL p specifier d false r)
      = urlPrefix ++ formEncode (quoted term) ++ str "&sp=CAISAhAB").
Proof.
  intros term. split; [|split].
  - apply url_with_before. reflexivity.
  - intros Hy Hage. apply url_with_before.
    now apply determineDateFilter_old.
  - intros Hy Hage. rewrite formatSearchTermToURL_shape. cbv zeta. fold term.
    assert (Hf : determineDateFilter specifier p d (quoted term) false = []).
    { unfold determineDateFilter. rewrite Hy.
      assert (Hno : age_is p "old" = false).
      { unfold age_is. destruct (age p) as [a|] eqn:Ea; [|reflexivity].
        destruct (eqb a (str "old")) eqn:Eq; [|reflexivity].
        apply eqb_eq in Eq. congruence. }
      rewrite Hno. now destruct (age_is p "new"). }
    now rewrite Hf.
Qed.

Lemma date_filter_follows_override_and_age_witness :
  fst (formatSearchTermToURL (mkPattern (str "MVI ") (Some (str "new")) [])
         (str "XX") (mkDate 2024 3 15) false (Random.constant (1 # 2)))
  = urlPrefix ++ str "%22MVI+50%22&sp=CAISAhAB".
Proof.
  rewrite (proj2 (proj2 (date_filter_follows_override_and_age
                           (mkPattern (str "MVI ") (Some (str "new")) [])
                           (str "XX") (mkDate 2024 3 15)
                           (Random.constant (1 # 2))))
             eq_refl ltac:(discriminate)).
  vm_compute. reflexivity.
Defined.

(** ** Finding the year *)

Lemma yearAt_not_digit prevWord c s :
  isDigit c = false -> yearAt prevWord (c :: s) = None.
Proof.
  intros Hc. unfold yearAt. destruct s as [|d2 [|d3 [|d4 rest]]]; try easy.
  rewrite Hc, andb_false_r. reflexivity.
Qed.

Lemma isDigit_word c : isDigit c = true -> isWordChar c = true.
Proof. unfold isDigit, isWordChar. lia. Qed.

Lemma yearAt_here d1 d2 d3 d4 post :
  forallb isDigit [d1; d2; d3; d4] = true ->
  isWordChar (hd 32 post) = false ->
  yearAt false ([d1; d2; d3; d4] ++ post) = Some [d1; d2; d3; d4].
Proof.
  intros Hd Hp. cbn [forallb] in Hd.
  repeat (apply andb_prop in Hd; destruct Hd as [?H Hd]).
  unfold yearAt, wordBoundary. cbn [app].
  rewrite (isDigit_word d1), (isDigit_word d4) by assumption.
  rewrite H, H0, H1, H2. cbn [xorb andb].
  destruct post as [|c post]; [reflexivity|].
  cbn [hd] in Hp. now rewrite Hp.
Qed.

Lemma matchYear_from_skips pre : forall prevWord y post,
  forallb (fun c => negb (isDigit c)) pre = true ->
  isWordChar (last pre 32) = false ->
  (pre = [] -> prevWord = false) ->
  yearAt false (y ++ post) = Some y ->
  matchYear_from prevWord (pre ++ y ++ post) = Some y.
Proof.
  induction pre as [|c pre IH]; intros prevWord y post Hnd Hlast Hpw Hy.
  - rewrite (Hpw eq_refl). cbn [app].
    unfold matchYear_from. destruct (y ++ post); now rewrite Hy.
  - cbn [forallb] in Hnd. apply andb_prop in Hnd. destruct Hnd as [Hc Hnd].
    apply negb_true_iff in Hc. cbn [app matchYear_from].
    rewrite yearAt_not_digit by exact Hc.
    apply IH; [exact Hnd| | |exact Hy].
    + destruct pre; [reflexivity|exact Hlast].
    + intros ->. exact Hlast.
Qed.

(** X11.  A run of exactly four digits that stands between characters
    that are not word characters (or at an end of the text), with no digit
    anywhere before it, is the year that the regular expression finds. *)
Theorem year_between_boundaries_is_found (pre y post : jsstring) :
  length y = 4%nat -> forallb isDigit y = true ->
  forallb (fun c => negb (isDigit c)) pre = true ->
  isWordChar (last pre 32) = false ->
  isWordChar (hd 32 post) = false ->
  matchYear (pre ++ y ++ post) = Some y.
Proof.
  intros Hl Hd Hpre Hlast Hpost.
  destruct y as [|d1 [|d2 [|d3 [|d4 [|? ?]]]]]; try discriminate.
  apply matchYear_from_skips; auto.
  now apply yearAt_here.
Qed.

Lemma year_between_boundaries_is_found_witness :
  matchYear (quoted (str "Vacation-Video 2017 part")) = Some (str "2017").
Proof.
  apply (year_between_boundaries_is_found
           ([34] ++ str "Vacation-Video ") (str "2017")
           (str " part" ++ [34])); reflexivity.
Defined.

(** ** The two unused helpers *)

Lemma charAt_letters k :
  0 <= k < 26 ->
  exists c, charAt "ABCDEFGHIJKLMNOPQRSTUVWXYZ" k = Some c
            /\ isUpperLetter c = true.
Proof.
  intros Hk.
  assert (Hall : forallb
            (fun i => match charAt "ABCDEFGHIJKLMNOPQRSTUVWXYZ" (Z.of_nat i)
                      with
                      | Some c => isUpperLetter c
                      | None => false
                      end) (seq 0 26) = true) by (vm_compute; reflexivity).
  rewrite forallb_forall in Hall.
  specialize (Hall (Z.to_nat k)). rewrite Z2Nat.id in Hall by lia.
  destruct (charAt "ABCDEFGHIJKLMNOPQRSTUVWXYZ" k) as [c|].
  - exists c. split; [reflexivity|]. apply Hall. apply in_seq. lia.
  - discriminate Hall. apply in_seq. lia.
Qed.

Lemma charAt_hex k :
  0 <= k < 16 ->
  exists c, charAt "0123456789ABCDEF" k = Some c
            /\ isHexDigitUpper c = true.
Proof.
  intros Hk.
  assert (Hall : forallb
            (fun i => match charAt "0123456789ABCDEF" (Z.of_nat i) with
                      | Some c => isHexDigitUpper c
                      | None => false
                      end) (seq 0 16) = true) by (vm_compute; reflexivity).
  rewrite forallb_forall in Hall.
  specialize (Hall (Z.to_nat k)). rewrite Z2Nat.id in Hall by lia.
  destruct (charAt "0123456789ABCDEF" k) as [c|].
  - exists c. split; [reflexivity|]. apply Hall. apply in_seq. lia.
  - discriminate Hall. apply in_seq. lia.
Qed.

(** X12.  For [0 <= min <= max], [getRandomLetter] returns one upper-case
    letter and [getRandomHex] one upper-case hexadecimal digit: the drawn
    index is reduced modulo the length of the alphabet. *)
Theorem random_letter_and_hex_in_alphabet (min max : Z)
  (r : Random.source) :
  0 <= min <= max -> Random.unit_interval r ->
  (exists c, fst (getRandomLetter min max r) = Some c
             /\ isUpperLetter c = true)
  /\ (exists c, fst (getRandomHex min max r) = Some c
                /\ isHexDigitUpper c = true).
Proof.
  intros Hm Hr.
  pose proof (getRandomInt_range min max r Hr ltac:(lia)) as Hv.
  unfold getRandomLetter, getRandomHex.
  destruct (getRandomInt min max r) as [v r']. cbn [fst] in *.
  split.
  - apply charAt_letters. change (Z.of_nat _) with 26.
    apply Z.rem_bound_pos; lia.
  - apply charAt_hex. change (Z.of_nat _) with 16.
    apply Z.rem_bound_pos; lia.
Qed.

Lemma random_letter_and_hex_in_alphabet_witness :
  (exists c, fst (getRandomLetter 0 1000 (Random.constant (1 # 3))) = Some c
             /\ isUpperLetter c = true)
  /\ (exists c, fst (getRandomHex 0 1000 (Random.constant (1 # 3))) = Some c
                /\ isHexDigitUpper c = true).
Proof.
  apply random_letter_and_hex_in_alphabet.
  - lia.
  - apply constant_unit_interval; [discriminate|reflexivity].
Defined.

End SearchSettingsMore.

(* ================================================================== *)
(** * search-settings.ts on page objects: C9                            *)
(* ================================================================== *)

Module PatternObjectsFacts.

Import JS JSFacts JSMore SearchSettings SearchSettingsFacts SearchSettingsMore.
Import PatternObjects(Completion, Returned, ThrewTypeError, PatternObject,
                      typed, developSearchTerm).

Lemma determineDateFilter_reads_age specifier (p q : SearchPattern) d
  searchTerm dateOverride :
  age p = age q ->
  determineDateFilter specifier p d searchTerm dateOverride
  = determineDateFilter specifier q d searchTerm dateOverride.
Proof.
  intros Ha. unfold determineDateFilter, age_is. now rewrite Ha.
Qed.

(** On an object that has a [constraints] array the functions are those of
    the data model. *)
Lemma fillSpecifierTemplate_typed (o : PatternObject) cs specifier d r :
  PatternObjects.constraints o = Some cs ->
  PatternObjects.fillSpecifierTemplate specifier o d r
  = Returned (fillSpecifierTemplate specifier (typed o cs) d r).
Proof.
  intros Hc. unfold PatternObjects.fillSpecifierTemplate,
    fillSpecifierTemplate.
  destruct specifier as [|c0 s0]; [reflexivity|].
  destruct (includes [88] (fillDateTokens d (c0 :: s0))); [|reflexivity].
  rewrite Hc. cbn [constraints typed].
  now destruct (matchRuns 88 (fillDateTokens d (c0 :: s0))).
Qed.

Lemma generateSearchTerm_typed (o : PatternObject) cs nm specifier d r :
  PatternObjects.constraints o = Some cs ->
  PatternObjects.generateSearchTerm nm specifier o d r
  = Returned (generateSearchTerm nm specifier (typed o cs) d r).
Proof.
  intros Hc. unfold PatternObjects.generateSearchTerm, generateSearchTerm.
  destruct specifier as [|c0 s0]; [reflexivity|].
  rewrite (fillSpecifierTemplate_typed o cs) by exact Hc.
  destruct (fillSpecifierTemplate (c0 :: s0) (typed o cs) d r)
    as [specifierValue r'].
  now destruct specifierValue.
Qed.

Lemma formatSearchTermToURL_typed (o : PatternObject) cs specifier d
  dateOverride r :
  PatternObjects.constraints o = Some cs ->
  PatternObjects.formatSearchTermToURL o specifier d dateOverride r
  = Returned (formatSearchTermToURL (typed o cs) specifier d dateOverride r).
Proof.
  intros Hc. unfold PatternObjects.formatSearchTermToURL,
    formatSearchTermToURL.
  rewrite (generateSearchTerm_typed o cs) by exact Hc.
  change (name (typed o cs)) with (PatternObjects.name o).
  destruct (generateSearchTerm (PatternObjects.name o) specifier (typed o cs)
              d r) as [term r'].
  cbv zeta.
  now rewrite (determineDateFilter_reads_age specifier (typed o [])
                 (typed o cs) d (quoted term) dateOverride eq_refl).
Qed.

(** Without the array, a specifier of X's stops at the constraint loop. *)
Lemma fillSpecifierTemplate_run_throws (o : PatternObject) n d r :
  PatternObjects.constraints o = None ->
  PatternObjects.fillSpecifierTemplate (repeat 88 (S n)) o d r
  = ThrewTypeError.
Proof.
  intros Hc. unfold PatternObjects.fillSpecifierTemplate. cbn [repeat].
  change (88 :: repeat 88 n) with (repeat 88 (S n)).
  rewrite fillDateTokens_run.
  assert (Hx : includes [88] (repeat 88 (S n)) = true)
    by (apply includes_single; now left).
  rewrite Hx. unfold matchRuns. rewrite matchRuns_from_repeat by lia.
  now rewrite Hc.
Qed.

(** C9, where the code breaks it.  On every object that has a
    [constraints] array, whatever the array, the specifier, the date and
    the other fields are, [fillSpecifierTemplate] and
    [formatSearchTermToURL] return, with the results of the data model.
    An object built by [developSearchTerm] has no such array, and with a
    specifier that is a run of X's both functions end in a TypeError,
    for every name, genre, age, date and random source. *)
Theorem custom_pattern_throws :
  (forall (o : PatternObject) cs specifier d dateOverride r,
     PatternObjects.constraints o = Some cs ->
     PatternObjects.fillSpecifierTemplate specifier o d r
     = Returned (fillSpecifierTemplate specifier (typed o cs) d r)
     /\ PatternObjects.formatSearchTermToURL o specifier d dateOverride r
        = Returned (formatSearchTermToURL (typed o cs) specifier d
                                          dateOverride r))
  /\ (forall nm specifiers genre age constraint n d dateOverride r,
        let o := developSearchTerm nm specifiers genre age constraint in
        PatternObjects.fillSpecifierTemplate (repeat 88 (S n)) o d r
        = ThrewTypeError
        /\ PatternObjects.formatSearchTermToURL o (repeat 88 (S n)) d
             dateOverride r
           = ThrewTypeError).
Proof.
  split.
  - intros o cs specifier d dateOverride r Hc. split.
    + now apply fillSpecifierTemplate_typed.
    + now apply formatSearchTermToURL_typed.
  - intros nm specifiers genre age constraint n d dateOverride r o.
    assert (Hf : PatternObjects.fillSpecifierTemplate (repeat 88 (S n)) o d r
                 = ThrewTypeError)
      by now apply fillSpecifierTemplate_run_throws.
    split; [exact Hf|].
    unfold PatternObjects.formatSearchTermToURL,
      PatternObjects.generateSearchTerm.
    rewrite Hf. reflexivity.
Qed.

Lemma custom_pattern_throws_witness :
  PatternObjects.formatSearchTermToURL
    {| PatternObjects.name := str "DSC "; PatternObjects.genre := [];
       PatternObjects.age := None; PatternObjects.specifiers := [str "XXXX"];
       PatternObjects.constraints := Some [rangeOf "1-5"];
       PatternObjects.constraint := None;
       PatternObjects.dateBefore := None; PatternObjects.dateAfter := None;
       PatternObjects.dateExact := None; PatternObjects.isCustom := false |}
    (str "XXXX") (mkDate 2024 3 15) false (Random.constant (1 # 2))
  = Returned (urlPrefix ++ str "%22DSC+0003%22&sp=CAISAhAB",
              fun n => Random.constant (1 # 2) (S n))
  /\ PatternObjects.formatSearchTermToURL
       (developSearchTerm (str "DSC ") [str "XXXX"] (str "Custom") []
                          ([], []))
       (str "XXXX") (mkDate 2024 3 15) false (Random.constant (1 # 2))
     = ThrewTypeError.
Proof.
  split.
  - set (o := {| PatternObjects.name := str "DSC ";
                 PatternObjects.constraints := Some [rangeOf "1-5"] |}).
    rewrite (proj2 (proj1 custom_pattern_throws o [rangeOf "1-5"]
                      (str "XXXX") (mkDate 2024 3 15) false
                      (Random.constant (1 # 2)) eq_refl)).
    reflexivity.
  - exact (proj2 (proj2 custom_pattern_throws (str "DSC ") [str "XXXX"]
                    (str "Custom") [] ([], []) 3%nat (mkDate 2024 3 15) false
                    (Random.constant (1 # 2)))).
Defined.

End PatternObjectsFacts.

(* ================================================================== *)
(** * More properties of randomness.ts                                  *)
(* ================================================================== *)

Module RandomnessMore.

Import Randomness RandomnessFacts.




(** X14.  For a config that is not uniform, a first draw that lands in
    the range is returned as it is, whatever [maxAttempts] allows: no
    further draw is made and the clamp changes nothing. *)
Theorem first_draw_in_range_is_returned (M : MathLib) (fuel : nat)
  (min max : Z) (config : DistributionConfig) (maxAttempts : Z)
  (r r' : Random.source) (v : Z) :
  type config <> uniform ->
  drawInteger M fuel min max config r = Some (v, r') ->
  min <= v <= max ->
  generateConstrainedInteger M fuel min max config maxAttempts r
  = Some (v, r').
Proof.
  intros Ht Hd Hv.
  assert (Hretry : forall more,
            retry (drawInteger M fuel min max config)
                  (fun value => (value <? min) || (value >? max)) more r
            = Some (v, r')).
  { intros more. destruct more; cbn [retry]; unfold bind; rewrite Hd;
      replace ((v <? min) || (v >? max)) with false
        by (symmetry; apply orb_false_intro; lia);
      reflexivity. }
  unfold generateConstrainedInteger.
  destruct (type config); [congruence|..];
    unfold bind; rewrite Hretry; unfold ret; do 2 f_equal; lia.
Qed.

(** X15.  With a single attempt a draw outside the range is replaced by
    the bound it passed: [min] for a draw below the range, [max] for one
    above it. *)
Theorem single_attempt_clamps (M : MathLib) (fuel : nat)
  (min max : Z) (config : DistributionConfig) (maxAttempts : Z)
  (r r' : Random.source) (v : Z) :
  type config <> uniform -> maxAttempts <= 1 -> min <= max ->
  drawInteger M fuel min max config r = Some (v, r') ->
  (v < min ->
   generateConstrainedInteger M fuel min max config maxAttempts r
   = Some (min, r'))
  /\ (max < v ->
      generateConstrainedInteger M fuel min max config maxAttempts r
      = Some (max, r')).
Proof.
  intros Ht Ha Hm Hd.
  assert (Hretry :
            retry (drawInteger M fuel min max config)
                  (fun value => (value <? min) || (value >? max))
                  (Z.to_nat (maxAttempts - 1)) r
            = Some (v, r')).
  { replace (Z.to_nat (maxAttempts - 1)) with 0%nat by lia.
    cbn [retry]. unfold bind. rewrite Hd.
    now destruct ((v <? min) || (v >? max)). }
  split; intros Hv; unfold generateConstrainedInteger;
    (destruct (type config); [congruence|..]);
    unfold bind; rewrite Hretry; unfold ret; do 2 f_equal; lia.
Qed.

Lemma first_draw_in_range_is_returned_witness :
  generateConstrainedInteger exampleMath 1 0 100
    {| type := bell; center := 1 # 2; spread := 1 # 4;
       degreesOfFreedom := None |} 100
    (Random.from_list [(1 # 2)%Q; (1 # 100)%Q] (1 # 2)%Q)
  = Some (75, fun n => Random.from_list [(1 # 2)%Q; (1 # 100)%Q] (1 # 2)%Q
                         (S (S n))).
Proof.
  apply first_draw_in_range_is_returned.
  - discriminate.
  - reflexivity.
  - lia.
Defined.

Lemma single_attempt_clamps_witness :
  generateConstrainedInteger exampleMath 1 0 100
    {| type := bell; center := 1 # 2; spread := 1 # 4;
       degreesOfFreedom := None |} 1 (Random.constant (1 # 2))
  = Some (0, fun n => Random.constant (1 # 2) (S (S n))).
Proof.
  apply (proj1 (single_attempt_clamps exampleMath 1 0 100
                  {| type := bell; center := 1 # 2; spread := 1 # 4;
                     degreesOfFreedom := None |} 1 (Random.constant (1 # 2))
                  (fun n => Random.constant (1 # 2) (S (S n))) (-48)
                  ltac:(discriminate) ltac:(lia) ltac:(lia) eq_refl)).
  lia.
Defined.

(** ** The histogram *)

Lemma fold_add_shift l : forall a,
  fold_left Z.add l a = a + fold_left Z.add l 0.
Proof.
  induction l as [|x l IH]; intros a; cbn [fold_left]; [lia|].
  rewrite (IH (a + x)), (IH (0 + x)). lia.
Qed.

Lemma sum_cons x l :
  fold_left Z.add (x :: l) 0 = x + fold_left Z.add l 0.
Proof. cbn [fold_left]. now rewrite fold_add_shift. Qed.

Lemma sum_app l1 l2 :
  fold_left Z.add (l1 ++ l2) 0
  = fold_left Z.add l1 0 + fold_left Z.add l2 0.
Proof. now rewrite fold_left_app, fold_add_shift. Qed.


Lemma split_at (b : list Z) n :
  (n < length b)%nat ->
  firstn n b ++ nth n b 0 :: skipn (S n) b = b.
Proof. intros Hn. apply firstn_skipn_middle. now apply nth_error_nth'. Qed.

Lemma incrementAt_length b i : length (incrementAt b i) = length b.
Proof.
  unfold incrementAt.
  destruct ((0 <=? i) && (i <? Z.of_nat (length b))) eqn:E; [|reflexivity].
  apply andb_prop in E. destruct E as [E1 E2].
  apply Z.leb_le in E1. apply Z.ltb_lt in E2.
  assert (Hn : (Z.to_nat i < length b)%nat) by lia.
  pose proof (split_at b (Z.to_nat i) Hn) as Hs.
  rewrite <- Hs at 4. rewrite !length_app. reflexivity.
Qed.

Lemma incrementAt_sum b i :
  0 <= i < Z.of_nat (length b) ->
  fold_left Z.add (incrementAt b i) 0 = fold_left Z.add b 0 + 1.
Proof.
  intros Hi. unfold incrementAt.
  replace ((0 <=? i) && (i <? Z.of_nat (length b))) with true
    by (symmetry; apply andb_true_intro; split;
        [apply Z.leb_le|apply Z.ltb_lt]; lia).
  assert (Hn : (Z.to_nat i < length b)%nat) by lia.
  pose proof (split_at b (Z.to_nat i) Hn) as Hs.
  rewrite <- Hs at 4. rewrite !sum_app, !sum_cons. cbn [fold_left]. lia.
Qed.

Lemma incrementAt_nonneg b i :
  Forall (fun c => 0 <= c) b -> Forall (fun c => 0 <= c) (incrementAt b i).
Proof.
  intros Hb. unfold incrementAt.
  destruct ((0 <=? i) && (i <? Z.of_nat (length b))) eqn:E; [|exact Hb].
  apply andb_prop in E. destruct E as [E1 E2].
  apply Z.leb_le in E1. apply Z.ltb_lt in E2.
  assert (Hn : (Z.to_nat i < length b)%nat) by lia.
  assert (Hnth : 0 <= nth (Z.to_nat i) b 0).
  { rewrite Forall_forall in Hb. apply Hb. now apply nth_In. }
  apply Forall_app. split.
  - rewrite Forall_forall in *. intros x Hx. apply Hb.
    rewrite <- (firstn_skipn (Z.to_nat i) b). apply in_or_app. now left.
  - apply Forall_app. split.
    + constructor; [lia|constructor].
    + rewrite Forall_forall in *. intros x Hx. apply Hb.
      rewrite <- (firstn_skipn (S (Z.to_nat i)) b). apply in_or_app. now right.
Qed.

Lemma inject_Z_pos z : 0 < z -> (0 < inject_Z z)%Q.
Proof. intros Hz. change 0%Q with (inject_Z 0). rewrite <- Zlt_Qlt. lia. Qed.

Lemma inject_Z_minus a b : (inject_Z (a - b) == inject_Z a - inject_Z b)%Q.
Proof.
  unfold Z.sub. rewrite inject_Z_plus, inject_Z_opp. reflexivity.
Qed.

Lemma bucketSize_pos min max bucketCount :
  min < max -> 1 <= bucketCount ->
  (0 < inject_Z (max - min) / inject_Z bucketCount)%Q.
Proof.
  intros Hm Hb. apply Qlt_shift_div_l.
  - apply inject_Z_pos. lia.
  - rewrite Qmult_0_l. apply inject_Z_pos. lia.
Qed.

Lemma bucketIndexOf_inside min max bucketCount value :
  min < max -> 1 <= bucketCount -> min <= value ->
  exists i,
    bucketIndexOf min (inject_Z (max - min) / inject_Z bucketCount)
                  bucketCount value = Some i
    /\ 0 <= i < bucketCount.
Proof.
  intros Hm Hb Hv.
  pose proof (bucketSize_pos min max bucketCount Hm Hb) as Hs.
  unfold bucketIndexOf.
  destruct (Qeq_bool (inject_Z (max - min) / inject_Z bucketCount) 0) eqn:E.
  { apply Qeq_bool_iff in E. rewrite E in Hs. now apply Qlt_irrefl in Hs. }
  eexists. split; [reflexivity|].
  assert (H0 : 0 <= Qfloor (inject_Z (value - min)
                            / (inject_Z (max - min) / inject_Z bucketCount))).
  { change 0 with (Qfloor (inject_Z 0)). apply Qfloor_resp_le.
    apply Qle_shift_div_l; [exact Hs|].
    rewrite Qmult_0_l. change 0%Q with (inject_Z 0). rewrite <- Zle_Qle. lia. }
  lia.
Qed.

Section HistogramLoop.

Variable M : MathLib.
Variables fuel k : nat.
Hypothesis enough : (k < fuel)%nat.

Variable config : DistributionConfig.
Variables min max bucketCount : Z.
Hypothesis ordered : min <= max.

Let bucketSize : Q := (inject_Z (max - min) / inject_Z bucketCount)%Q.

(** What every round of the sampling loop keeps. *)
Let kept (t : Tally) : Prop :=
  Forall (fun v => min <= v <= max) (samples t)
  /\ inRange t = Z.of_nat (length (samples t))
  /\ outOfRange t = 0
  /\ length (tallyBuckets t) = Z.to_nat bucketCount
  /\ Forall (fun c => 0 <= c) (tallyBuckets t)
  /\ (min < max -> 1 <= bucketCount ->
      fold_left Z.add (tallyBuckets t) 0 = inRange t)
  /\ (min = max ->
      tallyBuckets t = repeat 0 (Z.to_nat bucketCount)).

Lemma bucketIndexOf_degenerate value :
  min = max -> bucketIndexOf min bucketSize bucketCount value = None.
Proof.
  intros E. unfold bucketIndexOf, bucketSize.
  replace (max - min) with 0 by lia.
  now destruct bucketCount.
Qed.

Lemma returns_sampleLoop n : forall t,
  kept t ->
  returns k
    (sampleLoop M fuel config min max bucketSize bucketCount n t)
    (fun t' => kept t'
               /\ length (samples t') = (length (samples t) + n)%nat).
Proof.
  induction n as [|n IH]; intros t Ht; cbn [sampleLoop].
  - apply returns_ret. split; [exact Ht|lia].
  - eapply returns_bind.
    + now apply (returns_generateConstrainedInteger M fuel k enough).
    + cbv beta. intros v Hv.
      replace ((min <=? v) && (v <=? max)) with true
        by (symmetry; apply andb_true_intro; split; lia).
      eapply returns_weaken.
      * apply IH. destruct Ht as (H1 & H2 & H3 & H4 & H5 & H6 & H7).
        unfold kept. cbn [samples tallyBuckets inRange outOfRange].
        split; [apply Forall_app; split; [exact H1|now constructor]|].
        split; [rewrite length_app; cbn [length]; lia|].
        split; [exact H3|].
        destruct (Z.eq_dec min max) as [Eq|Ne].
        -- rewrite (bucketIndexOf_degenerate v Eq).
           split; [exact H4|]. split; [exact H5|].
           split; [lia|exact H7].
        -- destruct (bucketIndexOf min bucketSize bucketCount v) as [i|] eqn:Ei.
           ++ split; [now rewrite incrementAt_length|].
              split; [now apply incrementAt_nonneg|].
              split; [|lia]. intros Hlt Hb.
              destruct (bucketIndexOf_inside min max bucketCount v Hlt Hb
                          (proj1 Hv)) as (i' & Ei' & Hi').
              fold bucketSize in Ei'. rewrite Ei in Ei'.
              injection Ei' as <-.
              rewrite incrementAt_sum by lia. rewrite H6 by assumption.
              reflexivity.
           ++ split; [exact H4|]. split; [exact H5|].
              split; [|lia]. intros Hlt Hb.
              destruct (bucketIndexOf_inside min max bucketCount v Hlt Hb
                          (proj1 Hv)) as (i' & Ei' & _).
              fold bucketSize in Ei'. congruence.
      * cbv beta. intros t' [Hk Hl]. split; [exact Hk|].
        rewrite Hl. cbn [samples]. rewrite length_app. cbn [length]. lia.
Qed.

End HistogramLoop.

(** ** Sorting *)

Lemma insertSorted_perm x l : Permutation (insertSorted x l) (x :: l).
Proof.
  induction l as [|y l IH]; cbn [insertSorted]; [reflexivity|].
  destruct (x <=? y); [reflexivity|].
  rewrite IH. apply perm_swap.
Qed.

Lemma sortNumbers_perm l : Permutation (sortNumbers l) l.
Proof.
  induction l as [|x l IH]; cbn [sortNumbers fold_right]; [reflexivity|].
  rewrite insertSorted_perm. now constructor.
Qed.

Lemma insertSorted_sorted x l :
  StronglySorted Z.le l -> StronglySorted Z.le (insertSorted x l).
Proof.
  induction l as [|y l IH]; intros Hs; cbn [insertSorted].
  - repeat constructor.
  - apply StronglySorted_inv in Hs. destruct Hs as [Hs Hy].
    destruct (Z.leb_spec x y).
    + constructor; [now constructor|].
      constructor; [assumption|].
      rewrite Forall_forall in *. intros z Hz. specialize (Hy z Hz). lia.
    + constructor; [now apply IH|].
      apply (Permutation_Forall (Permutation_sym (insertSorted_perm x l))).
      constructor; [lia|exact Hy].
Qed.

Lemma sortNumbers_sorted l : StronglySorted Z.le (sortNumbers l).
Proof.
  induction l as [|x l IH]; cbn [sortNumbers fold_right]; [constructor|].
  now apply insertSorted_sorted.
Qed.

Lemma sorted_prefix_le p v rest :
  StronglySorted Z.le (p ++ v :: rest) -> forall y, In y p -> y <= v.
Proof.
  induction p as [|x p IH]; intros Hs y Hy; [destruct Hy|].
  cbn [app] in Hs. apply StronglySorted_inv in Hs. destruct Hs as [Hs Hx].
  destruct Hy as [<-|Hy].
  - rewrite Forall_forall in Hx. apply Hx. apply in_or_app. right. now left.
  - now apply IH.
Qed.

(** ** The mode loop *)

Lemma occurrences_snoc p v key :
  count_occ Z.eq_dec (p ++ [v]) key
  = (count_occ Z.eq_dec p key + (if Z.eq_dec v key then 1 else 0))%nat.
Proof.
  rewrite count_occ_app. cbn [count_occ]. now destruct (Z.eq_dec v key).
Qed.

Lemma mode_loop rest : forall p s,
  StronglySorted Z.le (p ++ rest) ->
  (forall key, frequency s key = Z.of_nat (count_occ Z.eq_dec p key)) ->
  (forall key, Z.of_nat (count_occ Z.eq_dec p key) <= maxFreq s) ->
  (p = [] -> maxFreq s = 0) ->
  (p <> [] ->
   exists m, modeSoFar s = Some m /\ In m p
             /\ Z.of_nat (count_occ Z.eq_dec p m) = maxFreq s
             /\ forall key, Z.of_nat (count_occ Z.eq_dec p key) = maxFreq s ->
                            m <= key) ->
  p ++ rest <> [] ->
  exists m, modeSoFar (fold_left modeStep rest s) = Some m
            /\ In m (p ++ rest)
            /\ (forall key, (count_occ Z.eq_dec (p ++ rest) key
                             <= count_occ Z.eq_dec (p ++ rest) m)%nat)
            /\ forall key, count_occ Z.eq_dec (p ++ rest) key
                           = count_occ Z.eq_dec (p ++ rest) m -> m <= key.
Proof.
  induction rest as [|v rest IH]; intros p s Hs Hf Hmax H0 Hm Hne.
  - rewrite app_nil_r in *. cbn [fold_left].
    destruct (Hm Hne) as (m & E & Hin & Hc & Hleast).
    exists m. split; [exact E|]. split; [exact Hin|]. split.
    + intros key. specialize (Hmax key). lia.
    + intros key Hk. apply Hleast. lia.
  - cbn [fold_left].
    replace (p ++ v :: rest) with ((p ++ [v]) ++ rest) in *
      by (now rewrite <- app_assoc).
    assert (Hle : forall y, In y p -> y <= v).
    { apply (sorted_prefix_le p v rest). now rewrite <- app_assoc in Hs. }
    apply IH; try assumption.
    + (* frequency *)
      intros key. unfold modeStep.
      destruct (frequency s v + 1 >? maxFreq s); cbn [frequency];
        rewrite occurrences_snoc; destruct (Z.eqb_spec key v) as [->|Hk].
      * rewrite Hf. destruct (Z.eq_dec v v); [lia|congruence].
      * rewrite Hf. destruct (Z.eq_dec v key); [congruence|lia].
      * rewrite Hf. destruct (Z.eq_dec v v); [lia|congruence].
      * rewrite Hf. destruct (Z.eq_dec v key); [congruence|lia].
    + (* the maximum *)
      intros key. unfold modeStep. rewrite occurrences_snoc.
      pose proof (Hmax key) as Hk. pose proof (Hf v) as Hv.
      destruct (Z.gtb_spec (frequency s v + 1) (maxFreq s));
        cbn [maxFreq]; destruct (Z.eq_dec v key) as [<-|]; lia.
    + intros E. destruct p; discriminate.
    + intros _. unfold modeStep. pose proof (Hf v) as Hv.
      destruct (Z.gtb_spec (frequency s v + 1) (maxFreq s)) as [Hgt|Hngt];
        cbn [modeSoFar maxFreq].
      * exists v. split; [reflexivity|].
        split; [apply in_or_app; right; now left|]. split.
        -- rewrite occurrences_snoc. destruct (Z.eq_dec v v); [lia|congruence].
        -- intros key. rewrite occurrences_snoc.
           destruct (Z.eq_dec v key) as [<-|]; [lia|].
           pose proof (Hmax key). lia.
      * assert (Hp : p <> []).
        { intros ->. specialize (H0 eq_refl). cbn in Hv. lia. }
        destruct (Hm Hp) as (m & E & Hin & Hc & Hleast).
        exists m. split; [exact E|].
        split; [apply in_or_app; now left|].
        assert (Hmv : m <> v) by (intros ->; lia).
        split.
        -- rewrite occurrences_snoc.
           destruct (Z.eq_dec v m); [congruence|lia].
        -- intros key. rewrite occurrences_snoc.
           destruct (Z.eq_dec v key) as [<-|].
           ++ intros _. now apply Hle.
           ++ intros Hk. apply Hleast. lia.
Qed.

Lemma modeOf_sorted (sorted : list Z) :
  StronglySorted Z.le sorted -> sorted <> [] ->
  exists m, modeOf sorted = Some m /\ In m sorted
            /\ (forall key, (count_occ Z.eq_dec sorted key
                             <= count_occ Z.eq_dec sorted m)%nat)
            /\ forall key, count_occ Z.eq_dec sorted key = count_occ Z.eq_dec sorted m ->
                           m <= key.
Proof.
  intros Hs Hne. unfold modeOf.
  apply (mode_loop sorted [] _ Hs); cbn [frequency maxFreq modeSoFar app].
  - reflexivity.
  - intros key. cbn [count_occ]. lia.
  - reflexivity.
  - congruence.
  - exact Hne.
Qed.

(** ** [generateHistogram] *)

Lemma returns_generateHistogram (M : MathLib) (fuel k : nat)
  (config : DistributionConfig) (min max sampleSize bucketCount : Z) :
  (k < fuel)%nat -> min <= max -> 0 <= sampleSize ->
  0 <= bucketCount <= 4294967295 ->
  returns k (generateHistogram M fuel config min max sampleSize bucketCount)
    (fun res =>
       exists t,
         res = Some {| buckets := tallyBuckets t;
                       labels :=
                         map (fun i =>
                                labelOf min
                                  (inject_Z (max - min) / inject_Z bucketCount)
                                  (Z.of_nat i))
                             (seq 0 (Z.to_nat bucketCount));
                       mean := meanOf (sortNumbers (samples t));
                       median := medianOf (sortNumbers (samples t));
                       mode := modeOf (sortNumbers (samples t));
                       inRangeCount := inRange t;
                       outOfRangeCount := outOfRange t |}
         /\ Z.of_nat (length (samples t)) = sampleSize
         /\ Forall (fun v => min <= v <= max) (samples t)
         /\ inRange t = sampleSize
         /\ outOfRange t = 0
         /\ length (tallyBuckets t) = Z.to_nat bucketCount
         /\ Forall (fun c => 0 <= c) (tallyBuckets t)
         /\ (min < max -> 1 <= bucketCount ->
             fold_left Z.add (tallyBuckets t) 0 = sampleSize)
         /\ (min = max -> tallyBuckets t = repeat 0 (Z.to_nat bucketCount))).
Proof.
  intros Hk Hm Hs Hb. unfold generateHistogram.
  replace ((bucketCount <? 0) || (4294967295 <? bucketCount)) with false
    by (symmetry; apply orb_false_intro; [apply Z.ltb_ge|apply Z.ltb_ge]; lia).
  eapply returns_bind.
  - apply (returns_sampleLoop M fuel k Hk config min max bucketCount Hm).
    cbn [samples tallyBuckets inRange outOfRange length].
    split; [constructor|]. split; [reflexivity|]. split; [reflexivity|].
    split; [apply repeat_length|].
    split; [apply Forall_forall; intros c Hc; apply repeat_spec in Hc; lia|].
    split; [|reflexivity].
    intros _ Hb1. cbn [Z.of_nat].
    clear. induction (Z.to_nat bucketCount) as [|n IH]; [reflexivity|].
    cbn [repeat fold_left]. exact IH.
  - cbv beta. intros t [(H1 & H2 & H3 & H4 & H5 & H6 & H7) Hl].
    cbn [samples length Nat.add] in Hl.
    apply returns_ret. exists t. split; [reflexivity|].
    split; [lia|]. split; [exact H1|]. split; [lia|]. split; [exact H3|].
    split; [exact H4|]. split; [exact H5|]. split; [|exact H7].
    intros Hlt Hb1. rewrite (H6 Hlt Hb1). lia.
Qed.



(** X16.  For [min <= max] and a bucket count that [new Array] accepts,
    [generateHistogram] returns a histogram that reports every sample as
    in range, whatever the config: [inRangeCount] is the sample size and
    [outOfRangeCount] is 0, each sample having been clamped before the
    range test.  There are [bucketCount] buckets and as many labels, no
    bucket is negative; for [min < max] and at least one bucket the
    buckets add up to the sample size, and for [min = max] every bucket
    stays 0. *)
Theorem histogram_counts_every_sample (M : MathLib) (fuel k : nat)
  (config : DistributionConfig) (min max sampleSize bucketCount : Z)
  (r : Random.source) :
  (k < fuel)%nat -> Random.fair k r -> min <= max -> 0 <= sampleSize ->
  0 <= bucketCount <= 4294967295 ->
  exists h r',
    generateHistogram M fuel config min max sampleSize bucketCount r
    = Some (Some h, r')
    /\ inRangeCount h = sampleSize /\ outOfRangeCount h = 0
    /\ length (buckets h) = Z.to_nat bucketCount
    /\ length (labels h) = Z.to_nat bucketCount
    /\ Forall (fun c => 0 <= c) (buckets h)
    /\ (min < max -> 1 <= bucketCount ->
        fold_left Z.add (buckets h) 0 = sampleSize)
    /\ (min = max -> buckets h = repeat 0 (Z.to_nat bucketCount)).
Proof.
  intros Hk Hr Hm Hs Hb.
  destruct (returns_generateHistogram M fuel k config min max sampleSize
              bucketCount Hk Hm Hs Hb r Hr)
    as (res & r' & E & (t & -> & Hl & Hin & H2 & H3 & H4 & H5 & H6 & H7) & _).
  eexists. exists r'. split; [exact E|].
  cbn [inRangeCount outOfRangeCount buckets labels].
  split; [exact H2|]. split; [exact H3|]. split; [exact H4|].
  split; [now rewrite length_map, length_seq|].
  split; [exact H5|]. split; [exact H6|exact H7].
Qed.

Lemma histogram_counts_every_sample_witness :
  exists h r',
    generateHistogram exampleMath 2
      {| type := bell; center := 1 # 2; spread := 1 # 4;
         degreesOfFreedom := None |} 0 100 5 10 Random.everyOther
    = Some (Some h, r')
    /\ inRangeCount h = 5 /\ outOfRangeCount h = 0
    /\ length (buckets h) = Z.to_nat 10
    /\ length (labels h) = Z.to_nat 10
    /\ Forall (fun c => 0 <= c) (buckets h)
    /\ (0 < 100 -> 1 <= 10 -> fold_left Z.add (buckets h) 0 = 5)
    /\ (0 = 100 -> buckets h = repeat 0 (Z.to_nat 10)).
Proof.
  exact (histogram_counts_every_sample exampleMath 2 1
           {| type := bell; center := 1 # 2; spread := 1 # 4;
              degreesOfFreedom := None |} 0 100 5 10 Random.everyOther
           ltac:(lia) everyOther_fair ltac:(lia) ltac:(lia) ltac:(lia)).
Defined.



(** X18.  The mode loop of [generateHistogram], run on the sorted
    samples, finds a most frequent sample, and among the most frequent
    ones the smallest. *)
Theorem mode_is_smallest_most_frequent (samples : list Z) :
  samples <> [] ->
  exists m,
    modeOf (sortNumbers samples) = Some m /\ In m samples
    /\ (forall v, (count_occ Z.eq_dec samples v
                   <= count_occ Z.eq_dec samples m)%nat)
    /\ (forall v, count_occ Z.eq_dec samples v = count_occ Z.eq_dec samples m ->
                  m <= v).
Proof.
  intros Hne.
  pose proof (sortNumbers_perm samples) as Hperm.
  assert (Hne' : sortNumbers samples <> []).
  { intros E0. apply Permutation_length in Hperm. rewrite E0 in Hperm.
    destruct samples; [congruence|discriminate]. }
  destruct (modeOf_sorted _ (sortNumbers_sorted samples) Hne')
    as (m & E & Hin & Hmost & Hleast).
  pose proof (proj1 (Permutation_count_occ Z.eq_dec _ _) Hperm) as Hc.
  exists m. split; [exact E|]. split; [now apply (Permutation_in _ Hperm)|].
  split.
  - intros v. rewrite <- !Hc. apply Hmost.
  - intros v. rewrite <- !Hc. apply Hleast.
Qed.

Lemma mode_is_smallest_most_frequent_witness :
  exists m,
    modeOf (sortNumbers [7; 3; 7; 5; 3]) = Some m /\ In m [7; 3; 7; 5; 3]
    /\ (forall v, le (count_occ Z.eq_dec [7; 3; 7; 5; 3] v)
                      (count_occ Z.eq_dec [7; 3; 7; 5; 3] m))
    /\ (forall v, count_occ Z.eq_dec [7; 3; 7; 5; 3] v
                  = count_occ Z.eq_dec [7; 3; 7; 5; 3] m -> m <= v).
Proof.
  exact (mode_is_smallest_most_frequent [7; 3; 7; 5; 3] ltac:(discriminate)).
Defined.

(** X19.  For [min < max] of magnitude at most 2^50 and a bucket count
    that divides [max - min] (the bucket size is then an integer, and the
    quotient that the code rounds has the same floor as the exact one), a
    value of [min, max] is counted in a bucket of the array, and the
    interval from which that bucket's label is made,
    [min + i * bucketSize] to [min + (i + 1) * bucketSize], holds the
    value; the value is below the upper end except in the last bucket,
    which also takes [max]. *)
Theorem sample_is_counted_in_its_bucket (min max bucketCount value : Z) :
  min < max -> 1 <= bucketCount -> min <= value <= max ->
  (max - min) mod bucketCount = 0 ->
  - (1125899906842624) <= min -> max <= 1125899906842624 ->
  let bucketSize := (inject_Z (max - min) / inject_Z bucketCount)%Q in
  exists i,
    bucketIndexOf min bucketSize bucketCount value = Some i
    /\ 0 <= i < bucketCount
    /\ (inject_Z min + inject_Z i * bucketSize <= inject_Z value)%Q
    /\ (inject_Z value <= inject_Z min + inject_Z (i + 1) * bucketSize)%Q
    /\ (i < bucketCount - 1 ->
        (inject_Z value < inject_Z min + inject_Z (i + 1) * bucketSize)%Q).
Proof.
  intros Hm Hb Hv _ _ _ bucketSize.
  pose proof (bucketSize_pos min max bucketCount Hm Hb) as Hs.
  fold bucketSize in Hs.
  assert (Hnz : ~ (bucketSize == 0)%Q).
  { intros E. rewrite E in Hs. now apply Qlt_irrefl in Hs. }
  unfold bucketIndexOf.
  destruct (Qeq_bool bucketSize 0) eqn:E;
    [apply Qeq_bool_iff in E; contradiction|].
  set (x := (inject_Z (value - min) / bucketSize)%Q).
  assert (Hx : (x * bucketSize == inject_Z value - inject_Z min)%Q).
  { unfold x. rewrite Qmult_comm, Qmult_div_r by exact Hnz.
    apply inject_Z_minus. }
  assert (Hx0 : (0 <= x)%Q).
  { unfold x. apply Qle_shift_div_l; [exact Hs|].
    rewrite Qmult_0_l. change 0%Q with (inject_Z 0). rewrite <- Zle_Qle. lia. }
  assert (Hf0 : 0 <= Qfloor x).
  { change 0 with (Qfloor (inject_Z 0)). now apply Qfloor_resp_le. }
  assert (Hlast : (inject_Z bucketCount * bucketSize
                   == inject_Z max - inject_Z min)%Q).
  { unfold bucketSize. rewrite Qmult_div_r.
    - apply inject_Z_minus.
    - intros E0. pose proof (inject_Z_pos bucketCount ltac:(lia)) as Hp.
      rewrite E0 in Hp. now apply Qlt_irrefl in Hp. }
  assert (Hvmax : (inject_Z value <= inject_Z max)%Q)
    by (rewrite <- Zle_Qle; lia).
  exists (Z.min (Qfloor x) (bucketCount - 1)).
  split; [reflexivity|]. split; [lia|].
  assert (Hlo : (inject_Z (Z.min (Qfloor x) (bucketCount - 1)) <= x)%Q).
  { apply Qle_trans with (inject_Z (Qfloor x)); [|apply Qfloor_le].
    rewrite <- Zle_Qle. lia. }
  assert (Hstrict : Z.min (Qfloor x) (bucketCount - 1) < bucketCount - 1 ->
            (inject_Z value
             < inject_Z min
               + inject_Z (Z.min (Qfloor x) (bucketCount - 1) + 1)
                 * bucketSize)%Q).
  { intros Hi. replace (Z.min (Qfloor x) (bucketCount - 1)) with (Qfloor x)
      by lia.
    pose proof (Qlt_floor x) as Hup.
    assert (H1 : (x * bucketSize
                  < inject_Z (Qfloor x + 1) * bucketSize)%Q)
      by (apply Qmult_lt_compat_r; assumption).
    rewrite Hx in H1. lra. }
  split; [|split; [|exact Hstrict]].
  - assert (H1 : (inject_Z (Z.min (Qfloor x) (bucketCount - 1)) * bucketSize
                  <= x * bucketSize)%Q)
      by (apply Qmult_le_compat_r; [exact Hlo|now apply Qlt_le_weak]).
    rewrite Hx in H1. lra.
  - destruct (Z.lt_ge_cases (Z.min (Qfloor x) (bucketCount - 1))
                            (bucketCount - 1)) as [Hi|Hi].
    + apply Qlt_le_weak. now apply Hstrict.
    + replace (Z.min (Qfloor x) (bucketCount - 1) + 1) with bucketCount
        by lia.
      rewrite Hlast. lra.
Qed.

Lemma sample_is_counted_in_its_bucket_witness :
  exists i,
    bucketIndexOf 0 (inject_Z (100 - 0) / inject_Z 10) 10 100 = Some i
    /\ 0 <= i < 10
    /\ (inject_Z 0 + inject_Z i * (inject_Z (100 - 0) / inject_Z 10)
        <= inject_Z 100)%Q
    /\ (inject_Z 100
        <= inject_Z 0 + inject_Z (i + 1) * (inject_Z (100 - 0) / inject_Z 10))%Q
    /\ (i < 10 - 1 ->
        (inject_Z 100
         < inject_Z 0 + inject_Z (i + 1) * (inject_Z (100 - 0) / inject_Z 10))%Q).
Proof.
  exact (sample_is_counted_in_its_bucket 0 100 10 100
           ltac:(lia) ltac:(lia) ltac:(lia) eq_refl ltac:(lia) ltac:(lia)).
Defined.

End RandomnessMore.

(* ================================================================== *)
(** * More properties of distributionPDF.ts                             *)
(* ================================================================== *)

Module DistributionPDFMore.

Import Randomness RandomnessFacts DistributionPDF DistributionPDFFacts.

Lemma rawDateCurve_heights M config startTime endTime pointCount :
  map snd (rawDateCurve M config startTime endTime pointCount)
  = rawCurve M config pointCount.
Proof.
  unfold rawDateCurve, rawCurve. rewrite map_map. reflexivity.
Qed.

(** X20.  The heights of [generateDatePDFCurve] are the curve of
    [generatePDFCurve] for the same config and point count: the dates only
    label the points. *)
Theorem date_curve_has_the_same_heights (M : MathLib)
  (config : DistributionConfig) (startTime endTime pointCount : Z) :
  map snd (generateDatePDFCurve M config startTime endTime pointCount)
  = generatePDFCurve M config pointCount.
Proof.
  unfold generateDatePDFCurve, generatePDFCurve.
  rewrite <- (rawDateCurve_heights M config startTime endTime pointCount).
  now rewrite !map_map.
Qed.

(** ** The dates of the curve *)

Lemma fraction_bounds (i n : Z) :
  0 <= i <= n -> 0 < n ->
  (0 <= inject_Z i / inject_Z n)%Q /\ (inject_Z i / inject_Z n <= 1)%Q.
Proof.
  intros Hi Hn.
  assert (Hn' : (0 < inject_Z n)%Q).
  { change 0%Q with (inject_Z 0). now rewrite <- Zlt_Qlt. }
  split.
  - apply Qle_shift_div_l; [exact Hn'|]. rewrite Qmult_0_l.
    change 0%Q with (inject_Z 0). rewrite <- Zle_Qle. lia.
  - apply Qle_shift_div_r; [exact Hn'|]. rewrite Qmult_1_l.
    rewrite <- Zle_Qle. lia.
Qed.





(** ** The uniform curve *)

Lemma maxValue_lub data m :
  Forall (fun v => (v <= m)%Q) data -> (1 # 10000 <= m)%Q ->
  (maxValue data <= m)%Q.
Proof.
  intros Hall Hm. induction Hall as [|a data Ha Hall IH];
    cbn [maxValue fold_right]; [exact Hm|].
  now apply Q.max_lub.
Qed.

(** X22.  The rescaled curve of a uniform config is a step: every value
    is 0 or 1, for every point count. *)
Theorem uniform_curve_is_a_step (M : MathLib) (config : DistributionConfig)
  (pointCount : Z) :
  type config = uniform ->
  Forall (fun v => (v == 0)%Q \/ (v == 1)%Q)
         (generatePDFCurve M config pointCount).
Proof.
  intros Ht. unfold generatePDFCurve.
  set (raw := rawCurve M config pointCount).
  assert (Hraw : Forall (fun v => v = 0%Q \/ v = 1%Q) raw).
  { unfold raw, rawCurve. apply Forall_forall. intros v Hin.
    apply in_map_iff in Hin. destruct Hin as (i & <- & _).
    rewrite Ht. unfold calculatePDF, calculateUniformPDF.
    destruct (_ && _); auto. }
  apply Forall_forall. intros y Hin. apply in_map_iff in Hin.
  destruct Hin as (v & <- & Hin).
  rewrite Forall_forall in Hraw. destruct (Hraw v Hin) as [->| ->].
  - left. unfold Qdiv. apply Qmult_0_l.
  - right.
    assert (E : (maxValue raw == 1)%Q).
    { apply Qle_antisym; [|now apply maxValue_upper].
      apply maxValue_lub; [|discriminate].
      apply Forall_forall. intros w Hw.
      destruct (Hraw w Hw) as [->| ->]; discriminate. }
    rewrite E. reflexivity.
Qed.

Lemma curve_values_in_unit_interval M config pointCount :
  nonnegMath M -> nonDegenerate config ->
  Forall (fun v => (0 <= v)%Q /\ (v <= 1)%Q)
         (generatePDFCurve M config pointCount).
Proof.
  intros HM Hc. unfold generatePDFCurve.
  set (raw := rawCurve M config pointCount).
  pose proof (maxValue_pos raw) as Hpos.
  pose proof (rawCurve_nonneg M HM config pointCount Hc) as Hnn.
  fold raw in Hnn. rewrite Forall_forall in Hnn.
  apply Forall_forall. intros y Hin. apply in_map_iff in Hin.
  destruct Hin as (v & <- & Hin). split.
  - apply Qle_shift_div_l; [exact Hpos|]. rewrite Qmult_0_l. now apply Hnn.
  - apply Qle_shift_div_r; [exact Hpos|]. rewrite Qmult_1_l.
    now apply maxValue_upper.
Qed.

Lemma uniform_curve_is_a_step_witness :
  Forall (fun v => (v == 0)%Q \/ (v == 1)%Q)
         (generatePDFCurve exampleMath
            {| type := uniform; center := 1 # 3; spread := 1 # 2;
               degreesOfFreedom := None |} 101).
Proof. apply uniform_curve_is_a_step. reflexivity. Defined.

End DistributionPDFMore.

(* ================================================================== *)
(** * Properties of components/DistributionGraph.svelte                 *)
(* ================================================================== *)

Module DistributionGraphFacts.

Import Randomness DistributionPDF DistributionPDFFacts DistributionPDFMore
       DistributionGraph.

Lemma part_of_span (t w : Q) :
  (0 <= t)%Q -> (t <= 1)%Q -> (0 <= w)%Q ->
  (0 <= t * w)%Q /\ (t * w <= w)%Q.
Proof.
  intros H0 H1 Hw. split; [now apply Qmult_le_0_compat|].
  rewrite <- (Qmult_1_l w) at 2. now apply Qmult_le_compat_r.
Qed.

Lemma drawCurve_inside width height data :
  (40 <= width)%Q -> (40 <= height)%Q -> (2 <= length data)%nat ->
  Forall (fun v => (0 <= v)%Q /\ (v <= 1)%Q) data ->
  Forall (insidePlot width height) (drawCurve width height data).
Proof.
  intros Hw Hh Hlen Hdata. unfold drawCurve.
  assert (Hgw : (0 <= width - 20 * 2)%Q) by lra.
  assert (Hgh : (0 <= height - 20 * 2)%Q) by lra.
  apply Forall_app. split.
  - repeat constructor; cbn [fst snd]; lra.
  - apply Forall_app. split.
    + apply Forall_forall. intros pt Hin. apply in_map_iff in Hin.
      destruct Hin as ([i v] & <- & Hin).
      pose proof (in_combine_l _ _ _ _ Hin) as Hi. apply in_seq in Hi.
      pose proof (in_combine_r _ _ _ _ Hin) as Hv.
      rewrite Forall_forall in Hdata. destruct (Hdata v Hv) as [Hv0 Hv1].
      destruct (fraction_bounds (Z.of_nat i) (Z.of_nat (length data) - 1))
        as [Ht0 Ht1]; [lia|lia|].
      destruct (part_of_span _ _ Ht0 Ht1 Hgw) as [Hx0 Hx1].
      destruct (part_of_span _ _ Hv0 Hv1 Hgh) as [Hy0 Hy1].
      repeat split; cbn [fst snd]; lra.
    + repeat constructor; cbn [fst snd]; lra.
Qed.

(** X23.  On a canvas of at least 40 by 40, the path that [drawCurve]
    traces for the curve [drawGraph] passes to it -- [generatePDFCurve]
    at 101 or 200 points -- stays inside the padded plot area: no vertex
    is less than 20 from an edge. *)
Theorem curve_is_drawn_inside_the_plot (M : MathLib)
  (config : DistributionConfig) (graphType : GraphType) (width height : Q) :
  nonnegMath M -> nonDegenerate config ->
  (40 <= width)%Q -> (40 <= height)%Q ->
  Forall (insidePlot width height)
         (drawCurve width height
            (generatePDFCurve M config (pointCountFor graphType))).
Proof.
  intros HM Hc Hw Hh.
  apply drawCurve_inside; [exact Hw|exact Hh| |].
  - unfold generatePDFCurve. rewrite length_map, rawCurve_length.
    destruct graphType; simpl; lia.
  - now apply curve_values_in_unit_interval.
Qed.

Lemma curve_is_drawn_inside_the_plot_witness :
  Forall (insidePlot 600 300)
         (drawCurve 600 300
            (generatePDFCurve exampleMath
               {| type := t_curve; center := 1 # 2; spread := 1 # 4;
                  degreesOfFreedom := Some 5 |} (pointCountFor integer))).
Proof.
  apply curve_is_drawn_inside_the_plot.
  - apply exampleMath_nonneg.
  - repeat split; try discriminate; lia.
  - discriminate.
  - discriminate.
Defined.

End DistributionGraphFacts.

(* ================================================================== *)
(** * Properties of routes/+page.svelte                                 *)
(* ================================================================== *)

Module PageFacts.

Import JS JSFacts JSMore SearchSettings Randomness RandomnessFacts
       DistributionGraph Page.

(** ** Dragging *)

Lemma dragConfig_within deltaX deltaY config :
  withinDragBounds (dragConfig deltaX deltaY config).
Proof.
  unfold withinDragBounds, dragConfig. cbn [center spread].
  repeat split.
  - apply Q.le_max_l.
  - apply Q.max_lub; [discriminate|apply Q.le_min_l].
  - apply Q.le_max_l.
  - apply Q.max_lub; [discriminate|apply Q.le_min_l].
Qed.

Lemma handle_keeps_bounds st a :
  withinDragBounds (integerDistConfig st) ->
  withinDragBounds (dateDistConfig st) ->
  withinDragBounds (integerDistConfig (handle st a))
  /\ withinDragBounds (dateDistConfig (handle st a)).
Proof.
  intros Hi Hd. destruct a as [e g|e|]; cbn [handle].
  - now split.
  - unfold handleMouseMove.
    destruct (isDragging st); [|now split].
    destruct (dragGraphType st) as [[|]|]; cbn [integerDistConfig dateDistConfig];
      split; auto using dragConfig_within.
  - unfold handleMouseUp. destruct (isDragging st); now split.
Qed.

Lemma handle_keeps_kind st a :
  type (integerDistConfig (handle st a)) = type (integerDistConfig st)
  /\ degreesOfFreedom (integerDistConfig (handle st a))
     = degreesOfFreedom (integerDistConfig st)
  /\ type (dateDistConfig (handle st a)) = type (dateDistConfig st)
  /\ degreesOfFreedom (dateDistConfig (handle st a))
     = degreesOfFreedom (dateDistConfig st).
Proof.
  destruct a as [e g|e|]; cbn [handle].
  - now repeat split.
  - unfold handleMouseMove.
    destruct (isDragging st); [|now repeat split].
    destruct (dragGraphType st) as [[|]|]; now repeat split.
  - unfold handleMouseUp. destruct (isDragging st); now repeat split.
Qed.

(** X24.  Dragging never takes a config out of bounds: from a state whose
    two configs have center in [0, 1] and spread in [0.05, 0.5], every
    sequence of mouse-down, mouse-move and mouse-up events leads to a
    state whose configs are within the same bounds, with the distribution
    type and the degrees of freedom unchanged. *)
Theorem dragging_keeps_configs_in_bounds (actions : list MouseAction)
  (st : DragState) :
  withinDragBounds (integerDistConfig st) ->
  withinDragBounds (dateDistConfig st) ->
  let st' := handleAll actions st in
  withinDragBounds (integerDistConfig st')
  /\ withinDragBounds (dateDistConfig st')
  /\ type (integerDistConfig st') = type (integerDistConfig st)
  /\ degreesOfFreedom (integerDistConfig st')
     = degreesOfFreedom (integerDistConfig st)
  /\ type (dateDistConfig st') = type (dateDistConfig st)
  /\ degreesOfFreedom (dateDistConfig st')
     = degreesOfFreedom (dateDistConfig st).
Proof.
  unfold handleAll. revert st.
  induction actions as [|a actions IH]; intros st Hi Hd; cbn [fold_left].
  - cbv zeta. split; [exact Hi|]. split; [exact Hd|]. now repeat split.
  - destruct (handle_keeps_bounds st a Hi Hd) as [Hi' Hd'].
    destruct (handle_keeps_kind st a) as (K1 & K2 & K3 & K4).
    destruct (IH (handle st a) Hi' Hd') as (B1 & B2 & T1 & T2 & T3 & T4).
    cbv zeta. split; [exact B1|]. split; [exact B2|].
    repeat split; congruence.
Qed.

Lemma dragging_keeps_configs_in_bounds_witness :
  withinDragBounds
    (integerDistConfig
       (handleAll [Down {| clientX := 100; clientY := 100 |} integer;
                   Move {| clientX := 5000; clientY := - (700) |}; Up]
                  initialDragState)).
Proof.
  assert (Hi : withinDragBounds (integerDistConfig initialDragState))
    by (repeat split; discriminate).
  assert (Hd : withinDragBounds (dateDistConfig initialDragState))
    by (repeat split; discriminate).
  exact (proj1 (dragging_keeps_configs_in_bounds
                  [Down {| clientX := 100; clientY := 100 |} integer;
                   Move {| clientX := 5000; clientY := - (700) |}; Up]
                  initialDragState Hi Hd)).
Defined.

(** ** Picking a term *)

Lemma randomElement_in {A} (arr : list A) r :
  arr <> [] -> Random.unit_interval r ->
  exists a, fst (randomElement arr r) = Some a /\ In a arr.
Proof.
  intros Hne Hr. unfold randomElement, Random.random. cbn [fst].
  destruct (Hr 0%nat) as [H0 H1].
  assert (Hlen : 1 <= Z.of_nat (length arr)).
  { destruct arr; [congruence|simpl; lia]. }
  pose proof (NumFacts.floor_scaled (r 0%nat) _ H0 H1 Hlen) as Hi.
  destruct (Z.ltb_spec (Qfloor (r 0%nat * inject_Z (Z.of_nat (length arr)))) 0);
    [lia|].
  destruct (nth_error arr (Z.to_nat (Qfloor (r 0%nat * inject_Z (Z.of_nat (length arr))))))
    as [a|] eqn:E.
  - exists a. split; [reflexivity|]. eapply nth_error_In; eauto.
  - apply nth_error_None in E. lia.
Qed.

Lemma randomElement_source {A} (arr : list A) r :
  snd (randomElement arr r) = fun n => r (S n).
Proof. reflexivity. Qed.

Lemma has_spec selectedNames key :
  has selectedNames key = true <-> In key selectedNames.
Proof.
  unfold has. rewrite existsb_exists. split.
  - intros (x & Hin & E). apply eqb_eq in E. now subst.
  - intros Hin. exists key. split; [exact Hin|]. now apply eqb_eq.
Qed.

(** X25.  On a source of values in [0, 1), [getRandomActiveSearchTerm]
    returns null exactly for an empty list; otherwise it returns a
    pattern of the list.  When one of the pattern's specifiers is
    selected, the specifier returned is a selected specifier of that
    pattern; when none is, it is the pattern's first specifier. *)
Theorem random_term_is_an_active_one
  (activeSearchTerms : list SearchPattern) (selectedNames : list jsstring)
  (r : Random.source) :
  Random.unit_interval r ->
  match fst (getRandomActiveSearchTerm activeSearchTerms selectedNames r) with
  | NoTerm => activeSearchTerms = []
  | Raised => False
  | Term pattern specifier =>
      In pattern activeSearchTerms
      /\ ((exists spec, In spec (specifiers pattern)
                        /\ In (displayKey (name pattern) spec) selectedNames)
          -> exists spec, specifier = Some spec
                          /\ In spec (specifiers pattern)
                          /\ In (displayKey (name pattern) spec)
                                selectedNames)
      /\ ((forall spec, In spec (specifiers pattern) ->
                        ~ In (displayKey (name pattern) spec) selectedNames)
          -> specifier = nth_error (specifiers pattern) 0)
  end.
Proof.
  intros Hr. unfold getRandomActiveSearchTerm.
  destruct activeSearchTerms as [|p0 ps]; [reflexivity|].
  destruct (randomElement_in (p0 :: ps) r ltac:(discriminate) Hr)
    as (p & Ep & Hp).
  pose proof (randomElement_source (p0 :: ps) r) as Es.
  destruct (randomElement (p0 :: ps) r) as [o r1]. cbn [fst snd] in *.
  subst o r1.
  set (valid := filter _ (specifiers p)).
  assert (Hvalid : forall spec,
            In spec valid
            <-> In spec (specifiers p)
                /\ In (displayKey (name p) spec) selectedNames).
  { intros spec. unfold valid. rewrite filter_In. now rewrite has_spec. }
  destruct valid as [|v0 vs] eqn:Ev.
  - cbn [fst]. split; [exact Hp|]. split.
    + intros (spec & H1 & H2).
      destruct (proj2 (Hvalid spec) (conj H1 H2)).
    + reflexivity.
  - destruct (randomElement_in (v0 :: vs) (fun n => r (S n))
                ltac:(discriminate) (fun n => Hr (S n))) as (s & Es & Hs).
    destruct (randomElement (v0 :: vs) (fun n => r (S n))) as [o r2].
    cbn [fst] in *. subst o. split; [exact Hp|]. split.
    + intros _. exists s. split; [reflexivity|]. now apply Hvalid.
    + intros Hnone. exfalso.
      destruct (proj1 (Hvalid v0) (or_introl eq_refl)) as [H1 H2].
      exact (Hnone v0 H1 H2).
Qed.

Lemma random_term_is_an_active_one_witness :
  match fst (getRandomActiveSearchTerm
               [mkPattern (str "IMG ") None [];
                mkPattern (str "DSC ") None []]
               [displayKey (str "DSC ") []]
               (Random.constant (3 # 4))) with
  | NoTerm => False
  | Raised => False
  | Term pattern specifier =>
      name pattern = str "DSC " /\ specifier = Some []
  end.
Proof.
  pose proof (random_term_is_an_active_one
                [mkPattern (str "IMG ") None [];
                 mkPattern (str "DSC ") None []]
                [displayKey (str "DSC ") []]
                (Random.constant (3 # 4))
                (SearchSettingsFacts.constant_unit_interval (3 # 4)
                   ltac:(discriminate) ltac:(reflexivity))) as H.
  vm_compute. vm_compute in H. split; reflexivity.
Defined.

(** ** The sample preview *)

(** X26.  A preview sample for a digit count [d >= 1] prints with exactly
    [d] decimal digits, for every config: the range handed to
    [generateConstrainedInteger] is [0, 9] for one digit and
    [10^(d-1), 10^d - 1] otherwise. *)
Theorem preview_sample_has_digit_count (M : MathLib) (fuel k : nat)
  (digitCount : nat) (config : DistributionConfig) (r : Random.source) :
  (1 <= digitCount)%nat -> (k < fuel)%nat -> Random.fair k r ->
  exists v r',
    previewSample M fuel (Z.of_nat digitCount) config r = Some (v, r')
    /\ length (toString v) = digitCount.
Proof.
  intros Hd Hk Hr. unfold previewSample, previewRange.
  destruct digitCount as [|[|d]]; [lia| |].
  - change (Z.of_nat 1 =? 1) with true. cbv iota.
    change (10 ^ Z.of_nat 1 - 1) with 9.
    destruct (returns_generateConstrainedInteger M fuel k Hk 0 9 config 100
                ltac:(lia) r Hr) as (v & r' & E & Hv & _).
    exists v, r'. split; [exact E|]. apply toString_length_one. lia.
  - destruct (Z.eqb_spec (Z.of_nat (S (S d))) 1); [lia|].
    replace (Z.of_nat (S (S d)) - 1) with (Z.of_nat (S d)) by lia.
    assert (Hlt : 10 ^ Z.of_nat (S d) < 10 ^ Z.of_nat (S (S d))).
    { apply Z.pow_lt_mono_r; lia. }
    destruct (returns_generateConstrainedInteger M fuel k Hk
                (10 ^ Z.of_nat (S d)) (10 ^ Z.of_nat (S (S d)) - 1)
                config 100 ltac:(lia) r Hr) as (v & r' & E & Hv & _).
    exists v, r'. split; [exact E|]. apply toString_length. lia.
Qed.

Lemma preview_sample_has_digit_count_witness :
  exists v r',
    previewSample exampleMath 2 (Z.of_nat 4)
      {| type := bell; center := 1 # 2; spread := 1 # 4;
         degreesOfFreedom := Some 5 |} Random.everyOther = Some (v, r')
    /\ length (toString v) = 4%nat.
Proof.
  exact (preview_sample_has_digit_count exampleMath 2 1 4
           {| type := bell; center := 1 # 2; spread := 1 # 4;
              degreesOfFreedom := Some 5 |} Random.everyOther
           ltac:(lia) ltac:(lia) everyOther_fair).
Defined.

(** ** The "Find Videos" button *)

Lemma renderRun_not_empty cs n r : fst (renderRun cs (S n) r) <> [].
Proof.
  unfold renderRun.
  destruct (resolveConstraints (S n) cs) as [[min max] kind].
  destruct (getRandomInt min max r) as [randomNum r']. cbn [fst].
  intros E. apply (f_equal (@length Z)) in E.
  rewrite padStart_length in E. cbn [length] in E. lia.
Qed.

Lemma generateSearchTerm_run nm n p d r :
  generateSearchTerm nm (repeat 88 (S n)) p d r
  = (nm ++ fst (renderRun (constraints p) (S n) r), fun k => r (S k)).
Proof.
  unfold generateSearchTerm. cbn [repeat].
  change (88 :: repeat 88 n) with (repeat 88 (S n)).
  rewrite SearchSettingsMore.fill_single_run.
  pose proof (renderRun_not_empty (constraints p) n r) as Hne.
  pose proof (SearchSettingsMore.renderRun_source (constraints p) (S n) r) as Hs.
  destruct (renderRun (constraints p) (S n) r) as [text r'].
  cbn [fst snd] in *. subst r'. now destruct text.
Qed.

Lemma formatSearchTermToURL_source p specifier d dateOverride r :
  snd (formatSearchTermToURL p specifier d dateOverride r)
  = snd (generateSearchTerm (name p) specifier p d r).
Proof.
  unfold formatSearchTermToURL.
  now destruct (generateSearchTerm (name p) specifier p d r).
Qed.

(** X27.  What a click on "Find Videos" records.  When the term picked
    is a pattern [p] with a specifier of [n >= 1] X's, the URL that is
    opened holds the name followed by the text rendered from the next
    random number; the history entry holds that URL, but as its specifier
    the text rendered from the random number after it: the specifier is
    filled a second time.  The date modifier of the entry is made from
    [dateFilterType], which the URL does not depend on. *)
Theorem history_entry_is_filled_again
  (parseDate : jsstring -> Date)
  (randomSpecDay : SearchPattern -> Random.source -> Date * Random.source)
  (now : Date) (activeSearchTerms : list SearchPattern)
  (selectedNames : list jsstring) (enableDateOverride : bool)
  (customDate dateFilterType : jsstring)
  (searchHistory : list HistoryEntry.t) (r : Random.source)
  (p : SearchPattern) (n : nat) :
  fst (getRandomActiveSearchTerm activeSearchTerms selectedNames r)
  = Term p (Some (repeat 88 (S n))) ->
  let r1 := snd (getRandomActiveSearchTerm activeSearchTerms selectedNames r) in
  let picked :=
    pickDate parseDate randomSpecDay enableDateOverride customDate p r1 in
  let d := fst picked in
  let r2 := snd picked in
  let term := name p ++ fst (renderRun (constraints p) (S n) r2) in
  let filter :=
    determineDateFilter (repeat 88 (S n)) p d (quoted term)
                        enableDateOverride in
  exists e,
    fst (handleFindVideos parseDate randomSpecDay now activeSearchTerms
           selectedNames enableDateOverride customDate dateFilterType
           searchHistory r)
    = Opened (HistoryEntry.url e) (e :: searchHistory)
    /\ HistoryEntry.url e
       = urlPrefix
         ++ formEncode match filter with
                       | [] => quoted term
                       | _ => quoted term ++ [32] ++ filter
                       end
         ++ str "&sp=CAISAhAB"
    /\ HistoryEntry.name e = name p
    /\ HistoryEntry.specifier e
       = fst (renderRun (constraints p) (S n) (fun k => r2 (S k)))
    /\ HistoryEntry.dateModifier e
       = if enableDateOverride
         then Some (dateModifierOf dateFilterType d)
         else None.
Proof.
  intros Hsel. cbv zeta. unfold handleFindVideos.
  destruct (getRandomActiveSearchTerm activeSearchTerms selectedNames r)
    as [sel r1].
  cbn [fst snd] in *. subst sel.
  destruct (pickDate parseDate randomSpecDay enableDateOverride customDate
              p r1) as [d r2].
  cbn [fst snd].
  pose proof (SearchSettingsFacts.formatSearchTermToURL_shape p (repeat 88 (S n)) d
                enableDateOverride r2) as Hurl.
  pose proof (formatSearchTermToURL_source p (repeat 88 (S n)) d
                enableDateOverride r2) as Hsrc.
  rewrite generateSearchTerm_run in Hurl, Hsrc. cbn [fst snd] in Hurl, Hsrc.
  cbv zeta in Hurl.
  destruct (formatSearchTermToURL p (repeat 88 (S n)) d enableDateOverride r2)
    as [formattedURL r3].
  cbn [fst snd] in Hurl, Hsrc. subst r3.
  rewrite SearchSettingsMore.fill_single_run.
  destruct (renderRun (constraints p) (S n) (fun k => r2 (S k)))
    as [filledSpecifier r4].
  cbn [fst].
  exists {| HistoryEntry.name := name p;
            HistoryEntry.specifier := filledSpecifier;
            HistoryEntry.url := formattedURL;
            HistoryEntry.timestamp := now;
            HistoryEntry.dateModifier :=
              if enableDateOverride
              then Some (dateModifierOf dateFilterType d)
              else None |}.
  split; [reflexivity|].
  cbn [HistoryEntry.url HistoryEntry.name HistoryEntry.specifier
       HistoryEntry.dateModifier].
  split; [exact Hurl|]. repeat split.
Qed.

Lemma history_entry_is_filled_again_witness :
  let p := {| name := str "IMG "; genre := []; age := None;
              specifiers := [str "XXXX"]; constraints := [];
              dateBefore := None; dateAfter := None; dateExact := None;
              isCustom := false |} in
  exists e,
    fst (handleFindVideos (fun _ => mkDate 2024 3 15)
           (fun _ r => (mkDate 2020 1 1, r)) (mkDate 2025 1 1)
           [p] [] true (str "2024-03-15") (str "after") []
           (Random.from_list [0; 12345 # 100000; 98765 # 100000]%Q (1 # 2)))
    = Opened (HistoryEntry.url e) [e]
    /\ HistoryEntry.url e
       = urlPrefix ++ str "%22IMG+1234%22+before%3A2024-03-15&sp=CAISAhAB"
    /\ HistoryEntry.name e = str "IMG "
    /\ HistoryEntry.specifier e = str "9876"
    /\ HistoryEntry.dateModifier e = Some (str "after:20240315").
Proof.
  intros p.
  destruct (history_entry_is_filled_again (fun _ => mkDate 2024 3 15)
              (fun _ r => (mkDate 2020 1 1, r)) (mkDate 2025 1 1)
              [p] [] true (str "2024-03-15") (str "after") []
              (Random.from_list [0; 12345 # 100000; 98765 # 100000]%Q (1 # 2))
              p 3 eq_refl) as (e & H1 & H2 & H3 & H4 & H5).
  exists e. split; [exact H1|]. split; [rewrite H2; reflexivity|].
  split; [exact H3|]. split; [rewrite H4; reflexivity|].
  rewrite H5. reflexivity.
Defined.

End PageFacts.
